(** * Minecraft-NBT: a shallow embedding of [src/nbtClass.tsx]

    The tag classes, their constructors, the cursor-based writer
    ([writeHeader], [writePayload], [toBytes]) and the reader
    ([readPayload], [_getNBTName], [parseNBT]) are transcribed as Rocq
    functions.  A [stream] is the JavaScript object
    [{ buffer: ArrayBuffer; byteOffset: number }]; code that reads or
    writes it lives in the monad [M], which threads the stream and carries
    thrown exceptions.  The stream survives a throw, as the mutated object
    does in JavaScript. *)

From Stdlib Require Import ZArith List Lia Bool.
From Stdlib.Strings Require Import String Ascii Byte.
From Stdlib Require Import Floats.SpecFloat.
Import ListNotations.
Open Scope Z_scope.

(** ** The platform: numbers, bytes, text codecs *)

Module JS.

(** A JavaScript [number] is an IEEE-754 binary64 value.  The Standard
    Library's [spec_float] gives its exact value: [S754_finite s m e] is
    [(-1)^s * m * 2^e]. *)
Definition number := spec_float.

(** The number denoted by an integer literal, or produced from an integer
    read out of a buffer: the nearest binary64 value, ties to even. *)
Definition number_of_Z (z : Z) : number := binary_normalize 53 1024 z 0 false.

(** A finite number as a scaled integer [m * 2^e]. *)
Definition dyadic (x : number) : Z * Z :=
  match x with
  | S754_finite s m e => (cond_Zopp s (Zpos m), e)
  | _ => (0, 0)
  end.

(** Exact comparison of two numbers; [None] when one of them is NaN. *)
Definition number_compare (x y : number) : option comparison :=
  match x, y with
  | S754_nan, _ | _, S754_nan => None
  | S754_infinity s1, S754_infinity s2 =>
      Some (if s1 then (if s2 then Eq else Lt) else (if s2 then Gt else Eq))
  | S754_infinity s, _ => Some (if s then Lt else Gt)
  | _, S754_infinity s => Some (if s then Gt else Lt)
  | _, _ =>
      let '(m1, e1) := dyadic x in
      let '(m2, e2) := dyadic y in
      let e := Z.min e1 e2 in
      Some (Z.compare (m1 * 2 ^ (e1 - e)) (m2 * 2 ^ (e2 - e)))
  end.

(** [x > y] and [x < y] on numbers: false as soon as one side is NaN. *)
Definition gt (x y : number) : bool :=
  match number_compare x y with Some Gt => true | _ => false end.
Definition lt (x y : number) : bool :=
  match number_compare x y with Some Lt => true | _ => false end.

(** [Number.isInteger]. *)
Definition Number_isInteger (x : number) : bool :=
  match x with
  | S754_zero _ => true
  | S754_finite _ m e => if 0 <=? e then true else Zpos m mod 2 ^ (- e) =? 0
  | _ => false
  end.

(** Truncation toward zero, with NaN and the infinities sent to 0: the
    first step of the [ToInt8], [ToInt16], [ToInt32] conversions. *)
Definition truncate (x : number) : Z :=
  match x with
  | S754_finite s m e =>
      cond_Zopp s (if 0 <=? e then Zpos m * 2 ^ e else Zpos m / 2 ^ (- e))
  | _ => 0
  end.

(** [BigInt(x)] for a number [x]: its exact value when integral, a
    RangeError (here [None]) otherwise. *)
Definition BigInt (x : number) : option Z :=
  if Number_isInteger x then Some (truncate x) else None.

(** Wrap-around to [w] bits, unsigned and signed. *)
Definition wrap_unsigned (w z : Z) : Z := z mod 2 ^ w.
Definition wrap_signed (w z : Z) : Z :=
  let r := z mod 2 ^ w in if r <? 2 ^ (w - 1) then r else r - 2 ^ w.

(** *** IEEE-754 interchange formats

    [mw] mantissa bits and [ew] exponent bits: (23, 8) is Float32 and
    (52, 11) is Float64. *)
Definition float_of_bits (mw ew bits : Z) : number :=
  let s := Z.testbit bits (mw + ew) in
  let E := (bits / 2 ^ mw) mod 2 ^ ew in
  let m := bits mod 2 ^ mw in
  let bias := 2 ^ (ew - 1) - 1 in
  if E =? 2 ^ ew - 1 then (if m =? 0 then S754_infinity s else S754_nan)
  else if E =? 0 then
    binary_normalize 53 1024 (cond_Zopp s m) (1 - bias - mw) s
  else
    binary_normalize 53 1024 (cond_Zopp s (2 ^ mw + m)) (E - bias - mw) s.

Definition bits_of_float (mw ew : Z) (x : number) : Z :=
  let emax := 2 ^ (ew - 1) in
  let bias := emax - 1 in
  let sign (s : bool) := if s then 2 ^ (mw + ew) else 0 in
  let r := match x with
           | S754_finite s m e => binary_round (mw + 1) emax s m e
           | _ => x
           end in
  match r with
  | S754_zero s => sign s
  | S754_infinity s => sign s + (2 ^ ew - 1) * 2 ^ mw
  | S754_nan => (2 ^ ew - 1) * 2 ^ mw + 2 ^ (mw - 1)
  | S754_finite s m e =>
      if Zpos m <? 2 ^ mw then sign s + Zpos m
      else sign s + (e + bias + mw) * 2 ^ mw + (Zpos m - 2 ^ mw)
  end.

(** *** Bytes *)

Definition u8 (b : byte) : Z := Z.of_N (Byte.to_N b).

Definition byte_of_Z (z : Z) : byte :=
  match Byte.of_N (Z.to_N (z mod 256)) with
  | Some b => b
  | None => x00
  end.

Definition bytes_of (l : list Z) : list byte := map byte_of_Z l.

(** Big-endian value of a byte sequence, and the [n] big-endian bytes of a
    value. *)
Definition be_value (bs : list byte) : Z :=
  fold_left (fun acc b => acc * 256 + u8 b) bs 0.

Fixpoint be_bytes (n : nat) (v : Z) : list byte :=
  match n with
  | O => []
  | S n' => be_bytes n' (v / 256) ++ [byte_of_Z v]
  end.

(** *** Strings and the UTF-8 codecs

    A JavaScript string is a sequence of UTF-16 code units. *)
Definition jsstring := list Z.

Definition of_string (s : string) : jsstring :=
  map (fun a => Z.of_N (N_of_ascii a)) (list_ascii_of_string s).

Definition utf8_of_code_point (c : Z) : list byte :=
  if c <? 128 then [byte_of_Z c]
  else if c <? 2048 then
    [byte_of_Z (192 + c / 64); byte_of_Z (128 + c mod 64)]
  else if c <? 65536 then
    [byte_of_Z (224 + c / 4096); byte_of_Z (128 + (c / 64) mod 64);
     byte_of_Z (128 + c mod 64)]
  else
    [byte_of_Z (240 + c / 262144); byte_of_Z (128 + (c / 4096) mod 64);
     byte_of_Z (128 + (c / 64) mod 64); byte_of_Z (128 + c mod 64)].

Definition is_high_surrogate (c : Z) : bool := (55296 <=? c) && (c <=? 56319).
Definition is_low_surrogate (c : Z) : bool := (56320 <=? c) && (c <=? 57343).

(** [new TextEncoder().encode]: UTF-16 to UTF-8, a lone surrogate becoming
    U+FFFD. *)
Fixpoint utf8Encode (s : jsstring) : list byte :=
  match s with
  | [] => []
  | c :: r =>
      if is_high_surrogate c then
        match r with
        | d :: r' =>
            if is_low_surrogate d then
              utf8_of_code_point
                (65536 + (c - 55296) * 1024 + (d - 56320)) ++ utf8Encode r'
            else utf8_of_code_point 65533 ++ utf8Encode r
        | [] => utf8_of_code_point 65533
        end
      else if is_low_surrogate c then utf8_of_code_point 65533 ++ utf8Encode r
      else utf8_of_code_point c ++ utf8Encode r
  end.

(** The decoder state of the Encoding Standard's UTF-8 decoder: the code
    point under construction, the continuation bytes still needed, and
    the bounds on the next byte. *)
Record utf8_state : Type := {
  code_point : Z;
  bytes_needed : Z;
  lower_boundary : Z;
  upper_boundary : Z
}.

Definition utf8_initial : utf8_state :=
  {| code_point := 0; bytes_needed := 0;
     lower_boundary := 128; upper_boundary := 191 |}.

(** A byte met when no continuation byte is pending: the code points it
    emits and the next state. *)
Definition utf8_lead (b : Z) : list Z * utf8_state :=
  if b <=? 127 then ([b], utf8_initial)
  else if (194 <=? b) && (b <=? 223) then
    ([], {| code_point := Z.land b 31; bytes_needed := 1;
            lower_boundary := 128; upper_boundary := 191 |})
  else if (224 <=? b) && (b <=? 239) then
    ([], {| code_point := Z.land b 15; bytes_needed := 2;
            lower_boundary := if b =? 224 then 160 else 128;
            upper_boundary := if b =? 237 then 159 else 191 |})
  else if (240 <=? b) && (b <=? 244) then
    ([], {| code_point := Z.land b 7; bytes_needed := 3;
            lower_boundary := if b =? 240 then 144 else 128;
            upper_boundary := if b =? 244 then 143 else 191 |})
  else ([65533], utf8_initial).

Fixpoint utf8_code_points (bs : list byte) (st : utf8_state) : list Z :=
  match bs with
  | [] => if bytes_needed st =? 0 then [] else [65533]
  | b :: r =>
      let v := u8 b in
      if bytes_needed st =? 0 then
        let (out, st') := utf8_lead v in out ++ utf8_code_points r st'
      else if (lower_boundary st <=? v) && (v <=? upper_boundary st) then
        let cp := code_point st * 64 + Z.land v 63 in
        if bytes_needed st =? 1 then cp :: utf8_code_points r utf8_initial
        else
          utf8_code_points r
            {| code_point := cp; bytes_needed := bytes_needed st - 1;
               lower_boundary := 128; upper_boundary := 191 |}
      else
        let (out, st') := utf8_lead v in
        65533 :: out ++ utf8_code_points r st'
  end.

Definition utf16_of_code_point (c : Z) : list Z :=
  if c <? 65536 then [c]
  else [55296 + (c - 65536) / 1024; 56320 + (c - 65536) mod 1024].

Definition strip_BOM (bs : list byte) : list byte :=
  match bs with
  | b0 :: b1 :: b2 :: r =>
      if (u8 b0 =? 239) && (u8 b1 =? 187) && (u8 b2 =? 191) then r else bs
  | _ => bs
  end.

(** [new TextDecoder("utf-8").decode]: not fatal, the byte order mark
    dropped. *)
Definition utf8Decode (bs : list byte) : jsstring :=
  flat_map utf16_of_code_point (utf8_code_points (strip_BOM bs) utf8_initial).

End JS.

Import JS.

(** ** Exceptions, the stream and its monad *)

(** What a [RangeError] of the platform was raised for: a view or an
    access that leaves the extent of its buffer, or an offset or length
    that is no valid index (negative). *)
Inductive range_cause : Type :=
| OutOfBounds
| InvalidLength.

(** [Error message] is [new Error(message)], thrown by the codec itself;
    the other two are raised by the platform.  The template literal
    [`Invalid payload ${payload}`] is kept as its constant part. *)
Inductive exn : Type :=
| Error (message : string)
| RangeError (cause : range_cause)
| TypeError.

Inductive outcome (A : Type) : Type :=
| Ok (a : A)
| Throw (e : exn)
| OutOfFuel.

Arguments Ok {A} a.
Arguments Throw {A} e.
Arguments OutOfFuel {A}.

Record stream : Type := { buffer : list byte; byteOffset : Z }.

Definition M (A : Type) : Type := stream -> outcome A * stream.

Definition ret {A} (a : A) : M A := fun s => (Ok a, s).

Definition bind {A B} (m : M A) (f : A -> M B) : M B :=
  fun s =>
    match m s with
    | (Ok a, s') => f a s'
    | (Throw e, s') => (Throw e, s')
    | (OutOfFuel, s') => (OutOfFuel, s')
    end.

Definition throw {A} (e : exn) : M A := fun s => (Throw e, s).

Definition out_of_fuel {A} : M A := fun s => (OutOfFuel, s).

(** A constructor call inside stream code. *)
Definition lift {A} (o : outcome A) : M A := fun s => (o, s).

Declare Scope M_scope.
Delimit Scope M_scope with M.
Notation "x <- m ;; k" := (bind m (fun x => k))
  (at level 61, m at next level, right associativity) : M_scope.
Notation "m ;; k" := (bind m (fun _ => k))
  (at level 61, right associativity) : M_scope.
Open Scope M_scope.

Fixpoint forM_ {A} (l : list A) (f : A -> M unit) : M unit :=
  match l with
  | [] => ret tt
  | a :: r => f a ;; forM_ r f
  end.

Fixpoint mapM {A B} (f : A -> M B) (l : list A) : M (list B) :=
  match l with
  | [] => ret []
  | a :: r => b <- f a ;; bs <- mapM f r ;; ret (b :: bs)
  end.

(** The indices [0, 1, ..., n-1] of a [for (let i = 0; i < n; i++)]. *)
Definition indices (n : Z) : list Z := map Z.of_nat (seq 0 (Z.to_nat n)).

(** [stream.byteOffset], [stream.byteOffset += n], [stream.byteOffset++]
    and [stream.buffer.byteLength]. *)
Definition get_byteOffset : M Z := fun s => (Ok (byteOffset s), s).

Definition advance (n : Z) : M unit :=
  fun s => (Ok tt, {| buffer := buffer s; byteOffset := byteOffset s + n |}).

Definition post_increment : M Z :=
  fun s => (Ok (byteOffset s),
            {| buffer := buffer s; byteOffset := byteOffset s + 1 |}).

Definition byteLength (s : stream) : Z := Z.of_nat (List.length (buffer s)).

Definition get_byteLength : M Z := fun s => (Ok (byteLength s), s).

(** *** Views over [stream.buffer]

    Every view in the source is over the stream's one buffer, so a view is
    its offset and length.  The constructor checks them against the
    buffer's extent. *)
Record DataView : Type := { dv_byteOffset : Z; dv_byteLength : Z }.

Definition new_DataView (off len : Z) : M DataView :=
  fun s =>
    if (off <? 0) || (len <? 0) then (Throw (RangeError InvalidLength), s)
    else if byteLength s <? off + len then (Throw (RangeError OutOfBounds), s)
    else (Ok {| dv_byteOffset := off; dv_byteLength := len |}, s).

Definition slice (buf : list byte) (off len : Z) : list byte :=
  firstn (Z.to_nat len) (skipn (Z.to_nat off) buf).

Definition overwrite (buf : list byte) (off : Z) (bs : list byte) : list byte :=
  firstn (Z.to_nat off) buf ++ bs
    ++ skipn (Z.to_nat off + List.length bs) buf.

(** The [n] bytes at index [i] of a view, as every [get...] reads them. *)
Definition get_bytes (data : DataView) (i n : Z) : M (list byte) :=
  fun s =>
    if i <? 0 then (Throw (RangeError InvalidLength), s)
    else if dv_byteLength data <? i + n then (Throw (RangeError OutOfBounds), s)
    else (Ok (slice (buffer s) (dv_byteOffset data + i) n), s).

(** The bytes every [set...] stores at index [i] of a view. *)
Definition put_bytes (data : DataView) (i : Z) (bs : list byte) : M unit :=
  fun s =>
    if i <? 0 then (Throw (RangeError InvalidLength), s)
    else if dv_byteLength data <? i + Z.of_nat (List.length bs)
    then (Throw (RangeError OutOfBounds), s)
    else (Ok tt, {| buffer := overwrite (buffer s) (dv_byteOffset data + i) bs;
                    byteOffset := byteOffset s |}).

Definition endian (littleEndian : bool) (bs : list byte) : list byte :=
  if littleEndian then rev bs else bs.

(** Integer getters return the integer read (a [Z]); where the source
    keeps it as a payload of type [number] the reader converts it. *)
Definition getUint (bytes : nat) (data : DataView) (i : Z) (le : bool) : M Z :=
  bs <- get_bytes data i (Z.of_nat bytes) ;; ret (be_value (endian le bs)).

Definition getInt (bytes : nat) (data : DataView) (i : Z) (le : bool) : M Z :=
  v <- getUint bytes data i le ;; ret (wrap_signed (8 * Z.of_nat bytes) v).

Definition getUint8 data i := getUint 1 data i false.
Definition getInt8 data i := getInt 1 data i false.
Definition getUint16 := getUint 2.
Definition getInt16 := getInt 2.
Definition getInt32 := getInt 4.
Definition getBigInt64 := getInt 8.

Definition getFloat32 (data : DataView) (i : Z) (le : bool) : M number :=
  v <- getUint 4 data i le ;; ret (float_of_bits 23 8 v).

Definition getFloat64 (data : DataView) (i : Z) (le : bool) : M number :=
  v <- getUint 8 data i le ;; ret (float_of_bits 52 11 v).

(** Integer setters take the integer to store and wrap it to the width. *)
Definition setInt (bytes : nat) (data : DataView) (i v : Z) (le : bool) : M unit :=
  put_bytes data i (endian le (be_bytes bytes v)).

Definition setUint8 data i v := setInt 1 data i v false.
Definition setInt8 data i v := setInt 1 data i v false.
Definition setUint16 := setInt 2.
Definition setInt16 := setInt 2.
Definition setUint32 := setInt 4.
Definition setInt32 := setInt 4.
Definition setBigInt64 := setInt 8.

Definition setFloat32 (data : DataView) (i : Z) (x : number) (le : bool) : M unit :=
  setInt 4 data i (bits_of_float 23 8 x) le.

Definition setFloat64 (data : DataView) (i : Z) (x : number) (le : bool) : M unit :=
  setInt 8 data i (bits_of_float 52 11 x) le.

(** [new Uint8Array(stream.buffer, off, len)] and
    [new Int8Array(stream.buffer, off, len)].  The typed array aliases the
    buffer; the reader never writes the buffer, so its elements are given
    by value. *)
Definition new_Uint8Array (off len : Z) : M (list byte) :=
  fun s =>
    if (off <? 0) || (len <? 0) then (Throw (RangeError InvalidLength), s)
    else if byteLength s <? off + len then (Throw (RangeError OutOfBounds), s)
    else (Ok (slice (buffer s) off len), s).

Definition new_Int8Array (off len : Z) : M (list Z) :=
  bs <- new_Uint8Array off len ;; ret (map (fun b => wrap_signed 8 (u8 b)) bs).

(** [new Array(n)]: a negative length is a RangeError. *)
Definition new_Array (n : Z) : M unit :=
  if n <? 0 then throw (RangeError InvalidLength) else ret tt.

(** ** The tag classes *)

Definition LITTLE_ENDIAN : bool := false.

(** One constructor per class, holding the fields the class constructor
    stores.  [TAG_End] passes [0] and the empty string to [super], so it
    stores nothing of its own.  The byte, int and long array classes keep
    [_payloadLength = payload.length], read here off the payload;
    [TAG_List] and [TAG_Compound] keep the [_payloadLength] their
    constructor summed.  [TAG_String] keeps [_rawPayload]; its [payload]
    is the text [mutf8Decode] makes of those bytes, which no reader or
    writer looks at: it is left out, the decoder of the mutf-8 package
    being built without its [fatal] option and so taken not to throw. *)
#[warnings="-register-all"]
Inductive NBT : Type :=
| TAG_End
| TAG_Byte (nameLength : Z) (name : jsstring) (payload : number)
| TAG_Short (nameLength : Z) (name : jsstring) (payload : number)
| TAG_Int (nameLength : Z) (name : jsstring) (payload : number)
| TAG_Long (nameLength : Z) (name : jsstring) (payload : Z)
| TAG_Float (nameLength : Z) (name : jsstring) (payload : number)
| TAG_Double (nameLength : Z) (name : jsstring) (payload : number)
| TAG_Byte_Array (nameLength : Z) (name : jsstring) (payload : list Z)
| TAG_String (nameLength : Z) (name : jsstring) (_rawPayload : list byte)
| TAG_List (nameLength : Z) (name : jsstring)
    (_tagType : Z) (_payloadLength : Z) (payload : list NBT)
| TAG_Compound (nameLength : Z) (name : jsstring)
    (_payloadLength : Z) (payload : list NBT)
| TAG_Int_Array (nameLength : Z) (name : jsstring) (payload : list Z)
| TAG_Long_Array (nameLength : Z) (name : jsstring) (payload : list Z).

(** [static ID] of the class of a tag, which the base constructor copies
    into [this.id]. *)
Definition id (t : NBT) : Z :=
  match t with
  | TAG_End => 0
  | TAG_Byte _ _ _ => 1
  | TAG_Short _ _ _ => 2
  | TAG_Int _ _ _ => 3
  | TAG_Long _ _ _ => 4
  | TAG_Float _ _ _ => 5
  | TAG_Double _ _ _ => 6
  | TAG_Byte_Array _ _ _ => 7
  | TAG_String _ _ _ => 8
  | TAG_List _ _ _ _ _ => 9
  | TAG_Compound _ _ _ _ => 10
  | TAG_Int_Array _ _ _ => 11
  | TAG_Long_Array _ _ _ => 12
  end.

Definition nameLength (t : NBT) : Z :=
  match t with
  | TAG_End => 0
  | TAG_Byte n _ _ | TAG_Short n _ _ | TAG_Int n _ _ | TAG_Long n _ _
  | TAG_Float n _ _ | TAG_Double n _ _ | TAG_Byte_Array n _ _
  | TAG_String n _ _ | TAG_List n _ _ _ _ | TAG_Compound n _ _ _
  | TAG_Int_Array n _ _ | TAG_Long_Array n _ _ => n
  end.

Definition name (t : NBT) : jsstring :=
  match t with
  | TAG_End => []
  | TAG_Byte _ s _ | TAG_Short _ s _ | TAG_Int _ s _ | TAG_Long _ s _
  | TAG_Float _ s _ | TAG_Double _ s _ | TAG_Byte_Array _ s _
  | TAG_String _ s _ | TAG_List _ s _ _ _ | TAG_Compound _ s _ _
  | TAG_Int_Array _ s _ | TAG_Long_Array _ s _ => s
  end.

(** The field [headerLength: number = 2] of [AbstractNBT]. *)
Definition headerLength : Z := 2.

Definition getHeaderLength (t : NBT) : Z :=
  match t with
  | TAG_End => 1
  | _ => 1 + 2 + headerLength
  end.

Definition getPayloadLength (t : NBT) : Z :=
  match t with
  | TAG_End => 0
  | TAG_Byte _ _ _ => 1
  | TAG_Short _ _ _ => 2
  | TAG_Int _ _ _ => 4
  | TAG_Long _ _ _ => 8
  | TAG_Float _ _ _ => 4
  | TAG_Double _ _ _ => 8
  | TAG_Byte_Array _ _ payload => 4 + Z.of_nat (List.length payload)
  | TAG_String _ _ raw => 2 + Z.of_nat (List.length raw)
  | TAG_List _ _ _ _payloadLength _ => 2 + _payloadLength
  | TAG_Compound _ _ _payloadLength _ => _payloadLength
  | TAG_Int_Array _ _ payload => 4 + Z.of_nat (List.length payload) * 4
  | TAG_Long_Array _ _ payload => 4 + Z.of_nat (List.length payload) * 8
  end.

Definition getTotalLength (t : NBT) : Z :=
  getHeaderLength t + getPayloadLength t.

(** [payload.reduce((a, b) => a + b.getTotalLength(), 0)]. *)
Definition sum_total_lengths (payload : list NBT) : Z :=
  fold_left (fun a b => a + getTotalLength b) payload 0.

(** [a[i]] on an array: [undefined] (here [None]) outside of it. *)
Definition array_get {A} (a : list A) (i : Z) : option A :=
  if i <? 0 then None else nth_error a (Z.to_nat i).

(** *** Constructors

    [new_TAG_X] is [new TAG_X(nameLength, name, payload)].  The arguments
    have their TypeScript types, so the [typeof] tests of [TAG_Long],
    [TAG_Float] and [TAG_Double] never fire and are left out. *)
Definition invalid_payload : exn := Error "Invalid payload".

Definition new_TAG_End : outcome NBT := Ok TAG_End.

Definition new_TAG_Byte (nl : Z) (nm : jsstring) (payload : number) : outcome NBT :=
  if gt payload (number_of_Z 127) || lt payload (number_of_Z (-128))
  then Throw invalid_payload
  else Ok (TAG_Byte nl nm payload).

Definition new_TAG_Short (nl : Z) (nm : jsstring) (payload : number) : outcome NBT :=
  if gt payload (number_of_Z 32767) || lt payload (number_of_Z (-32768))
     || negb (Number_isInteger payload)
  then Throw invalid_payload
  else Ok (TAG_Short nl nm payload).

Definition new_TAG_Int (nl : Z) (nm : jsstring) (payload : number) : outcome NBT :=
  if gt payload (number_of_Z 2147483647) || lt payload (number_of_Z (-2147483648))
     || negb (Number_isInteger payload)
  then Throw invalid_payload
  else Ok (TAG_Int nl nm payload).

(** The bounds are [BigInt(9223372036854775807)] and
    [BigInt(-9223372036854775808)]: each literal is a [number] first. *)
Definition new_TAG_Long (nl : Z) (nm : jsstring) (payload : Z) : outcome NBT :=
  match BigInt (number_of_Z 9223372036854775807),
        BigInt (number_of_Z (-9223372036854775808)) with
  | Some hi, Some lo =>
      if (payload >? hi) || (payload <? lo)
      then Throw invalid_payload
      else Ok (TAG_Long nl nm payload)
  | _, _ => Throw (RangeError InvalidLength)
  end.

Definition new_TAG_Float (nl : Z) (nm : jsstring) (payload : number) : outcome NBT :=
  if Number_isInteger payload then Throw invalid_payload
  else Ok (TAG_Float nl nm payload).

Definition new_TAG_Double (nl : Z) (nm : jsstring) (payload : number) : outcome NBT :=
  if Number_isInteger payload then Throw invalid_payload
  else Ok (TAG_Double nl nm payload).

Definition new_TAG_Byte_Array (nl : Z) (nm : jsstring) (payload : list Z) : outcome NBT :=
  Ok (TAG_Byte_Array nl nm payload).

Definition new_TAG_String (nl : Z) (nm : jsstring) (rawPayload : list byte) : outcome NBT :=
  Ok (TAG_String nl nm rawPayload).

Definition new_TAG_List (nl : Z) (nm : jsstring) (tagType : Z) (payload : list NBT)
  : outcome NBT :=
  let _payloadLength := 1 + 4 + sum_total_lengths payload in
  if existsb (fun tag => negb (id tag =? tagType) || negb (nameLength tag =? 0))
       payload
  then Throw (Error "Tag type does not match expected type or name not empty.")
  else Ok (TAG_List nl nm tagType _payloadLength payload).

Definition new_TAG_Compound (nl : Z) (nm : jsstring) (payload : list NBT)
  : outcome NBT :=
  let _payloadLength := sum_total_lengths payload in
  match array_get payload (Z.of_nat (List.length payload) - 1) with
  | None => Throw TypeError
  | Some last =>
      if negb (id last =? id TAG_End)
      then Throw (Error "TAG_Compound must end with a TAG_End")
      else Ok (TAG_Compound nl nm _payloadLength payload)
  end.

Definition new_TAG_Int_Array (nl : Z) (nm : jsstring) (payload : list Z) : outcome NBT :=
  Ok (TAG_Int_Array nl nm payload).

Definition new_TAG_Long_Array (nl : Z) (nm : jsstring) (payload : list Z) : outcome NBT :=
  Ok (TAG_Long_Array nl nm payload).

(** ** The writer *)

(** [for (let i = 0; i < a.length; i++) f(i, a[i])]. *)
Definition for_indexed {A} (a : list A) (f : Z -> A -> M unit) : M unit :=
  forM_ (combine (indices (Z.of_nat (List.length a))) a) (fun p => f (fst p) (snd p)).

Definition writeHeader (t : NBT) : M unit :=
  match t with
  | TAG_End =>
      off <- post_increment ;;
      data <- new_DataView off 1 ;;
      setUint8 data 0 (id t)
  | _ =>
      off <- get_byteOffset ;;
      data <- new_DataView off (getHeaderLength t) ;;
      setUint8 data 0 (id t) ;;
      setUint32 data 1 (nameLength t) LITTLE_ENDIAN ;;
      let nameArray := utf8Encode (name t) in
      for_indexed nameArray (fun idx b => setUint8 data (3 + idx) (u8 b)) ;;
      advance (dv_byteLength data)
  end.

(** The payload writers whose view spans [getPayloadLength()] bytes at the
    cursor: [body] fills the view, then the cursor moves past it. *)
Definition with_payload_view (t : NBT) (body : DataView -> M unit) : M unit :=
  off <- get_byteOffset ;;
  data <- new_DataView off (getPayloadLength t) ;;
  body data ;;
  advance (getPayloadLength t).

Fixpoint writePayload (t : NBT) : M unit :=
  match t with
  | TAG_End => ret tt
  | TAG_Byte _ _ payload =>
      with_payload_view t (fun data => setInt8 data 0 (truncate payload))
  | TAG_Short _ _ payload =>
      with_payload_view t (fun data =>
        setInt16 data 0 (truncate payload) LITTLE_ENDIAN)
  | TAG_Int _ _ payload =>
      with_payload_view t (fun data =>
        setInt32 data 0 (truncate payload) LITTLE_ENDIAN)
  | TAG_Long _ _ payload =>
      with_payload_view t (fun data => setBigInt64 data 0 payload false)
  | TAG_Float _ _ payload =>
      with_payload_view t (fun data => setFloat32 data 0 payload false)
  | TAG_Double _ _ payload =>
      with_payload_view t (fun data => setFloat64 data 0 payload false)
  | TAG_Byte_Array _ _ payload =>
      with_payload_view t (fun data =>
        setInt32 data 0 (Z.of_nat (List.length payload)) LITTLE_ENDIAN ;;
        for_indexed payload (fun i v => setInt8 data (4 + i) v))
  | TAG_String _ _ raw =>
      with_payload_view t (fun data =>
        setUint16 data 0 (Z.of_nat (List.length raw)) false ;;
        for_indexed raw (fun i b => setUint8 data (i + 2) (u8 b)))
  | TAG_List _ _ _tagType _ payload =>
      off <- get_byteOffset ;;
      data <- new_DataView off 5 ;;
      setUint8 data 0 _tagType ;;
      setInt32 data 1 (Z.of_nat (List.length payload)) LITTLE_ENDIAN ;;
      advance 5 ;;
      (fix each (tags : list NBT) : M unit :=
         match tags with
         | [] => ret tt
         | tag :: rest => writePayload tag ;; each rest
         end) payload
  | TAG_Compound _ _ _ payload =>
      (fix each (tags : list NBT) : M unit :=
         match tags with
         | [] => ret tt
         | tag :: rest => (writeHeader tag ;; writePayload tag) ;; each rest
         end) payload
  | TAG_Int_Array _ _ payload =>
      with_payload_view t (fun data =>
        setInt32 data 0 (Z.of_nat (List.length payload)) LITTLE_ENDIAN ;;
        for_indexed payload (fun i v => setInt32 data (4 + i * 4) v LITTLE_ENDIAN))
  | TAG_Long_Array _ _ payload =>
      with_payload_view t (fun data =>
        setInt32 data 0 (Z.of_nat (List.length payload)) LITTLE_ENDIAN ;;
        for_indexed payload (fun i v => setBigInt64 data (4 + i * 8) v LITTLE_ENDIAN))
  end.

Definition toBytes (t : NBT) : M unit :=
  writeHeader t ;; writePayload t.

(** A fresh stream over a zeroed [ArrayBuffer] of [n] bytes. *)
Definition new_stream (n : Z) : stream :=
  {| buffer := repeat x00 (Z.to_nat n); byteOffset := 0 |}.

(** ** The reader *)

(** The classes as values, as [TAG_ID_TO_CLASS] holds them. *)
Inductive tagClass : Type :=
| Class_End | Class_Byte | Class_Short | Class_Int | Class_Long
| Class_Float | Class_Double | Class_Byte_Array | Class_String
| Class_List | Class_Compound | Class_Int_Array | Class_Long_Array.

(** [TAG_ID_TO_CLASS[id]], [None] being [undefined]; [id in
    TAG_ID_TO_CLASS] is whether it is [Some]. *)
Definition TAG_ID_TO_CLASS (tagId : Z) : option tagClass :=
  match tagId with
  | 0 => Some Class_End
  | 1 => Some Class_Byte
  | 2 => Some Class_Short
  | 3 => Some Class_Int
  | 4 => Some Class_Long
  | 5 => Some Class_Float
  | 6 => Some Class_Double
  | 7 => Some Class_Byte_Array
  | 8 => Some Class_String
  | 9 => Some Class_List
  | 10 => Some Class_Compound
  | 11 => Some Class_Int_Array
  | 12 => Some Class_Long_Array
  | _ => None
  end.

Definition TAG_Byte_readPayload : M number :=
  off <- post_increment ;;
  data <- new_DataView off 1 ;;
  payload <- getInt8 data 0 ;;
  ret (number_of_Z payload).

Definition TAG_Short_readPayload : M number :=
  off <- get_byteOffset ;;
  data <- new_DataView off 2 ;;
  payload <- getInt16 data 0 LITTLE_ENDIAN ;;
  advance 2 ;;
  ret (number_of_Z payload).

Definition TAG_Int_readPayload : M number :=
  off <- get_byteOffset ;;
  data <- new_DataView off 4 ;;
  payload <- getInt32 data 0 LITTLE_ENDIAN ;;
  advance 4 ;;
  ret (number_of_Z payload).

Definition TAG_Long_readPayload : M Z :=
  off <- get_byteOffset ;;
  data <- new_DataView off 8 ;;
  payload <- getBigInt64 data 0 LITTLE_ENDIAN ;;
  advance 8 ;;
  ret payload.

Definition TAG_Float_readPayload : M number :=
  off <- get_byteOffset ;;
  data <- new_DataView off 4 ;;
  payload <- getFloat32 data 0 LITTLE_ENDIAN ;;
  advance 4 ;;
  ret payload.

Definition TAG_Double_readPayload : M number :=
  off <- get_byteOffset ;;
  data <- new_DataView off 8 ;;
  payload <- getFloat64 data 0 LITTLE_ENDIAN ;;
  advance 8 ;;
  ret payload.

Definition TAG_Byte_Array_readPayload : M (list Z) :=
  off <- get_byteOffset ;;
  data <- new_DataView off 4 ;;
  payloadLength <- getInt32 data 0 LITTLE_ENDIAN ;;
  advance 4 ;;
  off <- get_byteOffset ;;
  payload <- new_Int8Array off payloadLength ;;
  advance payloadLength ;;
  ret payload.

Definition TAG_String_readPayload : M (list byte) :=
  off <- get_byteOffset ;;
  data <- new_DataView off 2 ;;
  payloadLength <- getUint16 data 0 LITTLE_ENDIAN ;;
  advance 2 ;;
  off <- get_byteOffset ;;
  payload <- new_Uint8Array off payloadLength ;;
  advance payloadLength ;;
  ret payload.

Definition _arrayFromDataView (dataView : DataView) (dataSize length byteOffSet : Z)
  : M (list Z) :=
  if negb (dataSize =? 32) && negb (dataSize =? 64)
  then throw (Error "Data size must be 32 or 64")
  else
    new_Array length ;;
    let byteSize := dataSize / 8 in
    if dataSize =? 32 then
      mapM (fun i => getInt32 dataView (byteOffSet + byteSize * i) LITTLE_ENDIAN)
        (indices length)
    else
      mapM (fun i => getBigInt64 dataView (byteOffSet + byteSize * i) LITTLE_ENDIAN)
        (indices length).

Definition TAG_Int_Array_readPayload : M (list Z) :=
  off <- get_byteOffset ;;
  data <- new_DataView off 4 ;;
  payloadLength <- getInt32 data 0 LITTLE_ENDIAN ;;
  advance 4 ;;
  off <- get_byteOffset ;;
  view <- new_DataView off (payloadLength * 4) ;;
  payload <- _arrayFromDataView view 32 payloadLength 0 ;;
  advance (payloadLength * 4) ;;
  ret payload.

Definition TAG_Long_Array_readPayload : M (list Z) :=
  off <- get_byteOffset ;;
  data <- new_DataView off 4 ;;
  payloadLength <- getInt32 data 0 LITTLE_ENDIAN ;;
  advance 4 ;;
  off <- get_byteOffset ;;
  view <- new_DataView off (payloadLength * 8) ;;
  payload <- _arrayFromDataView view 64 payloadLength 0 ;;
  advance (payloadLength * 8) ;;
  ret payload.

Definition _getNBTName : M (jsstring * Z) :=
  off <- get_byteOffset ;;
  data <- new_DataView off 2 ;;
  nameLength <- getUint16 data 0 LITTLE_ENDIAN ;;
  advance 2 ;;
  off <- get_byteOffset ;;
  raw <- new_Uint8Array off nameLength ;;
  let name := utf8Decode raw in
  advance nameLength ;;
  ret (name, nameLength).

(** The readers of the two container classes and [parseNBT] call each
    other.  They are written over the two calls they make:
    [instantiate tagClass nameLength name], which is the expression
    [new tagClass(nameLength, name, tagClass.readPayload(stream))] of both
    [parseNBT] and [TAG_List.readPayload], and [parse], which is
    [parseNBT(stream)]. *)
Section Reader.

Variable instantiate : tagClass -> Z -> jsstring -> M NBT.
Variable parse : M NBT.

Definition TAG_List_readPayload : M (Z * list NBT) :=
  off <- post_increment ;;
  data <- new_DataView off 1 ;;
  tagType <- getUint8 data 0 ;;
  off <- get_byteOffset ;;
  data <- new_DataView off 4 ;;
  payloadLength <- getInt32 data 0 LITTLE_ENDIAN ;;
  advance 4 ;;
  new_Array payloadLength ;;
  res <- mapM (fun _ =>
                 match TAG_ID_TO_CLASS tagType with
                 | Some tagClass => instantiate tagClass 0 []
                 | None => throw TypeError
                 end) (indices payloadLength) ;;
  ret (tagType, res).

(** The [do ... while] of [TAG_Compound.readPayload], [n] bounding the
    iterations. *)
Fixpoint TAG_Compound_readPayload (n : nat) (payload : list NBT) : M (list NBT) :=
  match n with
  | O => out_of_fuel
  | S n' =>
      tag <- parse ;;
      let payload := payload ++ [tag] in
      if negb (id tag =? id TAG_End)
      then TAG_Compound_readPayload n' payload
      else ret payload
  end.

Definition instantiate_class (n : nat) (c : tagClass) (nl : Z) (nm : jsstring)
  : M NBT :=
  match c with
  | Class_End => lift new_TAG_End
  | Class_Byte => p <- TAG_Byte_readPayload ;; lift (new_TAG_Byte nl nm p)
  | Class_Short => p <- TAG_Short_readPayload ;; lift (new_TAG_Short nl nm p)
  | Class_Int => p <- TAG_Int_readPayload ;; lift (new_TAG_Int nl nm p)
  | Class_Long => p <- TAG_Long_readPayload ;; lift (new_TAG_Long nl nm p)
  | Class_Float => p <- TAG_Float_readPayload ;; lift (new_TAG_Float nl nm p)
  | Class_Double => p <- TAG_Double_readPayload ;; lift (new_TAG_Double nl nm p)
  | Class_Byte_Array =>
      p <- TAG_Byte_Array_readPayload ;; lift (new_TAG_Byte_Array nl nm p)
  | Class_String =>
      p <- TAG_String_readPayload ;; lift (new_TAG_String nl nm p)
  | Class_List =>
      p <- TAG_List_readPayload ;; lift (new_TAG_List nl nm (fst p) (snd p))
  | Class_Compound =>
      p <- TAG_Compound_readPayload n [] ;; lift (new_TAG_Compound nl nm p)
  | Class_Int_Array =>
      p <- TAG_Int_Array_readPayload ;; lift (new_TAG_Int_Array nl nm p)
  | Class_Long_Array =>
      p <- TAG_Long_Array_readPayload ;; lift (new_TAG_Long_Array nl nm p)
  end.

(** [parseNBT].  The tag it builds is an object, so the closing
    [if (tag)] always returns it. *)
Definition parseNBT_body : M NBT :=
  len <- get_byteLength ;;
  off <- get_byteOffset ;;
  if len <=? off then throw (Error "Reached end of buffer")
  else
    off <- post_increment ;;
    data <- new_DataView off 1 ;;
    tagId <- getUint8 data 0 ;;
    header <- (if negb (tagId =? 0) then _getNBTName else ret ([], 0)) ;;
    let '(name, nameLength) := header in
    match TAG_ID_TO_CLASS tagId with
    | Some tagClass => instantiate tagClass nameLength name
    | None => throw (Error "Unexppected tag type")
    end.

End Reader.

(** [fuel] bounds the nesting of tags and the members of a compound. *)
Fixpoint instantiate (fuel : nat) (c : tagClass) (nl : Z) (nm : jsstring) : M NBT :=
  match fuel with
  | O => out_of_fuel
  | S f =>
      instantiate_class (instantiate f) (parseNBT_body (instantiate f)) f c nl nm
  end.

Definition parseNBT (fuel : nat) : M NBT := parseNBT_body (instantiate fuel).

(** A fresh stream over given bytes. *)
Definition stream_of (bs : list byte) : stream :=
  {| buffer := bs; byteOffset := 0 |}.

(** * Definitions for the statements *)

(** ** Sample values *)

Definition one_and_a_half : number := S754_finite false 3 (-1).

Definition two_pow_63 : Z := 9223372036854775808.

(** The stream over [buf] with the cursor at [off]. *)
Definition on (buf : list byte) (off : Z) : stream :=
  {| buffer := buf; byteOffset := off |}.

(** ** Truncated input *)

(** The failures of a read that needs bytes the buffer does not have: the
    error [parseNBT] throws when no byte is left for a type id, and the
    RangeError of a view that leaves the extent of the buffer. *)
Definition isTruncatedInput (e : exn) : bool :=
  match e with
  | Error message => String.eqb message "Reached end of buffer"
  | RangeError OutOfBounds => true
  | _ => false
  end.

(** [m] run on the buffer [pre] either fails for want of bytes, or does
    what it does on the longer buffer [pre ++ rest], and then has not
    moved the cursor past the end of [pre]. *)
Definition agrees_at {A} (pre rest : list byte) (m : M A) (off : Z) : Prop :=
  match m (on pre off) with
  | (Ok a, s1) =>
      buffer s1 = pre /\ byteOffset s1 <= Z.of_nat (List.length pre) /\
      m (on (pre ++ rest) off) = (Ok a, on (pre ++ rest) (byteOffset s1))
  | (Throw e, _) =>
      isTruncatedInput e = true \/
      exists s2, m (on (pre ++ rest) off) = (Throw e, s2)
  | (OutOfFuel, _) =>
      exists s2, m (on (pre ++ rest) off) = (OutOfFuel, s2)
  end.

Definition agrees {A} (pre rest : list byte) (m : M A) : Prop :=
  forall off, off <= Z.of_nat (List.length pre) -> agrees_at pre rest m off.

(** A view that lies within [pre], and a computation that leaves the
    stream alone and returns the same on [pre] and on [pre ++ rest]. *)
Definition within (pre : list byte) (view : DataView) : Prop :=
  0 <= dv_byteOffset view /\
  dv_byteOffset view + dv_byteLength view <= Z.of_nat (List.length pre).

Definition same_read {A} (pre rest : list byte) (m : M A) : Prop :=
  forall off, exists r,
    m (on pre off) = (r, on pre off) /\
    m (on (pre ++ rest) off) = (r, on (pre ++ rest) off).

(** [m2] returns what [m1] returns wherever [m1] has fuel enough. *)
Definition extends {A} (m1 m2 : M A) : Prop :=
  forall s, fst (m1 s) <> OutOfFuel -> m2 s = m1 s.

(** ** Lengths written

    A computation that leaves the cursor where it was, whatever it
    returns; one that moves it by [n] when it returns. *)
Definition keeps_offset {A} (m : M A) : Prop :=
  forall s, byteOffset (snd (m s)) = byteOffset s.

Definition advances (m : M unit) (n : Z) : Prop :=
  forall s s', m s = (Ok tt, s') -> byteOffset s' = byteOffset s + n.

(** A tag with no list in it, whose compounds hold the length their
    constructor caches. *)
Fixpoint list_free (t : NBT) : Prop :=
  match t with
  | TAG_List _ _ _ _ _ => False
  | TAG_Compound _ _ _payloadLength payload =>
      _payloadLength = sum_total_lengths payload /\
      (fix all (tags : list NBT) : Prop :=
         match tags with
         | [] => True
         | tag :: rest => list_free tag /\ all rest
         end) payload
  | _ => True
  end.

(** ** Unknown type ids *)

(** The statement that a first byte outside 0..12 makes [parseNBT] throw
    its unknown-tag error with nothing but that byte read. *)
Definition unknown_id_rejected_at_once : Prop :=
  forall (fuel : nat) (b : byte) (rest : list byte),
    ~ (0 <= u8 b <= 12) ->
    parseNBT fuel (stream_of (b :: rest))
    = (Throw (Error "Unexppected tag type"), on (b :: rest) 1).

(** ** Termination and bounds of the reader *)

(** The bytes from the cursor to the end of the buffer. *)
Definition remaining (s : stream) : Z := byteLength s - byteOffset s.

(** [m], started with at most [k] bytes left, does not run out of fuel;
    when it returns it has left the buffer as it was and moved the cursor
    forward by at least [p] bytes, not past the end. *)
Definition runs {A} (k p : Z) (m : M A) : Prop :=
  forall s, 0 <= remaining s <= k ->
    match m s with
    | (Ok _, s') =>
        buffer s' = buffer s /\
        byteOffset s + p <= byteOffset s' <= byteLength s
    | (Throw _, _) => True
    | (OutOfFuel, _) => False
    end.

(** [m] leaves the stream as it is and does not run out of fuel. *)
Definition looks {A} (m : M A) : Prop :=
  forall s, snd (m s) = s /\ fst (m s) <> OutOfFuel.

(** ** What a decoded tag looks like *)

(** Whatever [m] returns satisfies [P]. *)
Definition ensures {A} (P : A -> Prop) (m : M A) : Prop :=
  forall s a s', m s = (Ok a, s') -> P a.

(** [z] fits a signed integer of [w] bits. *)
Definition signed (w z : Z) : Prop := - 2 ^ (w - 1) <= z < 2 ^ (w - 1).

(** The members of a compound: tags other than End, then one End. *)
Definition ends_with_End (payload : list NBT) : Prop :=
  exists init,
    payload = init ++ [TAG_End] /\ Forall (fun tag => id tag <> 0) init.

(** The [static ID] of a class. *)
Definition class_id (c : tagClass) : Z :=
  match c with
  | Class_End => 0
  | Class_Byte => 1
  | Class_Short => 2
  | Class_Int => 3
  | Class_Long => 4
  | Class_Float => 5
  | Class_Double => 6
  | Class_Byte_Array => 7
  | Class_String => 8
  | Class_List => 9
  | Class_Compound => 10
  | Class_Int_Array => 11
  | Class_Long_Array => 12
  end.

(** The shape of the tags the reader builds: a name length of 16 bits;
    integer payloads within the width of their class; float payloads that
    are no integers; a list whose elements all have the declared type id
    and no name, with the length its constructor caches; a compound whose
    members end with the first End among them. *)
Fixpoint well_formed (t : NBT) : Prop :=
  0 <= nameLength t < 65536 /\
  match t with
  | TAG_End => True
  | TAG_Byte _ _ payload => exists z, payload = number_of_Z z /\ signed 8 z
  | TAG_Short _ _ payload => exists z, payload = number_of_Z z /\ signed 16 z
  | TAG_Int _ _ payload => exists z, payload = number_of_Z z /\ signed 32 z
  | TAG_Long _ _ payload => signed 64 payload
  | TAG_Float _ _ payload => Number_isInteger payload = false
  | TAG_Double _ _ payload => Number_isInteger payload = false
  | TAG_Byte_Array _ _ payload => Forall (signed 8) payload
  | TAG_String _ _ raw => Z.of_nat (List.length raw) < 65536
  | TAG_List _ _ _tagType _payloadLength payload =>
      _payloadLength = 5 + sum_total_lengths payload /\
      (fix all (tags : list NBT) : Prop :=
         match tags with
         | [] => True
         | tag :: rest =>
             (id tag = _tagType /\ nameLength tag = 0 /\ name tag = [] /\
              well_formed tag) /\ all rest
         end) payload
  | TAG_Compound _ _ _payloadLength payload =>
      _payloadLength = sum_total_lengths payload /\
      ends_with_End payload /\
      (fix all (tags : list NBT) : Prop :=
         match tags with
         | [] => True
         | tag :: rest => well_formed tag /\ all rest
         end) payload
  | TAG_Int_Array _ _ payload => Forall (signed 32) payload
  | TAG_Long_Array _ _ payload => Forall (signed 64) payload
  end.

(** What [new tagClass(nameLength, name, ...)] builds in the reader: a
    well-formed tag of that class, with that name unless it is an End. *)
Definition built (c : tagClass) (nl : Z) (nm : jsstring) (t : NBT) : Prop :=
  well_formed t /\ id t = class_id c /\
  (c = Class_End \/ (nameLength t = nl /\ name t = nm)).

(** ** The bytes of a tag *)

(** The class a tag is an instance of. *)
Definition class_of (t : NBT) : tagClass :=
  match t with
  | TAG_End => Class_End
  | TAG_Byte _ _ _ => Class_Byte
  | TAG_Short _ _ _ => Class_Short
  | TAG_Int _ _ _ => Class_Int
  | TAG_Long _ _ _ => Class_Long
  | TAG_Float _ _ _ => Class_Float
  | TAG_Double _ _ _ => Class_Double
  | TAG_Byte_Array _ _ _ => Class_Byte_Array
  | TAG_String _ _ _ => Class_String
  | TAG_List _ _ _ _ _ => Class_List
  | TAG_Compound _ _ _ _ => Class_Compound
  | TAG_Int_Array _ _ _ => Class_Int_Array
  | TAG_Long_Array _ _ _ => Class_Long_Array
  end.

(** What [writeHeader] leaves in its view: the id, the name length as a
    32-bit field, and the encoded name stored from index 3 on, over the
    low half of that field.  An End has its id alone. *)
Definition header_bytes (t : NBT) : list byte :=
  match t with
  | TAG_End => [byte_of_Z 0]
  | _ =>
      overwrite (byte_of_Z (id t) :: be_bytes 4 (nameLength t)) 3
        (utf8Encode (name t))
  end.

(** The header of the NBT layout, which [parseNBT] reads: the id, the
    length of the encoded name on two bytes, the encoded name.  An End has
    its id alone. *)
Definition layout_header (t : NBT) : list byte :=
  match t with
  | TAG_End => [byte_of_Z 0]
  | _ =>
      byte_of_Z (id t) :: be_bytes 2 (nameLength t) ++ utf8Encode (name t)
  end.

(** The bytes of a payload, the members of a compound each behind the
    header [header] gives them.  The integer fields hold their values
    wrapped to the width of the field. *)
Fixpoint payload_with (header : NBT -> list byte) (t : NBT) : list byte :=
  match t with
  | TAG_End => []
  | TAG_Byte _ _ payload => be_bytes 1 (truncate payload)
  | TAG_Short _ _ payload => be_bytes 2 (truncate payload)
  | TAG_Int _ _ payload => be_bytes 4 (truncate payload)
  | TAG_Long _ _ payload => be_bytes 8 payload
  | TAG_Float _ _ payload => be_bytes 4 (bits_of_float 23 8 payload)
  | TAG_Double _ _ payload => be_bytes 8 (bits_of_float 52 11 payload)
  | TAG_Byte_Array _ _ payload =>
      be_bytes 4 (Z.of_nat (List.length payload))
        ++ flat_map (be_bytes 1) payload
  | TAG_String _ _ raw =>
      be_bytes 2 (Z.of_nat (List.length raw)) ++ raw
  | TAG_List _ _ _tagType _ payload =>
      (byte_of_Z _tagType :: be_bytes 4 (Z.of_nat (List.length payload)))
        ++ flat_map (payload_with header) payload
  | TAG_Compound _ _ _ payload =>
      flat_map (fun tag => header tag ++ payload_with header tag) payload
  | TAG_Int_Array _ _ payload =>
      be_bytes 4 (Z.of_nat (List.length payload))
        ++ flat_map (be_bytes 4) payload
  | TAG_Long_Array _ _ payload =>
      be_bytes 4 (Z.of_nat (List.length payload))
        ++ flat_map (be_bytes 8) payload
  end.

(** What [writePayload] and [toBytes] store. *)
Definition payload_bytes : NBT -> list byte := payload_with header_bytes.

Definition tag_bytes (t : NBT) : list byte :=
  header_bytes t ++ payload_bytes t.

(** The NBT layout of a payload and of a tag. *)
Definition layout_payload : NBT -> list byte := payload_with layout_header.

Definition layout (t : NBT) : list byte :=
  layout_header t ++ layout_payload t.

(** A name [writeHeader] has room for: two bytes of UTF-8 at most. *)
Definition short_name (t : NBT) : bool :=
  match t with
  | TAG_End => true
  | _ => (List.length (utf8Encode (name t)) <=? 2)%nat
  end.

(** Every tag written with its header, the members of the compounds
    inside [t], has such a name. *)
Fixpoint short_names (t : NBT) : bool :=
  match t with
  | TAG_List _ _ _ _ payload => forallb short_names payload
  | TAG_Compound _ _ _ payload =>
      forallb (fun tag => short_name tag && short_names tag) payload
  | _ => true
  end.

(** [m], run with the cursor in front of [length bs] bytes of the buffer,
    replaces them by [bs], leaves every other byte as it was, and puts
    the cursor behind them. *)
Definition writes (m : M unit) (bs : list byte) : Prop :=
  forall pre old post, List.length old = List.length bs ->
    m (on (pre ++ old ++ post) (Z.of_nat (List.length pre)))
    = (Ok tt, on (pre ++ bs ++ post)
                (Z.of_nat (List.length pre) + Z.of_nat (List.length bs))).

(** [m] stores [bs] at index [i] of the view [data], when the view lies
    in the buffer and the bytes in the view; the cursor stays. *)
Definition stores (data : DataView) (m : M unit) (i : nat) (bs : list byte) : Prop :=
  forall (s : stream) (o : nat),
    dv_byteOffset data = Z.of_nat o ->
    Z.of_nat o + dv_byteLength data <= byteLength s ->
    Z.of_nat (i + List.length bs) <= dv_byteLength data ->
    m s = (Ok tt, on (overwrite (buffer s) (Z.of_nat (o + i)) bs) (byteOffset s)).

(** [m], run with the cursor in front of the bytes [bs], returns [a] and
    puts the cursor behind them, whatever the bytes around them. *)
Definition reads {A} (m : M A) (bs : list byte) (a : A) : Prop :=
  forall pre post,
    m (on (pre ++ bs ++ post) (Z.of_nat (List.length pre)))
    = (Ok a, on (pre ++ bs ++ post)
               (Z.of_nat (List.length pre) + Z.of_nat (List.length bs))).

(** How deep lists and compounds nest in a tag, a compound counting for
    its members at least: the fuel the reader needs. *)
Fixpoint depth (t : NBT) : nat :=
  match t with
  | TAG_List _ _ _ _ payload => S (list_max (map depth payload))
  | TAG_Compound _ _ _ payload =>
      S (Nat.max (List.length payload) (list_max (map depth payload)))
  | _ => 0
  end.

(** A name the header of the layout holds: the name length counts the
    bytes of the encoded name, fits 16 bits, and the name is one that
    encoding and decoding give back. *)
Definition named (t : NBT) : Prop :=
  nameLength t = Z.of_nat (List.length (utf8Encode (name t))) /\
  nameLength t < 2 ^ 16 /\
  utf8Decode (utf8Encode (name t)) = name t.

(** The tags the reader gives back from their layout: integers within the
    width of their field; floats that are the value of a bit pattern of
    their format and no integer; array and list lengths that fit their
    count field; list elements of the declared type with neither name nor
    name length; compound members with a name the header holds, none of
    them an End but the last, which is one; lists and compounds with the
    length their constructor caches. *)
Fixpoint decodable (t : NBT) : Prop :=
  match t with
  | TAG_End => True
  | TAG_Byte _ _ payload =>
      payload = number_of_Z (truncate payload) /\ signed 8 (truncate payload)
  | TAG_Short _ _ payload =>
      payload = number_of_Z (truncate payload) /\ signed 16 (truncate payload)
  | TAG_Int _ _ payload =>
      payload = number_of_Z (truncate payload) /\ signed 32 (truncate payload)
  | TAG_Long _ _ payload => signed 64 payload
  | TAG_Float _ _ payload =>
      (exists bits, 0 <= bits < 2 ^ 32 /\ payload = float_of_bits 23 8 bits) /\
      Number_isInteger payload = false
  | TAG_Double _ _ payload =>
      (exists bits, 0 <= bits < 2 ^ 64 /\ payload = float_of_bits 52 11 bits) /\
      Number_isInteger payload = false
  | TAG_Byte_Array _ _ payload =>
      Z.of_nat (List.length payload) < 2 ^ 31 /\ Forall (signed 8) payload
  | TAG_String _ _ raw => Z.of_nat (List.length raw) < 2 ^ 16
  | TAG_List _ _ _tagType _payloadLength payload =>
      0 <= _tagType < 256 /\
      Z.of_nat (List.length payload) < 2 ^ 31 /\
      _payloadLength = 5 + sum_total_lengths payload /\
      (fix all (tags : list NBT) : Prop :=
         match tags with
         | [] => True
         | tag :: rest =>
             (id tag = _tagType /\ nameLength tag = 0 /\ name tag = [] /\
              decodable tag) /\ all rest
         end) payload
  | TAG_Compound _ _ _payloadLength payload =>
      _payloadLength = sum_total_lengths payload /\
      (fix members (tags : list NBT) : Prop :=
         match tags with
         | [] => False
         | tag :: rest =>
             match rest with
             | [] => tag = TAG_End
             | _ :: _ =>
                 (id tag <> 0 /\ named tag /\ decodable tag) /\ members rest
             end
         end) payload
  | TAG_Int_Array _ _ payload =>
      Z.of_nat (List.length payload) < 2 ^ 31 /\ Forall (signed 32) payload
  | TAG_Long_Array _ _ payload =>
      Z.of_nat (List.length payload) < 2 ^ 31 /\ Forall (signed 64) payload
  end.

(** No compound in [t]. *)
Fixpoint compound_free (t : NBT) : bool :=
  match t with
  | TAG_List _ _ _ _ payload => forallb compound_free payload
  | TAG_Compound _ _ _ _ => false
  | _ => true
  end.

(** Lists and compounds that hold the length their constructor caches,
    all through [t]. *)
Fixpoint cached (t : NBT) : bool :=
  match t with
  | TAG_List _ _ _ _payloadLength payload =>
      (_payloadLength =? 1 + 4 + sum_total_lengths payload)
      && forallb cached payload
  | TAG_Compound _ _ _payloadLength payload =>
      (_payloadLength =? sum_total_lengths payload) && forallb cached payload
  | _ => true
  end.
(** ** Exceptions *)

(** Whatever [m] throws satisfies [A]. *)
Definition throws_in {X} (A : exn -> Prop) (m : M X) : Prop :=
  forall s e s', m s = (Throw e, s') -> A e.

(** The exceptions of the reader: the platform's RangeError and
    TypeError, and three errors of its own. *)
Definition reader_exception (e : exn) : Prop :=
  match e with
  | Error message =>
      message = "Reached end of buffer"%string \/
      message = "Unexppected tag type"%string \/
      message = "Invalid payload"%string
  | RangeError _ => True
  | TypeError => True
  end.

(** The exceptions of the writer. *)
Definition writer_exception (e : exn) : Prop :=
  match e with
  | RangeError _ => True
  | _ => False
  end.

(** ** Tactics *)

Ltac to_Prop :=
  repeat match goal with
    | H : (_ || _) = true |- _ => apply orb_true_iff in H; destruct H
    | H : (_ || _) = false |- _ => apply orb_false_iff in H; destruct H
    | H : (_ <? _) = true |- _ => apply Z.ltb_lt in H
    | H : (_ <? _) = false |- _ => apply Z.ltb_ge in H
    | H : (_ <=? _) = true |- _ => apply Z.leb_le in H
    | H : (_ <=? _) = false |- _ => apply Z.leb_gt in H
    end.

Ltac settle :=
  try (right; eauto; fail); try (left; reflexivity);
  try (repeat split; (reflexivity || lia)).

(** * Properties *)

(** ** Round trip and lengths *)

(** C1. Round trip, at the tag [new TAG_Byte(0, "", 5)]: the tag is valid
    and its total length is 6; [toBytes] into a fresh 6-byte buffer writes
    [01 00 00 00 00 05]; [parseNBT] of those bytes from offset 0 returns a
    Byte tag of payload 0, not 5, and stops at offset 4, not 6. *)
Theorem roundtrip_Byte_5 :
  let T := TAG_Byte 0 [] (number_of_Z 5) in
  let encoded := bytes_of [1; 0; 0; 0; 0; 5] in
  new_TAG_Byte 0 [] (number_of_Z 5) = Ok T /\
  getTotalLength T = 6 /\
  toBytes T (new_stream 6) = (Ok tt, {| buffer := encoded; byteOffset := 6 |}) /\
  (forall fuel,
     parseNBT (S fuel) (stream_of encoded)
     = (Ok (TAG_Byte 0 [] (number_of_Z 0)),
        {| buffer := encoded; byteOffset := 4 |})) /\
  TAG_Byte 0 [] (number_of_Z 0) <> T.
Proof.
  cbv zeta. repeat split; try reflexivity. discriminate.
Qed.

(** C2. Encoded length against [getTotalLength], at the empty list
    [new TAG_List(0, "", {tagType: 1, payload: []})]: [getTotalLength] is
    12 while [toBytes] moves the cursor by 10; and at a list of one Byte,
    [getTotalLength] is 18 while [toBytes] moves the cursor by 11. *)
Theorem toBytes_List_advance :
  let T0 := TAG_List 0 [] 1 5 [] in
  let b := TAG_Byte 0 [] (number_of_Z 7) in
  let T1 := TAG_List 0 [] 1 11 [b] in
  new_TAG_List 0 [] 1 [] = Ok T0 /\
  getTotalLength T0 = 12 /\
  toBytes T0 (new_stream 12)
  = (Ok tt, {| buffer := bytes_of [9; 0; 0; 0; 0; 1; 0; 0; 0; 0; 0; 0];
               byteOffset := 10 |}) /\
  new_TAG_List 0 [] 1 [b] = Ok T1 /\
  getTotalLength T1 = 18 /\
  toBytes T1 (new_stream 18)
  = (Ok tt, {| buffer := bytes_of [9; 0; 0; 0; 0; 1; 0; 0; 0; 1; 7;
                                   0; 0; 0; 0; 0; 0; 0];
               byteOffset := 11 |}).
Proof.
  cbv zeta. repeat split; reflexivity.
Qed.

(** C3. Header layout, at a Byte tag named ["a"] with [nameLength] 1:
    [writeHeader] writes the five bytes [01 00 00 61 01], the name length
    going out as a 4-byte field and the name over its last two bytes,
    where the layout asks for the four bytes [01 00 01 61]; with the
    3-byte name ["abc"] it throws a RangeError at the third name byte.
    [parseNBT] does read the layout: one byte of type id, two bytes of
    name length, then the name. *)
Theorem writeHeader_layout (payload : number) :
  writeHeader (TAG_Byte 1 (of_string "a") payload) (new_stream 5)
  = (Ok tt, {| buffer := bytes_of [1; 0; 0; 97; 1]; byteOffset := 5 |}) /\
  writeHeader (TAG_Byte 3 (of_string "abc") payload) (new_stream 8)
  = (Throw (RangeError OutOfBounds),
     {| buffer := bytes_of [1; 0; 0; 97; 98; 0; 0; 0]; byteOffset := 0 |}) /\
  (forall fuel,
     parseNBT (S fuel) (stream_of (bytes_of [1; 0; 1; 97; 5]))
     = (Ok (TAG_Byte 1 (of_string "a") (number_of_Z 5)),
        on (bytes_of [1; 0; 1; 97; 5]) 5)).
Proof.
  repeat split; reflexivity.
Qed.

(** C4. Payload length of a list, at the empty list of Byte: the
    constructor succeeds, caches [_payloadLength = 5], and
    [getPayloadLength] answers 7. *)
Theorem getPayloadLength_empty_List :
  new_TAG_List 0 [] 1 [] = Ok (TAG_List 0 [] 1 5 []) /\
  getPayloadLength (TAG_List 0 [] 1 5 []) = 7.
Proof.
  split; reflexivity.
Qed.

(** *** What the writers advance by *)

Lemma keeps_offset_ret {A} (a : A) : keeps_offset (ret a).
Proof.
  intros s. reflexivity.
Qed.

Lemma keeps_offset_bind {A B} (m : M A) (f : A -> M B) :
  keeps_offset m -> (forall a, keeps_offset (f a)) -> keeps_offset (bind m f).
Proof.
  intros Hm Hf s. unfold bind. specialize (Hm s).
  destruct (m s) as [[a | e |] s1]; simpl in *; try assumption.
  now rewrite Hf.
Qed.

Lemma keeps_offset_put_bytes data i bs : keeps_offset (put_bytes data i bs).
Proof.
  intros s. unfold put_bytes.
  destruct (i <? 0); [reflexivity |].
  destruct (_ <? _); reflexivity.
Qed.

Lemma keeps_offset_setInt n data i v le : keeps_offset (setInt n data i v le).
Proof.
  apply keeps_offset_put_bytes.
Qed.

Lemma keeps_offset_forM_ {A} (l : list A) (f : A -> M unit) :
  (forall a, keeps_offset (f a)) -> keeps_offset (forM_ l f).
Proof.
  intros Hf. induction l as [| a l IH]; simpl.
  - apply keeps_offset_ret.
  - apply keeps_offset_bind; [apply Hf | intros _; apply IH].
Qed.

Lemma keeps_offset_for_indexed {A} (l : list A) (f : Z -> A -> M unit) :
  (forall i a, keeps_offset (f i a)) -> keeps_offset (for_indexed l f).
Proof.
  intros Hf. apply keeps_offset_forM_. intros [i a]. apply Hf.
Qed.

Lemma keeps_offset_new_DataView {B} off len (k : DataView -> M B) :
  (forall data, keeps_offset (k data)) ->
  keeps_offset (data <- new_DataView off len ;; k data).
Proof.
  intros Hk s. unfold bind, new_DataView.
  destruct (_ || _); [reflexivity |].
  destruct (_ <? _); [reflexivity |]. apply Hk.
Qed.

Lemma advances_ret : advances (ret tt) 0.
Proof.
  intros s s' H. injection H as <-. lia.
Qed.

Lemma advances_advance (n : Z) : advances (advance n) n.
Proof.
  intros s s' H. injection H as <-. reflexivity.
Qed.

Lemma advances_seq (m1 m2 : M unit) (n1 n2 : Z) :
  advances m1 n1 -> advances m2 n2 -> advances (m1 ;; m2) (n1 + n2).
Proof.
  intros H1 H2 s s'. unfold bind.
  destruct (m1 s) as [[[] | e |] s1] eqn:E1; try discriminate.
  intros E2. rewrite (H2 _ _ E2), (H1 _ _ E1). lia.
Qed.

Lemma advances_keep (m k : M unit) (n : Z) :
  keeps_offset m -> advances k n -> advances (m ;; k) n.
Proof.
  intros Hm Hk s s'. unfold bind. specialize (Hm s).
  destruct (m s) as [[[] | e |] s1]; try discriminate.
  intros E. rewrite (Hk _ _ E). simpl in Hm. now rewrite Hm.
Qed.

Lemma advances_view (len n : Z) (k : DataView -> M unit) :
  (forall data, dv_byteLength data = len -> advances (k data) n) ->
  advances (off <- get_byteOffset ;; data <- new_DataView off len ;; k data) n.
Proof.
  intros Hk s s'. unfold bind, get_byteOffset, new_DataView.
  destruct (_ || _); [discriminate |].
  destruct (_ <? _); [discriminate |].
  apply Hk. reflexivity.
Qed.

Lemma advances_post_increment (k : Z -> M unit) :
  (forall off, keeps_offset (k off)) ->
  advances (off <- post_increment ;; k off) 1.
Proof.
  intros Hk s s'. unfold bind, post_increment. intros E.
  pose proof (Hk (byteOffset s)
                {| buffer := buffer s; byteOffset := byteOffset s + 1 |}) as K.
  rewrite E in K. exact K.
Qed.

Lemma advances_with_payload_view (t : NBT) (body : DataView -> M unit) :
  (forall data, keeps_offset (body data)) ->
  advances (with_payload_view t body) (getPayloadLength t).
Proof.
  intros Hbody. unfold with_payload_view. apply advances_view. intros data _.
  apply advances_keep; [apply Hbody | apply advances_advance].
Qed.

Lemma advances_writeHeader (t : NBT) : advances (writeHeader t) (getHeaderLength t).
Proof.
  assert (Hset : forall data i v, keeps_offset (setUint8 data i v))
    by (intros; apply keeps_offset_setInt).
  destruct t; unfold writeHeader, getHeaderLength, headerLength.
  1: { apply advances_post_increment. intros off.
       apply keeps_offset_new_DataView. intros data. apply Hset. }
  all: apply advances_view; intros data Hlen;
    apply advances_keep; [apply Hset |];
    apply advances_keep; [apply keeps_offset_setInt |];
    apply advances_keep;
      [apply keeps_offset_for_indexed; intros; apply Hset |];
    rewrite Hlen; apply advances_advance.
Qed.

Lemma fold_total_lengths (l : list NBT) (a : Z) :
  fold_left (fun a b => a + getTotalLength b) l a = a + sum_total_lengths l.
Proof.
  unfold sum_total_lengths. revert a.
  induction l as [| x r IH]; intros a; simpl; [lia |].
  rewrite IH, (IH (getTotalLength x)). lia.
Qed.

Lemma sum_total_lengths_cons (tag : NBT) (rest : list NBT) :
  sum_total_lengths (tag :: rest) = getTotalLength tag + sum_total_lengths rest.
Proof.
  unfold sum_total_lengths at 1. simpl. apply fold_total_lengths.
Qed.

Lemma advances_writePayload :
  forall t, list_free t -> advances (writePayload t) (getPayloadLength t).
Proof.
  assert (Hset : forall n data i v le, keeps_offset (setInt n data i v le))
    by (intros; apply keeps_offset_setInt).
  fix IH 1. intros t. destruct t; intros Hfree.
  1: apply advances_ret.
  1-8: apply advances_with_payload_view; intros data;
    try apply Hset;
    (apply keeps_offset_bind; [apply Hset | intros _];
     apply keeps_offset_for_indexed; intros; apply Hset).
  - destruct Hfree.
  - destruct Hfree as [Hlen Hall]. unfold getPayloadLength. subst _payloadLength.
    cbn [writePayload].
    revert payload Hall. fix IHl 1. intros [| tag rest] Hall.
    + apply advances_ret.
    + rewrite sum_total_lengths_cons. destruct Hall as [Htag Hrest].
      apply advances_seq; [| apply IHl, Hrest].
      apply advances_seq; [apply advances_writeHeader | apply IH, Htag].
  - apply advances_with_payload_view; intros data.
    apply keeps_offset_bind; [apply Hset | intros _].
    apply keeps_offset_for_indexed; intros; apply Hset.
  - apply advances_with_payload_view; intros data.
    apply keeps_offset_bind; [apply Hset | intros _].
    apply keeps_offset_for_indexed; intros; apply Hset.
Qed.

(** X5. Every tag without a list in it, nested compounds included, is
    written on as many bytes as [getTotalLength] says: when [toBytes]
    returns, the cursor has moved by exactly that. *)
Theorem toBytes_advances (t : NBT) (s s' : stream) :
  list_free t -> toBytes t s = (Ok tt, s') ->
  byteOffset s' = byteOffset s + getTotalLength t.
Proof.
  intros Hfree. revert s s'.
  change (advances (toBytes t) (getTotalLength t)).
  apply advances_seq;
    [apply advances_writeHeader | now apply advances_writePayload].
Qed.

Lemma toBytes_advances_witness :
  let t := TAG_Compound 0 [] 7 [TAG_Byte 0 [] (number_of_Z 5); TAG_End] in
  12 = 0 + getTotalLength t.
Proof.
  intros t.
  apply (toBytes_advances t (new_stream 12)
           (on (bytes_of [10; 0; 0; 0; 0; 1; 0; 0; 0; 0; 5; 0]) 12)).
  - simpl. auto.
  - reflexivity.
Defined.

(** What the two container constructors cache, for every payload they
    accept: [getPayloadLength] of a list is 7 plus the total lengths of
    its elements, that of a compound is the total lengths of its members. *)
Lemma getPayloadLength_List nl nm tagType payload t :
  new_TAG_List nl nm tagType payload = Ok t ->
  getPayloadLength t = 7 + sum_total_lengths payload.
Proof.
  unfold new_TAG_List. destruct (existsb _ payload); [discriminate |].
  intros H. injection H as <-.
  change (2 + (5 + sum_total_lengths payload) = 7 + sum_total_lengths payload).
  lia.
Qed.

Lemma getPayloadLength_Compound nl nm payload t :
  new_TAG_Compound nl nm payload = Ok t ->
  getPayloadLength t = sum_total_lengths payload.
Proof.
  unfold new_TAG_Compound. destruct (array_get payload _); [| discriminate].
  destruct (negb _); [discriminate |].
  intros H. injection H as <-. reflexivity.
Qed.

(** ** Validation in the constructors *)

(** *** Comparing a payload with an integer literal *)

Lemma compare_scale (n m p : Z) : 0 < p -> (n * p ?= m * p) = (n ?= m).
Proof.
  intros Hp. destruct (Z.compare_spec n m) as [-> | H | H].
  - apply Z.compare_refl.
  - apply Z.compare_lt_iff. nia.
  - apply Z.compare_gt_iff. nia.
Qed.

Lemma number_compare_integer (p : number) (sc : bool) (Mc : positive) (Ec K : Z) :
  Ec <= 0 -> cond_Zopp sc (Zpos Mc) = K * 2 ^ (- Ec) ->
  Number_isInteger p = true ->
  number_compare p (S754_finite sc Mc Ec) = Some (truncate p ?= K).
Proof.
  intros HE HM Hint.
  destruct p as [s | s | | s m e]; try discriminate Hint.
  - unfold number_compare, dyadic, truncate. rewrite HM. f_equal.
    rewrite Z.mul_0_l.
    replace (K * 2 ^ (- Ec) * 2 ^ (Ec - Z.min 0 Ec)) with (K * 2 ^ (- Ec))
      by (replace (Ec - Z.min 0 Ec) with 0 by lia; rewrite Z.pow_0_r; lia).
    rewrite <- (Z.mul_0_l (2 ^ (- Ec))).
    apply compare_scale. apply Z.pow_pos_nonneg; lia.
  - unfold number_compare, dyadic. rewrite HM. f_equal.
    set (emin := Z.min e Ec).
    assert (Hpos : 0 < 2 ^ (- emin)) by (apply Z.pow_pos_nonneg; lia).
    replace (K * 2 ^ (- Ec) * 2 ^ (Ec - emin)) with (K * 2 ^ (- emin))
      by (rewrite <- Z.mul_assoc, <- Z.pow_add_r by lia; do 2 f_equal; lia).
    replace (cond_Zopp s (Zpos m) * 2 ^ (e - emin))
      with (truncate (S754_finite s m e) * 2 ^ (- emin)).
    + now apply compare_scale.
    + unfold truncate. simpl in Hint.
      destruct (0 <=? e) eqn:He; to_Prop.
      * replace (2 ^ (e - emin)) with (2 ^ e * 2 ^ (- emin))
          by (rewrite <- Z.pow_add_r by lia; f_equal; lia).
        unfold cond_Zopp. destruct s; ring.
      * apply Z.eqb_eq in Hint.
        assert (Hm : Zpos m = 2 ^ (- e) * (Zpos m / 2 ^ (- e)))
          by (apply Z_div_exact_full_2; [apply Z.pow_nonzero; lia | exact Hint]).
        assert (Hp : 2 ^ (- emin) = 2 ^ (- e) * 2 ^ (e - emin))
          by (rewrite <- Z.pow_add_r by lia; f_equal; lia).
        rewrite Hp. unfold cond_Zopp. destruct s; rewrite Hm at 2; ring.
Qed.

Lemma gt_integer (p : number) (K : Z) (c : number) :
  (exists sc Mc Ec, c = S754_finite sc Mc Ec /\ Ec <= 0 /\
                    cond_Zopp sc (Zpos Mc) = K * 2 ^ (- Ec)) ->
  Number_isInteger p = true ->
  gt p c = (K <? truncate p) /\ lt p c = (truncate p <? K).
Proof.
  intros (sc & Mc & Ec & -> & HE & HM) Hint. unfold gt, lt.
  rewrite (number_compare_integer p sc Mc Ec K HE HM Hint).
  rewrite Z.ltb_compare, (Z.ltb_compare (truncate p) K), (Z.compare_antisym (truncate p) K).
  destruct (truncate p ?= K); split; reflexivity.
Qed.

Ltac literal K :=
  let c := eval vm_compute in (number_of_Z K) in
  change (number_of_Z K) with c;
  match c with
  | S754_finite ?sc ?Mc ?Ec =>
      exists sc, Mc, Ec; split; [reflexivity | split; [lia | reflexivity]]
  end.







(** C5. Range enforcement on Byte: payloads 128 and -129 are refused, 127
    and -128 are accepted, and so is the non-integral payload 1.5. *)
Theorem new_TAG_Byte_checks :
  new_TAG_Byte 0 [] (number_of_Z 128) = Throw invalid_payload /\
  new_TAG_Byte 0 [] (number_of_Z (-129)) = Throw invalid_payload /\
  new_TAG_Byte 0 [] (number_of_Z 127) = Ok (TAG_Byte 0 [] (number_of_Z 127)) /\
  new_TAG_Byte 0 [] (number_of_Z (-128)) = Ok (TAG_Byte 0 [] (number_of_Z (-128))) /\
  Number_isInteger one_and_a_half = false /\
  new_TAG_Byte 0 [] one_and_a_half = Ok (TAG_Byte 0 [] one_and_a_half).
Proof.
  repeat split; reflexivity.
Qed.

(** C6. Range of Long: the payload 2^63 = 9223372036854775808 is
    accepted, the upper bound [BigInt(9223372036854775807)] being 2^63. *)
Theorem new_TAG_Long_accepts_2_pow_63 :
  BigInt (number_of_Z 9223372036854775807) = Some two_pow_63 /\
  new_TAG_Long 0 [] two_pow_63 = Ok (TAG_Long 0 [] two_pow_63).
Proof.
  split; reflexivity.
Qed.



(** X10. A non-empty payload is accepted by [new TAG_Compound] exactly
    when its last element is an End tag, whatever comes before it, Ends
    included; it is refused with the constructor's own error otherwise.
    The length cached is the sum of the members' total lengths. *)
Lemma new_TAG_Compound_last nl nm (init : list NBT) (last : NBT) :
  new_TAG_Compound nl nm (init ++ [last]) =
  if id last =? 0
  then Ok (TAG_Compound nl nm (sum_total_lengths (init ++ [last])) (init ++ [last]))
  else Throw (Error "TAG_Compound must end with a TAG_End").
Proof.
  unfold new_TAG_Compound, array_get.
  rewrite length_app, Nat2Z.inj_add. simpl List.length.
  replace (Z.of_nat (List.length init) + Z.of_nat 1 - 1 <? 0) with false
    by (symmetry; apply Z.ltb_ge; lia).
  replace (Z.to_nat (Z.of_nat (List.length init) + Z.of_nat 1 - 1))
    with (List.length init) by lia.
  rewrite nth_error_app2, Nat.sub_diag by lia. simpl.
  now destruct (id last =? 0).
Qed.

(** C9. Compound termination, at the empty payload: the constructor
    throws a TypeError, reading [id] of the missing last element, and not
    its own error; a payload ending in a Byte gets that error; the payload
    [[End]] is accepted and is written as the single byte [00]. *)
Theorem new_TAG_Compound_checks :
  new_TAG_Compound 0 [] [] = Throw TypeError /\
  new_TAG_Compound 0 [] [TAG_End; TAG_Byte 0 [] (number_of_Z 1)]
  = Throw (Error "TAG_Compound must end with a TAG_End") /\
  new_TAG_Compound 0 [] [TAG_End] = Ok (TAG_Compound 0 [] 1 [TAG_End]) /\
  writePayload (TAG_Compound 0 [] 1 [TAG_End])
    {| buffer := bytes_of [255]; byteOffset := 0 |}
  = (Ok tt, {| buffer := bytes_of [0]; byteOffset := 1 |}).
Proof.
  repeat split; reflexivity.
Qed.

(** ** Reading a truncated buffer *)

Lemma u8_range (b : byte) : 0 <= u8 b < 256.
Proof.
  unfold u8. pose proof (Byte.to_N_bounded b). lia.
Qed.

Lemma slice_app (pre rest : list byte) (off n : Z) :
  0 <= off -> 0 <= n -> off + n <= Z.of_nat (List.length pre) ->
  slice (pre ++ rest) off n = slice pre off n.
Proof.
  intros Hoff Hn Hle. unfold slice.
  rewrite skipn_app, firstn_app, length_skipn.
  replace (Z.to_nat n - (List.length pre - Z.to_nat off))%nat with 0%nat by lia.
  simpl. apply app_nil_r.
Qed.

(** Runs the tests of a reader one after the other, on both buffers at
    once; a branch whose tests contradict each other is closed. *)
Ltac run_reads :=
  cbv [bind ret throw get_byteOffset post_increment advance new_DataView
       new_Uint8Array new_Int8Array get_bytes getUint getInt getUint8 getInt8
       getUint16 getInt16 getInt32 getBigInt64 getFloat32 getFloat64 on
       byteLength buffer byteOffset dv_byteOffset dv_byteLength
       LITTLE_ENDIAN endian];
  rewrite ?length_app, ?Nat2Z.inj_add;
  repeat (cbv beta iota zeta;
          repeat rewrite slice_app by lia;
          match goal with
          | |- context [if ?c then _ else _] =>
              destruct c eqn:?; to_Prop;
              rewrite ?length_app, ?Nat2Z.inj_add in *; try lia
          end);
  cbv beta iota zeta;
  repeat rewrite slice_app by lia.

Section Prefix.

Variables pre rest : list byte.

Lemma agrees_ret {A} (a : A) : agrees pre rest (ret a).
Proof.
  intros off Hoff. unfold agrees_at, ret. simpl. auto.
Qed.

Lemma agrees_throw {A} (e : exn) : agrees pre rest (@throw A e).
Proof.
  intros off Hoff. unfold agrees_at, throw. simpl. right. eauto.
Qed.

Lemma agrees_out_of_fuel {A} : agrees pre rest (@out_of_fuel A).
Proof.
  intros off Hoff. unfold agrees_at, out_of_fuel. simpl. eauto.
Qed.

Lemma agrees_lift {A} (o : outcome A) : agrees pre rest (lift o).
Proof.
  intros off Hoff. unfold agrees_at, lift. destruct o; simpl; eauto.
Qed.

Lemma agrees_bind {A B} (m : M A) (f : A -> M B) :
  agrees pre rest m -> (forall a, agrees pre rest (f a)) -> agrees pre rest (bind m f).
Proof.
  intros Hm Hf off Hoff. specialize (Hm off Hoff).
  unfold agrees_at, bind in *.
  destruct (m (on pre off)) as [[a | e |] [b1 o1]]; simpl in *.
  - destruct Hm as (Hb & Ho & Hfull). subst b1. rewrite Hfull.
    apply (Hf a o1 Ho).
  - destruct Hm as [Ht | [s2 Hfull]]; [now left |].
    right. rewrite Hfull. eauto.
  - destruct Hm as [s2 Hfull]. rewrite Hfull. eauto.
Qed.

Lemma agrees_mapM {A B} (f : A -> M B) (l : list A) :
  (forall a, agrees pre rest (f a)) -> agrees pre rest (mapM f l).
Proof.
  intros Hf. induction l as [| a l IH]; simpl.
  - apply agrees_ret.
  - apply agrees_bind; [apply Hf |]. intros b.
    apply agrees_bind; [apply IH |]. intros bs. apply agrees_ret.
Qed.

Lemma agrees_new_Array (n : Z) : agrees pre rest (new_Array n).
Proof.
  unfold new_Array. destruct (n <? 0); [apply agrees_throw | apply agrees_ret].
Qed.

Lemma agrees_Byte : agrees pre rest TAG_Byte_readPayload.
Proof.
  intros off Hoff. unfold agrees_at, TAG_Byte_readPayload. run_reads; settle.
Qed.

Lemma agrees_Short : agrees pre rest TAG_Short_readPayload.
Proof.
  intros off Hoff. unfold agrees_at, TAG_Short_readPayload. run_reads; settle.
Qed.

Lemma agrees_Int : agrees pre rest TAG_Int_readPayload.
Proof.
  intros off Hoff. unfold agrees_at, TAG_Int_readPayload. run_reads; settle.
Qed.

Lemma agrees_Long : agrees pre rest TAG_Long_readPayload.
Proof.
  intros off Hoff. unfold agrees_at, TAG_Long_readPayload. run_reads; settle.
Qed.

Lemma agrees_Float : agrees pre rest TAG_Float_readPayload.
Proof.
  intros off Hoff. unfold agrees_at, TAG_Float_readPayload. run_reads; settle.
Qed.

Lemma agrees_Double : agrees pre rest TAG_Double_readPayload.
Proof.
  intros off Hoff. unfold agrees_at, TAG_Double_readPayload. run_reads; settle.
Qed.

Lemma agrees_Byte_Array : agrees pre rest TAG_Byte_Array_readPayload.
Proof.
  intros off Hoff. unfold agrees_at, TAG_Byte_Array_readPayload.
  run_reads; settle.
Qed.

Lemma agrees_String : agrees pre rest TAG_String_readPayload.
Proof.
  intros off Hoff. unfold agrees_at, TAG_String_readPayload.
  run_reads; settle.
Qed.

Lemma agrees_getNBTName : agrees pre rest _getNBTName.
Proof.
  intros off Hoff. unfold agrees_at, _getNBTName. run_reads; settle.
Qed.

(** Reads that are followed by more reading: [k] is the rest of the
    reader. *)
Lemma agrees_read_u8 {B} (k : Z -> M B) :
  (forall v, agrees pre rest (k v)) ->
  agrees pre rest (off <- post_increment ;;
          data <- new_DataView off 1 ;;
          v <- getUint8 data 0 ;;
          k v).
Proof.
  intros Hk off Hoff. unfold agrees_at. run_reads; settle.
  apply Hk. lia.
Qed.

Lemma agrees_read_i32 {B} (k : Z -> M B) :
  (forall v, agrees pre rest (k v)) ->
  agrees pre rest (off <- get_byteOffset ;;
          data <- new_DataView off 4 ;;
          v <- getInt32 data 0 LITTLE_ENDIAN ;;
          advance 4 ;;
          k v).
Proof.
  intros Hk off Hoff. unfold agrees_at. run_reads; settle.
  apply Hk. lia.
Qed.

(** The test at the entry of [parseNBT]. *)
Lemma agrees_guard {B} (k : M B) :
  agrees pre rest k ->
  agrees pre rest (len <- get_byteLength ;;
          off <- get_byteOffset ;;
          if len <=? off then throw (Error "Reached end of buffer") else k).
Proof.
  intros Hk off Hoff. unfold agrees_at.
  cbv [bind get_byteLength get_byteOffset byteLength on buffer byteOffset].
  rewrite ?length_app, ?Nat2Z.inj_add.
  destruct (Z.of_nat (List.length pre) <=? off) eqn:Hend; [now left |].
  to_Prop.
  replace (Z.of_nat (List.length pre) + Z.of_nat (List.length rest) <=? off)
    with false by (symmetry; apply Z.leb_gt; lia).
  exact (Hk off Hoff).
Qed.

Lemma same_read_ret {A} (a : A) : same_read pre rest (ret a).
Proof.
  intros off. exists (Ok a). split; reflexivity.
Qed.

Lemma same_read_throw {A} (e : exn) : same_read pre rest (@throw A e).
Proof.
  intros off. exists (Throw e). split; reflexivity.
Qed.

Lemma same_read_bind {A B} (m : M A) (f : A -> M B) :
  same_read pre rest m -> (forall a, same_read pre rest (f a)) -> same_read pre rest (bind m f).
Proof.
  intros Hm Hf off. destruct (Hm off) as (r & H1 & H2).
  unfold bind. rewrite H1, H2. destruct r as [a | e |].
  - apply Hf.
  - exists (Throw e). split; reflexivity.
  - exists OutOfFuel. split; reflexivity.
Qed.

Lemma same_read_mapM {A B} (f : A -> M B) (l : list A) :
  (forall a, same_read pre rest (f a)) -> same_read pre rest (mapM f l).
Proof.
  intros Hf. induction l as [| a l IH]; simpl.
  - apply same_read_ret.
  - apply same_read_bind; [apply Hf |]. intros b.
    apply same_read_bind; [apply IH |]. intros bs. apply same_read_ret.
Qed.

Lemma same_read_getInt (bytes : nat) (view : DataView) (i : Z) (le : bool) :
  within pre view -> same_read pre rest (getInt bytes view i le).
Proof.
  intros [Hlo Hhi] off. unfold getInt, getUint, get_bytes, bind, ret, on.
  simpl. destruct (i <? 0) eqn:Hi; [eexists; split; reflexivity |].
  destruct (dv_byteLength view <? i + Z.of_nat bytes) eqn:Hb;
    [eexists; split; reflexivity |].
  to_Prop. rewrite slice_app by lia. eexists; split; reflexivity.
Qed.

Lemma same_read_arrayFromDataView (view : DataView) (dataSize length0 : Z) :
  within pre view -> same_read pre rest (_arrayFromDataView view dataSize length0 0).
Proof.
  intros Hv. unfold _arrayFromDataView.
  destruct (negb (dataSize =? 32) && negb (dataSize =? 64));
    [apply same_read_throw |].
  apply same_read_bind.
  - unfold new_Array. destruct (length0 <? 0);
      [apply same_read_throw | apply same_read_ret].
  - intros _. destruct (dataSize =? 32);
      apply same_read_mapM; intros i; apply same_read_getInt; exact Hv.
Qed.

(** The element block of the int and long array readers. *)
Lemma agrees_view_block {B} (len : Z) (body : DataView -> M B) :
  (forall view, within pre view -> same_read pre rest (body view)) ->
  agrees pre rest (off <- get_byteOffset ;;
          view <- new_DataView off len ;;
          payload <- body view ;;
          advance len ;;
          ret payload).
Proof.
  intros Hbody off Hoff. unfold agrees_at.
  cbv [bind get_byteOffset new_DataView on byteLength buffer byteOffset].
  rewrite ?length_app, ?Nat2Z.inj_add.
  destruct ((off <? 0) || (len <? 0)) eqn:Hneg; [right; eauto |].
  destruct (Z.of_nat (List.length pre) <? off + len) eqn:Hb; [now left |].
  to_Prop.
  replace (Z.of_nat (List.length pre) + Z.of_nat (List.length rest)
           <? off + len) with false by (symmetry; apply Z.ltb_ge; lia).
  destruct (Hbody {| dv_byteOffset := off; dv_byteLength := len |}
              (conj H Hb) off) as (r & H1 & H2).
  unfold on in H1, H2. rewrite H1, H2.
  destruct r as [a | e |]; simpl.
  - repeat split; lia.
  - right. eauto.
  - eauto.
Qed.

Lemma agrees_Int_Array : agrees pre rest TAG_Int_Array_readPayload.
Proof.
  unfold TAG_Int_Array_readPayload. apply agrees_read_i32. intros n.
  apply agrees_view_block. intros view Hv.
  now apply same_read_arrayFromDataView.
Qed.

Lemma agrees_Long_Array : agrees pre rest TAG_Long_Array_readPayload.
Proof.
  unfold TAG_Long_Array_readPayload. apply agrees_read_i32. intros n.
  apply agrees_view_block. intros view Hv.
  now apply same_read_arrayFromDataView.
Qed.

(** *** The container readers and [parseNBT] *)

Section Recursive.

Variable instantiate' : tagClass -> Z -> jsstring -> M NBT.
Variable parse' : M NBT.
Hypothesis agrees_instantiate' : forall c nl nm, agrees pre rest (instantiate' c nl nm).
Hypothesis agrees_parse' : agrees pre rest parse'.

Lemma agrees_List : agrees pre rest (TAG_List_readPayload instantiate').
Proof.
  unfold TAG_List_readPayload. apply agrees_read_u8. intros tagType.
  apply agrees_read_i32. intros n.
  apply agrees_bind; [apply agrees_new_Array |]. intros _.
  apply agrees_bind; [| intros res; apply agrees_ret].
  apply agrees_mapM. intros _.
  destruct (TAG_ID_TO_CLASS tagType);
    [apply agrees_instantiate' | apply agrees_throw].
Qed.

Lemma agrees_Compound (n : nat) (payload : list NBT) :
  agrees pre rest (TAG_Compound_readPayload parse' n payload).
Proof.
  revert payload. induction n as [| n IH]; intros payload; simpl.
  - apply agrees_out_of_fuel.
  - apply agrees_bind; [apply agrees_parse' |]. intros tag.
    destruct (negb _); [apply IH | apply agrees_ret].
Qed.

Lemma agrees_instantiate_class (n : nat) (c : tagClass) (nl : Z) (nm : jsstring) :
  agrees pre rest (instantiate_class instantiate' parse' n c nl nm).
Proof.
  destruct c; simpl;
    try (apply agrees_bind; [| intros p; apply agrees_lift]);
    auto using agrees_lift, agrees_Byte, agrees_Short, agrees_Int,
      agrees_Long, agrees_Float, agrees_Double, agrees_Byte_Array,
      agrees_String, agrees_List, agrees_Compound, agrees_Int_Array,
      agrees_Long_Array.
Qed.

Lemma agrees_parseNBT_body : agrees pre rest (parseNBT_body instantiate').
Proof.
  unfold parseNBT_body. apply agrees_guard.
  apply agrees_read_u8. intros tagId.
  apply agrees_bind.
  - destruct (negb (tagId =? 0)); [apply agrees_getNBTName | apply agrees_ret].
  - intros [name0 nameLength0].
    destruct (TAG_ID_TO_CLASS tagId);
      [apply agrees_instantiate' | apply agrees_throw].
Qed.

End Recursive.

Lemma agrees_instantiate (fuel : nat) :
  forall c nl nm, agrees pre rest (instantiate fuel c nl nm).
Proof.
  induction fuel as [| f IH]; intros c nl nm; simpl.
  - apply agrees_out_of_fuel.
  - apply agrees_instantiate_class; [exact IH |].
    apply agrees_parseNBT_body. exact IH.
Qed.

Lemma agrees_parseNBT (fuel : nat) : agrees pre rest (parseNBT fuel).
Proof.
  apply agrees_parseNBT_body. apply agrees_instantiate.
Qed.

End Prefix.

(** ** Unknown type ids *)

Lemma TAG_ID_TO_CLASS_unknown (tagId : Z) :
  ~ (0 <= tagId <= 12) -> TAG_ID_TO_CLASS tagId = None.
Proof.
  intros H. destruct tagId as [| p | p]; [lia | | reflexivity].
  do 4 (try match goal with
            | q : positive |- _ => destruct q; try reflexivity
            end); lia.
Qed.

(** C7. A buffer whose first byte is a type id outside 0..12 makes
    [parseNBT] fail, after the name length and the name have been read and
    before any payload byte is: with the unknown-tag error, the cursor
    past the name, when the buffer holds the two bytes of the name length
    and the name they announce; with the RangeError of the view that
    leaves the buffer otherwise, the cursor after the id or after the name
    length. *)
Theorem unknown_id_rejected_after_name (fuel : nat) (b : byte) (rest : list byte) :
  ~ (0 <= u8 b <= 12) ->
  parseNBT fuel (stream_of (b :: rest)) =
  match rest with
  | hi :: lo :: rest' =>
      let nameLength := u8 hi * 256 + u8 lo in
      if nameLength <=? Z.of_nat (List.length rest')
      then (Throw (Error "Unexppected tag type"), on (b :: rest) (3 + nameLength))
      else (Throw (RangeError OutOfBounds), on (b :: rest) 3)
  | _ => (Throw (RangeError OutOfBounds), on (b :: rest) 1)
  end.
Proof.
  intros Hb. pose proof (u8_range b) as Hr.
  unfold parseNBT, parseNBT_body, stream_of, _getNBTName.
  cbv [bind ret throw get_byteOffset get_byteLength post_increment advance new_DataView
       new_Uint8Array get_bytes getUint getUint8 
       getUint16  on
       byteLength buffer byteOffset dv_byteOffset dv_byteLength
       LITTLE_ENDIAN endian].
  destruct rest as [| hi [| lo rest']];
    [| pose proof (u8_range hi)
     | pose proof (u8_range hi); pose proof (u8_range lo)].
  all: repeat (cbv beta iota zeta; cbn [List.length];
          try change (be_value (slice (b :: _) (0 + 0) (Z.of_nat 1))) with (u8 b);
          try change (be_value (slice (b :: hi :: lo :: _) (0 + 1 + 0) (Z.of_nat 2)))
            with (u8 hi * 256 + u8 lo);
          match goal with
          | |- context [if ?c then _ else _] =>
              destruct c eqn:?; to_Prop; cbn [List.length] in *; try lia
          end).
  all: rewrite ?(TAG_ID_TO_CLASS_unknown _ Hb).
  all: repeat f_equal; lia.
Qed.

Lemma unknown_id_rejected_after_name_witness :
  parseNBT 1 (stream_of (bytes_of [13; 0; 1; 65; 7]))
  = (Throw (Error "Unexppected tag type"), on (bytes_of [13; 0; 1; 65; 7]) 4).
Proof.
  apply (unknown_id_rejected_after_name 1 (byte_of_Z 13) (bytes_of [0; 1; 65; 7])).
  change (u8 (byte_of_Z 13)) with 13. lia.
Defined.

(** C7, as first stated, fails on the one-byte buffer [0d]: reading the
    name length leaves the buffer and a RangeError comes out. *)
Lemma unknown_id_not_rejected_at_once : ~ unknown_id_rejected_at_once.
Proof.
  intros H.
  assert (Hid : ~ (0 <= u8 (byte_of_Z 13) <= 12))
    by (change (u8 (byte_of_Z 13)) with 13; lia).
  specialize (H 1%nat (byte_of_Z 13) [] Hid).
  vm_compute in H. discriminate H.
Qed.

(** ** Decoding floats *)

Lemma slice_middle (pre p post : list byte) :
  slice (pre ++ p ++ post) (Z.of_nat (List.length pre)) (Z.of_nat (List.length p)) = p.
Proof.
  unfold slice. rewrite !Nat2Z.id, skipn_app, skipn_all, Nat.sub_diag.
  simpl. rewrite firstn_app, firstn_all, Nat.sub_diag. simpl. apply app_nil_r.
Qed.

Lemma run_TAG_Float_readPayload (pre p post : list byte) :
  List.length p = 4%nat ->
  TAG_Float_readPayload (on (pre ++ p ++ post) (Z.of_nat (List.length pre)))
  = (Ok (float_of_bits 23 8 (be_value p)),
     on (pre ++ p ++ post) (Z.of_nat (List.length pre) + 4)).
Proof.
  intros Hp. unfold TAG_Float_readPayload.
  cbv [bind ret get_byteOffset new_DataView getFloat32 getUint get_bytes
       advance on byteLength buffer byteOffset dv_byteOffset dv_byteLength
       LITTLE_ENDIAN endian].
  rewrite !length_app, !Nat2Z.inj_add, Hp.
  repeat (cbv beta iota zeta;
          match goal with
          | |- context [if ?c then _ else _] => destruct c eqn:?; to_Prop; try lia
          end).
  cbv beta iota zeta. rewrite Z.add_0_r.
  replace (Z.of_nat 4) with (Z.of_nat (List.length p)) by (now rewrite Hp).
  now rewrite slice_middle.
Qed.

(** C10. Bytes that follow the wire format and that [parseNBT] refuses:
    a Float tag with an empty name, and a List with an empty name holding
    one Float, whenever the four payload bytes are a Float32 of integral
    value.  The decoded payload goes through the constructor of
    [TAG_Float], which throws on [Number.isInteger]. *)
Theorem parseNBT_Float_integral (fuel : nat) (p : list byte) :
  List.length p = 4%nat ->
  Number_isInteger (float_of_bits 23 8 (be_value p)) = true ->
  parseNBT (S fuel) (stream_of (bytes_of [5; 0; 0] ++ p))
  = (Throw invalid_payload, on (bytes_of [5; 0; 0] ++ p) 7) /\
  parseNBT (S (S fuel)) (stream_of (bytes_of [9; 0; 0; 5; 0; 0; 0; 1] ++ p))
  = (Throw invalid_payload, on (bytes_of [9; 0; 0; 5; 0; 0; 0; 1] ++ p) 12).
Proof.
  intros Hp Hint.
  destruct p as [| b0 [| b1 [| b2 [| b3 [| b4 p]]]]]; try discriminate Hp.
  pose proof (run_TAG_Float_readPayload (bytes_of [5; 0; 0])
                [b0; b1; b2; b3] [] Hp) as Htop.
  pose proof (run_TAG_Float_readPayload (bytes_of [9; 0; 0; 5; 0; 0; 0; 1])
                [b0; b1; b2; b3] [] Hp) as Hlist.
  split.
  - lazy -[TAG_Float_readPayload new_TAG_Float].
    lazy -[TAG_Float_readPayload float_of_bits be_value] in Htop.
    rewrite Htop. unfold new_TAG_Float. now rewrite Hint.
  - lazy -[TAG_Float_readPayload new_TAG_Float].
    lazy -[TAG_Float_readPayload float_of_bits be_value] in Hlist.
    rewrite Hlist. unfold new_TAG_Float. now rewrite Hint.
Qed.

Lemma parseNBT_Float_integral_witness :
  parseNBT 1 (stream_of (bytes_of [5; 0; 0; 64; 0; 0; 0]))
  = (Throw invalid_payload, on (bytes_of [5; 0; 0; 64; 0; 0; 0]) 7) /\
  parseNBT 2 (stream_of (bytes_of [9; 0; 0; 5; 0; 0; 0; 1; 64; 0; 0; 0]))
  = (Throw invalid_payload, on (bytes_of [9; 0; 0; 5; 0; 0; 0; 1; 64; 0; 0; 0]) 12).
Proof.
  apply (parseNBT_Float_integral 0 (bytes_of [64; 0; 0; 0])); reflexivity.
Defined.

(** ** More fuel changes no result *)

Lemma extends_refl {A} (m : M A) : extends m m.
Proof.
  intros s _. reflexivity.
Qed.

Lemma extends_bind {A B} (m1 m2 : M A) (f1 f2 : A -> M B) :
  extends m1 m2 -> (forall a, extends (f1 a) (f2 a)) ->
  extends (bind m1 f1) (bind m2 f2).
Proof.
  intros Hm Hf s H. unfold bind in *. specialize (Hm s).
  destruct (m1 s) as [[a | e |] s1]; simpl in *.
  - rewrite Hm by discriminate. now apply Hf.
  - now rewrite Hm by discriminate.
  - now contradiction H.
Qed.

Lemma extends_mapM {A B} (f1 f2 : A -> M B) (l : list A) :
  (forall a, extends (f1 a) (f2 a)) -> extends (mapM f1 l) (mapM f2 l).
Proof.
  intros Hf. induction l as [| a l IH]; simpl.
  - apply extends_refl.
  - apply extends_bind; [apply Hf |]. intros b.
    apply extends_bind; [apply IH |]. intros bs. apply extends_refl.
Qed.

Ltac extends_prefix :=
  repeat (apply extends_bind; [apply extends_refl | intros ?]).

Section MoreFuel.

Variables i1 i2 : tagClass -> Z -> jsstring -> M NBT.
Variables p1 p2 : M NBT.
Hypothesis extends_i : forall c nl nm, extends (i1 c nl nm) (i2 c nl nm).
Hypothesis extends_p : extends p1 p2.

Lemma extends_List :
  extends (TAG_List_readPayload i1) (TAG_List_readPayload i2).
Proof.
  unfold TAG_List_readPayload. extends_prefix.
  apply extends_bind; [| intros res; apply extends_refl].
  apply extends_mapM. intros _.
  destruct (TAG_ID_TO_CLASS _); [apply extends_i | apply extends_refl].
Qed.

Lemma extends_Compound (n : nat) (payload : list NBT) :
  extends (TAG_Compound_readPayload p1 n payload)
          (TAG_Compound_readPayload p2 (S n) payload).
Proof.
  revert payload. induction n as [| n IH]; intros payload.
  - intros s H. now contradiction H.
  - change (extends
              (tag <- p1 ;;
               if negb (id tag =? id TAG_End)
               then TAG_Compound_readPayload p1 n (payload ++ [tag])
               else ret (payload ++ [tag]))
              (tag <- p2 ;;
               if negb (id tag =? id TAG_End)
               then TAG_Compound_readPayload p2 (S n) (payload ++ [tag])
               else ret (payload ++ [tag]))).
    apply extends_bind; [apply extends_p |]. intros tag.
    destruct (negb _); [apply IH | apply extends_refl].
Qed.

Lemma extends_instantiate_class (n : nat) (c : tagClass) (nl : Z) (nm : jsstring) :
  extends (instantiate_class i1 p1 n c nl nm)
          (instantiate_class i2 p2 (S n) c nl nm).
Proof.
  destruct c; try apply extends_refl;
    apply extends_bind; try (intros p; apply extends_refl).
  - apply extends_List.
  - apply extends_Compound.
Qed.

Lemma extends_parseNBT_body :
  extends (parseNBT_body i1) (parseNBT_body i2).
Proof.
  unfold parseNBT_body. extends_prefix.
  destruct (_ <=? _); [apply extends_refl |]. extends_prefix.
  match goal with
  | header : (jsstring * Z)%type |- _ => destruct header as [name0 nameLength0]
  end.
  destruct (TAG_ID_TO_CLASS _); [apply extends_i | apply extends_refl].
Qed.

End MoreFuel.

Lemma extends_instantiate_S (fuel : nat) :
  forall c nl nm, extends (instantiate fuel c nl nm) (instantiate (S fuel) c nl nm).
Proof.
  induction fuel as [| f IH]; intros c nl nm.
  - intros s H. now contradiction H.
  - change (extends
              (instantiate_class (instantiate f)
                 (parseNBT_body (instantiate f)) f c nl nm)
              (instantiate_class (instantiate (S f))
                 (parseNBT_body (instantiate (S f))) (S f) c nl nm)).
    apply extends_instantiate_class; [exact IH |].
    apply extends_parseNBT_body. exact IH.
Qed.

Lemma extends_trans {A} (m1 m2 m3 : M A) :
  extends m1 m2 -> extends m2 m3 -> extends m1 m3.
Proof.
  intros H12 H23 s H. rewrite <- (H12 s H). apply H23. now rewrite (H12 s H).
Qed.

Lemma extends_instantiate (fuel fuel' : nat) :
  (fuel <= fuel')%nat ->
  forall c nl nm, extends (instantiate fuel c nl nm) (instantiate fuel' c nl nm).
Proof.
  induction 1 as [| fuel' Hle IH]; intros c nl nm.
  - apply extends_refl.
  - eapply extends_trans; [apply IH | apply extends_instantiate_S].
Qed.

(** A result of [parseNBT] stays the same with more fuel. *)
Lemma parseNBT_more_fuel (fuel fuel' : nat) (s s' : stream) (tag : NBT) :
  (fuel <= fuel')%nat ->
  parseNBT fuel s = (Ok tag, s') -> parseNBT fuel' s = (Ok tag, s').
Proof.
  intros Hle H. rewrite <- H. unfold parseNBT.
  apply extends_parseNBT_body.
  - now apply extends_instantiate.
  - fold (parseNBT fuel). now rewrite H.
Qed.

(** C8. Truncated input.  A view built past the end of the buffer throws
    the RangeError of a truncated input, and every field of the reader is
    read through such a view, built for that field.  Hence: when
    [parseNBT] decodes a tag from [buf] and stops at offset [n], the
    decoding of any shorter prefix of [buf], with [k < n] bytes, fails
    with a truncated-input error, whatever fuel at least as large is
    given.  A buffer holding the 3-byte header of a Short tag and no
    payload fails so, at the read of the payload. *)
Theorem truncated_input_fails :
  (forall (s : stream) (off len : Z),
     0 <= off -> 0 <= len -> byteLength s < off + len ->
     new_DataView off len s = (Throw (RangeError OutOfBounds), s) /\
     new_Uint8Array off len s = (Throw (RangeError OutOfBounds), s)) /\
  (forall (fuel fuel' : nat) (buf : list byte) (tag : NBT) (s : stream) (k : nat),
     parseNBT fuel (stream_of buf) = (Ok tag, s) ->
     (fuel <= fuel')%nat ->
     Z.of_nat k < byteOffset s ->
     exists e s',
       parseNBT fuel' (stream_of (firstn k buf)) = (Throw e, s') /\
       isTruncatedInput e = true) /\
  (forall fuel : nat,
     parseNBT (S fuel) (stream_of (bytes_of [2; 0; 0]))
     = (Throw (RangeError OutOfBounds), on (bytes_of [2; 0; 0]) 3)).
Proof.
  split; [| split].
  - intros s off len Hoff Hlen Hout. unfold new_DataView, new_Uint8Array.
    replace ((off <? 0) || (len <? 0)) with false
      by (symmetry; apply orb_false_iff; split; apply Z.ltb_ge; lia).
    replace (byteLength s <? off + len) with true
      by (symmetry; apply Z.ltb_lt; lia).
    split; reflexivity.
  - intros fuel fuel' buf tag s k Hparse Hle Hk.
    apply (parseNBT_more_fuel fuel fuel' _ _ _ Hle) in Hparse.
    pose proof (agrees_parseNBT (firstn k buf) (skipn k buf) fuel' 0
                  (Nat2Z.is_nonneg _)) as Hagree.
    unfold agrees_at, on in Hagree. rewrite firstn_skipn in Hagree.
    unfold stream_of in *. rewrite Hparse in Hagree.
    destruct (parseNBT fuel' {| buffer := firstn k buf; byteOffset := 0 |})
      as [[a | e |] s1].
    + destruct Hagree as (_ & Hs1 & Heq). injection Heq as _ Hs. subst s.
      simpl in Hk. pose proof (firstn_le_length k buf). lia.
    + destruct Hagree as [Ht | [s2 Heq]]; [eauto | discriminate Heq].
    + destruct Hagree as [s2 Heq]. discriminate Heq.
  - intros fuel. reflexivity.
Qed.

Lemma truncated_input_fails_witness :
  new_DataView 3 2 (on (bytes_of [2; 0; 0]) 3)
  = (Throw (RangeError OutOfBounds), on (bytes_of [2; 0; 0]) 3) /\
  exists e s',
    parseNBT 1 (stream_of (bytes_of [2; 0; 0])) = (Throw e, s') /\
    isTruncatedInput e = true.
Proof.
  split.
  - apply (proj1 truncated_input_fails (on (bytes_of [2; 0; 0]) 3) 3 2);
      [lia | lia | reflexivity].
  - apply (proj1 (proj2 truncated_input_fails) 1%nat 1%nat
             (bytes_of [2; 0; 0; 0; 1]) (TAG_Short 0 [] (number_of_Z 1))
             (on (bytes_of [2; 0; 0; 0; 1]) 5) 3%nat).
    + reflexivity.
    + lia.
    + simpl. lia.
Defined.

(** ** The reader terminates and stays within the buffer *)

Ltac run_one :=
  cbv [bind ret throw lift get_byteOffset post_increment advance new_DataView
       new_Uint8Array new_Int8Array get_bytes getUint getInt getUint8 getInt8
       getUint16 getInt16 getInt32 getBigInt64 getFloat32 getFloat64
       byteLength buffer byteOffset dv_byteOffset dv_byteLength
       LITTLE_ENDIAN endian];
  repeat (cbv beta iota zeta;
          match goal with
          | |- context [if ?c then _ else _] =>
              destruct c eqn:?; to_Prop; try lia
          end);
  cbv beta iota zeta.

Ltac runs_leaf :=
  intros [buf off] [H0 Hk]; unfold remaining, byteLength in H0, Hk;
  simpl in H0, Hk; run_one; try exact I; try (split; [reflexivity | lia]).

Lemma runs_weaken {A} (k k' p p' : Z) (m : M A) :
  runs k p m -> k' <= k -> p' <= p -> runs k' p' m.
Proof.
  intros H Hk Hp s Hs. specialize (H s). 
  destruct (m s) as [[a | e |] s']; try apply H; try lia.
  destruct H as [Hb Ho]; [lia |]. split; [exact Hb | lia].
Qed.

Lemma runs_ret {A} (k : Z) (a : A) : runs k 0 (ret a).
Proof.
  intros s Hs. unfold ret, remaining in *. split; [reflexivity | lia].
Qed.

Lemma runs_throw {A} (k : Z) (e : exn) : runs k 0 (@throw A e).
Proof.
  intros s Hs. exact I.
Qed.

Lemma runs_lift {A} (k : Z) (o : outcome A) :
  o <> OutOfFuel -> runs k 0 (lift o).
Proof.
  intros Ho s Hs. unfold lift, remaining in *.
  destruct o; [split; [reflexivity | lia] | exact I | now apply Ho].
Qed.

Lemma runs_bind {A B} (k p q : Z) (m : M A) (f : A -> M B) :
  0 <= p -> runs k p m -> (forall a, runs (k - p) q (f a)) ->
  runs k (p + q) (bind m f).
Proof.
  intros Hp Hm Hf s Hs. specialize (Hm s Hs). unfold bind.
  destruct (m s) as [[a | e |] s1]; [| exact I | exact Hm].
  destruct Hm as [Hb Ho].
  assert (Hlen : byteLength s1 = byteLength s) by (unfold byteLength; now rewrite Hb).
  specialize (Hf a s1). unfold remaining in *.
  destruct (f a s1) as [[b | e |] s2]; [| exact I | apply Hf; lia].
  destruct Hf as [Hb2 Ho2]; [lia |].
  split; [congruence | lia].
Qed.

Lemma runs_bind0 {A B} (k q : Z) (m : M A) (f : A -> M B) :
  runs k 0 m -> (forall a, runs k q (f a)) -> runs k q (bind m f).
Proof.
  intros Hm Hf. change q with (0 + q). apply runs_bind; [lia | exact Hm |].
  intros a. rewrite Z.sub_0_r. apply Hf.
Qed.

Lemma runs_mapM {A B} (k : Z) (f : A -> M B) (l : list A) :
  (forall a, runs k 0 (f a)) -> runs k 0 (mapM f l).
Proof.
  intros Hf. induction l as [| a l IH]; simpl.
  - apply runs_ret.
  - apply runs_bind0; [apply Hf |]. intros b.
    apply runs_bind0; [apply IH |]. intros bs. apply runs_ret.
Qed.

Lemma runs_new_Array (k n : Z) : runs k 0 (new_Array n).
Proof.
  unfold new_Array. destruct (n <? 0); [apply runs_throw | apply runs_ret].
Qed.

Lemma runs_Byte k : runs k 0 TAG_Byte_readPayload.
Proof.
  unfold TAG_Byte_readPayload. runs_leaf.
Qed.

Lemma runs_Short k : runs k 0 TAG_Short_readPayload.
Proof.
  unfold TAG_Short_readPayload. runs_leaf.
Qed.

Lemma runs_Int k : runs k 0 TAG_Int_readPayload.
Proof.
  unfold TAG_Int_readPayload. runs_leaf.
Qed.

Lemma runs_Long k : runs k 0 TAG_Long_readPayload.
Proof.
  unfold TAG_Long_readPayload. runs_leaf.
Qed.

Lemma runs_Float k : runs k 0 TAG_Float_readPayload.
Proof.
  unfold TAG_Float_readPayload. runs_leaf.
Qed.

Lemma runs_Double k : runs k 0 TAG_Double_readPayload.
Proof.
  unfold TAG_Double_readPayload. runs_leaf.
Qed.

Lemma runs_Byte_Array k : runs k 0 TAG_Byte_Array_readPayload.
Proof.
  unfold TAG_Byte_Array_readPayload. runs_leaf.
Qed.

Lemma runs_String k : runs k 0 TAG_String_readPayload.
Proof.
  unfold TAG_String_readPayload. runs_leaf.
Qed.

Lemma runs_getNBTName k : runs k 0 _getNBTName.
Proof.
  unfold _getNBTName. runs_leaf.
Qed.

Lemma looks_ret {A} (a : A) : looks (ret a).
Proof.
  intros s. split; [reflexivity | discriminate].
Qed.

Lemma looks_throw {A} (e : exn) : looks (@throw A e).
Proof.
  intros s. split; [reflexivity | discriminate].
Qed.

Lemma looks_bind {A B} (m : M A) (f : A -> M B) :
  looks m -> (forall a, looks (f a)) -> looks (bind m f).
Proof.
  intros Hm Hf s. destruct (Hm s) as [Hs Hr]. unfold bind.
  destruct (m s) as [[a | e |] s1]; simpl in *; subst s1.
  - apply Hf.
  - split; [reflexivity | discriminate].
  - now contradiction Hr.
Qed.

Lemma looks_mapM {A B} (f : A -> M B) (l : list A) :
  (forall a, looks (f a)) -> looks (mapM f l).
Proof.
  intros Hf. induction l as [| a l IH]; simpl.
  - apply looks_ret.
  - apply looks_bind; [apply Hf |]. intros b.
    apply looks_bind; [apply IH |]. intros bs. apply looks_ret.
Qed.

Lemma looks_getInt (bytes : nat) (view : DataView) (i : Z) (le : bool) :
  looks (getInt bytes view i le).
Proof.
  intros s. unfold getInt, getUint, get_bytes, bind, ret.
  destruct (i <? 0); [split; [reflexivity | discriminate] |].
  destruct (_ <? _); split; try reflexivity; discriminate.
Qed.

Lemma looks_arrayFromDataView (view : DataView) (dataSize length0 byteOffSet : Z) :
  looks (_arrayFromDataView view dataSize length0 byteOffSet).
Proof.
  unfold _arrayFromDataView.
  destruct (negb (dataSize =? 32) && negb (dataSize =? 64));
    [apply looks_throw |].
  apply looks_bind.
  - unfold new_Array. destruct (length0 <? 0);
      [apply looks_throw | apply looks_ret].
  - intros _. destruct (dataSize =? 32);
      apply looks_mapM; intros i; apply looks_getInt.
Qed.

(** Reads followed by more reading, [c] being the rest of the reader. *)
Lemma runs_read_u8 {B} (k : Z) (c : Z -> M B) :
  (forall v, runs (k - 1) 0 (c v)) ->
  runs k 1 (off <- post_increment ;;
            data <- new_DataView off 1 ;;
            v <- getUint8 data 0 ;;
            c v).
Proof.
  intros Hc [buf off] [H0 Hk]. unfold remaining, byteLength in H0, Hk.
  simpl in H0, Hk. run_one; try exact I.
  match goal with
  | |- context [c ?v ?s] => specialize (Hc v s); destruct (c v s) as [[b | e |] s2]
  end; try exact I.
  - destruct s2 as [buf2 off2].
    unfold remaining, byteLength in Hc. cbn [buffer byteOffset] in Hc.
    destruct Hc as [Hb Ho]; [lia |]. split; [exact Hb | lia].
  - unfold remaining, byteLength in Hc. cbn [buffer byteOffset] in Hc.
    apply Hc. lia.
Qed.

Lemma runs_read_i32 {B} (k q : Z) (c : Z -> M B) :
  (forall v, runs k q (c v)) ->
  runs k q (off <- get_byteOffset ;;
            data <- new_DataView off 4 ;;
            v <- getInt32 data 0 LITTLE_ENDIAN ;;
            advance 4 ;;
            c v).
Proof.
  intros Hc [buf off] [H0 Hk]. unfold remaining, byteLength in H0, Hk.
  simpl in H0, Hk. run_one; try exact I.
  match goal with
  | |- context [c ?v ?s] => specialize (Hc v s); destruct (c v s) as [[b | e |] s2]
  end; try exact I.
  - destruct s2 as [buf2 off2].
    unfold remaining, byteLength in Hc. cbn [buffer byteOffset] in Hc.
    destruct Hc as [Hb Ho]; [lia |]. split; [exact Hb | lia].
  - unfold remaining, byteLength in Hc. cbn [buffer byteOffset] in Hc.
    apply Hc. lia.
Qed.

Lemma runs_guard {B} (k q : Z) (c : M B) :
  runs k q c ->
  runs k q (len <- get_byteLength ;;
            off <- get_byteOffset ;;
            if len <=? off then throw (Error "Reached end of buffer") else c).
Proof.
  intros Hc s Hs. specialize (Hc s Hs).
  unfold bind, get_byteLength, get_byteOffset.
  destruct (byteLength s <=? byteOffset s); [exact I | exact Hc].
Qed.

Lemma runs_view_block {B} (k len : Z) (body : DataView -> M B) :
  (forall view, looks (body view)) ->
  runs k 0 (off <- get_byteOffset ;;
            view <- new_DataView off len ;;
            payload <- body view ;;
            advance len ;;
            ret payload).
Proof.
  intros Hbody [buf off] [H0 Hk]. unfold remaining, byteLength in H0, Hk.
  simpl in H0, Hk.
  cbv [bind get_byteOffset new_DataView byteLength buffer byteOffset].
  destruct ((off <? 0) || (len <? 0)) eqn:Hneg; [exact I |].
  destruct (Z.of_nat (List.length buf) <? off + len) eqn:Hb; [exact I |].
  to_Prop.
  destruct (Hbody {| dv_byteOffset := off; dv_byteLength := len |}
              {| buffer := buf; byteOffset := off |}) as [Hs Hr].
  destruct (body _ _) as [[a | e |] s1]; cbn [fst snd] in Hs, Hr; subst s1.
  - unfold advance, ret. cbn [buffer byteOffset].
    split; [reflexivity | lia].
  - exact I.
  - now apply Hr.
Qed.

Lemma runs_Int_Array k : runs k 0 TAG_Int_Array_readPayload.
Proof.
  unfold TAG_Int_Array_readPayload. apply runs_read_i32. intros n.
  apply runs_view_block. intros view. apply looks_arrayFromDataView.
Qed.

Lemma runs_Long_Array k : runs k 0 TAG_Long_Array_readPayload.
Proof.
  unfold TAG_Long_Array_readPayload. apply runs_read_i32. intros n.
  apply runs_view_block. intros view. apply looks_arrayFromDataView.
Qed.

Lemma new_TAG_not_OutOfFuel :
  (forall nl nm p, new_TAG_Byte nl nm p <> OutOfFuel) /\
  (forall nl nm p, new_TAG_Short nl nm p <> OutOfFuel) /\
  (forall nl nm p, new_TAG_Int nl nm p <> OutOfFuel) /\
  (forall nl nm p, new_TAG_Long nl nm p <> OutOfFuel) /\
  (forall nl nm p, new_TAG_Float nl nm p <> OutOfFuel) /\
  (forall nl nm p, new_TAG_Double nl nm p <> OutOfFuel) /\
  (forall nl nm t p, new_TAG_List nl nm t p <> OutOfFuel) /\
  (forall nl nm p, new_TAG_Compound nl nm p <> OutOfFuel).
Proof.
  repeat split; intros;
    unfold new_TAG_Byte, new_TAG_Short, new_TAG_Int, new_TAG_Long,
      new_TAG_Float, new_TAG_Double, new_TAG_List, new_TAG_Compound;
    repeat match goal with
      | |- context [if ?c then _ else _] => destruct c
      | |- context [match ?c with _ => _ end] => destruct c
      end; discriminate.
Qed.

Section Descent.

Variable f : nat.
Variable instantiate' : tagClass -> Z -> jsstring -> M NBT.
Hypothesis runs_instantiate' :
  forall c nl nm, runs (Z.of_nat f - 2) 0 (instantiate' c nl nm).

Lemma runs_parseNBT_body : runs (Z.of_nat f - 1) 1 (parseNBT_body instantiate').
Proof.
  unfold parseNBT_body. apply runs_guard. apply runs_read_u8. intros tagId.
  replace (Z.of_nat f - 1 - 1) with (Z.of_nat f - 2) by lia.
  apply runs_bind0.
  - destruct (negb (tagId =? 0)); [apply runs_getNBTName | apply runs_ret].
  - intros [name0 nameLength0].
    destruct (TAG_ID_TO_CLASS tagId);
      [apply runs_instantiate' | apply runs_throw].
Qed.

Lemma runs_List : runs (Z.of_nat f - 1) 0 (TAG_List_readPayload instantiate').
Proof.
  unfold TAG_List_readPayload.
  apply (runs_weaken (Z.of_nat f - 1) _ 1 0); [| lia | lia].
  apply runs_read_u8. intros tagType.
  replace (Z.of_nat f - 1 - 1) with (Z.of_nat f - 2) by lia.
  apply runs_read_i32. intros n.
  apply runs_bind0; [apply runs_new_Array |]. intros _.
  apply runs_bind0; [| intros res; apply runs_ret].
  apply runs_mapM. intros _.
  destruct (TAG_ID_TO_CLASS tagType);
    [apply runs_instantiate' | apply runs_throw].
Qed.

Lemma runs_Compound (n : nat) (payload : list NBT) :
  (n <= f)%nat ->
  runs (Z.of_nat n - 1) 0
    (TAG_Compound_readPayload (parseNBT_body instantiate') n payload).
Proof.
  revert payload. induction n as [| n IH]; intros payload Hn s Hs.
  - lia.
  - cbn [TAG_Compound_readPayload]. unfold bind.
    pose proof (runs_parseNBT_body s) as Hp.
    destruct (parseNBT_body instantiate' s) as [[tag | e |] s1];
      [| exact I | apply Hp; lia].
    destruct Hp as [Hb Ho]; [lia |].
    assert (Hlen : byteLength s1 = byteLength s)
      by (unfold byteLength; now rewrite Hb).
    destruct (negb _).
    + specialize (IH (payload ++ [tag]) ltac:(lia) s1).
      unfold remaining in *.
      destruct (TAG_Compound_readPayload _ n _ s1) as [[a | e |] s2];
        [| exact I | apply IH; lia].
      destruct IH as [Hb2 Ho2]; [lia |]. split; [congruence | lia].
    + unfold ret. split; [exact Hb | lia].
Qed.

Lemma runs_instantiate_class (c : tagClass) (nl : Z) (nm : jsstring) :
  runs (Z.of_nat f - 1) 0
    (instantiate_class instantiate' (parseNBT_body instantiate') f c nl nm).
Proof.
  destruct new_TAG_not_OutOfFuel as (HB & HS & HI & HL & HF & HD & HLi & HC).
  destruct c; cbn [instantiate_class];
    try (apply runs_bind0; [| intros p; apply runs_lift]);
    auto using runs_Byte, runs_Short, runs_Int, runs_Long, runs_Float,
      runs_Double, runs_Byte_Array, runs_String, runs_List, runs_Int_Array,
      runs_Long_Array;
    try discriminate.
  - apply runs_lift. discriminate.
  - apply runs_Compound. lia.
Qed.

End Descent.

Lemma runs_instantiate (fuel : nat) :
  forall c nl nm, runs (Z.of_nat fuel - 2) 0 (instantiate fuel c nl nm).
Proof.
  induction fuel as [| f IH]; intros c nl nm.
  - intros s Hs. lia.
  - replace (Z.of_nat (S f) - 2) with (Z.of_nat f - 1) by lia.
    apply runs_instantiate_class. exact IH.
Qed.

Lemma runs_parseNBT (fuel : nat) : runs (Z.of_nat fuel - 1) 1 (parseNBT fuel).
Proof.
  apply runs_parseNBT_body. apply runs_instantiate.
Qed.

Lemma extends_parseNBT (fuel fuel' : nat) :
  (fuel <= fuel')%nat -> extends (parseNBT fuel) (parseNBT fuel').
Proof.
  intros Hle. apply extends_parseNBT_body. now apply extends_instantiate.
Qed.

(** X1. The reader terminates: every call that [parseNBT] nests reads at
    least one byte first, so on a stream with fewer bytes left than
    [fuel] the model does not run out of fuel, and any larger fuel gives
    the same outcome. *)
Theorem parseNBT_enough_fuel (s : stream) (fuel fuel' : nat) :
  remaining s < Z.of_nat fuel -> (fuel <= fuel')%nat ->
  fst (parseNBT fuel s) <> OutOfFuel /\ parseNBT fuel' s = parseNBT fuel s.
Proof.
  intros Hfuel Hle.
  assert (Hrun : fst (parseNBT fuel s) <> OutOfFuel).
  { destruct (Z_lt_le_dec (remaining s) 0) as [Hneg | Hpos].
    - unfold parseNBT, parseNBT_body, bind, get_byteLength, get_byteOffset.
      unfold remaining in Hneg.
      replace (byteLength s <=? byteOffset s) with true
        by (symmetry; apply Z.leb_le; lia).
      discriminate.
    - pose proof (runs_parseNBT fuel s ltac:(lia)) as H.
      destruct (parseNBT fuel s) as [[t | e |] s1];
        [discriminate | discriminate | contradiction]. }
  split; [exact Hrun |]. now apply extends_parseNBT.
Qed.

Lemma parseNBT_enough_fuel_witness :
  fst (parseNBT 5 (stream_of (bytes_of [10; 0; 0; 0]))) <> OutOfFuel /\
  parseNBT 9 (stream_of (bytes_of [10; 0; 0; 0]))
  = parseNBT 5 (stream_of (bytes_of [10; 0; 0; 0])).
Proof.
  apply (parseNBT_enough_fuel (stream_of (bytes_of [10; 0; 0; 0])) 5 9).
  - vm_compute. reflexivity.
  - lia.
Defined.

(** X2. A tag that [parseNBT] returns was read from within the buffer:
    the buffer is as it was, and the cursor has moved forward by at least
    one byte and not past the end. *)
Theorem parseNBT_consumes (fuel : nat) (s s' : stream) (tag : NBT) :
  parseNBT fuel s = (Ok tag, s') ->
  buffer s' = buffer s /\ byteOffset s < byteOffset s' <= byteLength s.
Proof.
  intros H.
  destruct (Z_lt_le_dec (remaining s) 0) as [Hneg | Hpos].
  - unfold parseNBT, parseNBT_body, bind, get_byteLength, get_byteOffset in H.
    unfold remaining in Hneg.
    replace (byteLength s <=? byteOffset s) with true in H
      by (symmetry; apply Z.leb_le; lia).
    discriminate H.
  - set (fuel' := (fuel + S (Z.to_nat (remaining s)))%nat).
    apply (parseNBT_more_fuel fuel fuel') in H; [| subst fuel'; lia].
    pose proof (runs_parseNBT fuel' s ltac:(subst fuel'; lia)) as Hr.
    rewrite H in Hr. destruct Hr as [Hb Ho]. split; [exact Hb | lia].
Qed.

Lemma parseNBT_consumes_witness :
  let s := stream_of (bytes_of [2; 0; 0; 0; 1; 9]) in
  buffer (on (bytes_of [2; 0; 0; 0; 1; 9]) 5) = buffer s /\
  byteOffset s < 5 <= byteLength s.
Proof.
  apply (parseNBT_consumes 1 (stream_of (bytes_of [2; 0; 0; 0; 1; 9]))
           (on (bytes_of [2; 0; 0; 0; 1; 9]) 5) (TAG_Short 0 [] (number_of_Z 1))).
  reflexivity.
Defined.

(** X3. Bytes after the tag do not matter: when [parseNBT] decodes a tag
    from a buffer, it decodes the same tag, and stops at the same offset,
    from that buffer followed by any other bytes. *)
Theorem parseNBT_ignores_trailing_bytes
    (fuel : nat) (pre rest : list byte) (tag : NBT) (s' : stream) :
  parseNBT fuel (stream_of pre) = (Ok tag, s') ->
  parseNBT fuel (stream_of (pre ++ rest))
  = (Ok tag, on (pre ++ rest) (byteOffset s')).
Proof.
  intros H.
  pose proof (agrees_parseNBT pre rest fuel 0 (Nat2Z.is_nonneg _)) as Ha.
  unfold agrees_at, on in Ha. unfold stream_of in *. rewrite H in Ha.
  apply Ha.
Qed.

Lemma parseNBT_ignores_trailing_bytes_witness :
  parseNBT 1 (stream_of (bytes_of [2; 0; 0; 0; 1] ++ bytes_of [7; 7]))
  = (Ok (TAG_Short 0 [] (number_of_Z 1)),
     on (bytes_of [2; 0; 0; 0; 1] ++ bytes_of [7; 7]) 5).
Proof.
  apply (parseNBT_ignores_trailing_bytes 1 (bytes_of [2; 0; 0; 0; 1])
           (bytes_of [7; 7]) (TAG_Short 0 [] (number_of_Z 1))
           (on (bytes_of [2; 0; 0; 0; 1]) 5)).
  reflexivity.
Defined.

(** ** The shape of decoded tags *)

Lemma ensures_ret {A} (P : A -> Prop) (a : A) : P a -> ensures P (ret a).
Proof.
  intros H s a' s' E. injection E as <- _. exact H.
Qed.

Lemma ensures_throw {A} (P : A -> Prop) (e : exn) : ensures P (throw e).
Proof.
  intros s a s' E. discriminate E.
Qed.

Lemma ensures_out_of_fuel {A} (P : A -> Prop) : ensures P out_of_fuel.
Proof.
  intros s a s' E. discriminate E.
Qed.

Lemma ensures_lift {A} (P : A -> Prop) (o : outcome A) :
  (forall a, o = Ok a -> P a) -> ensures P (lift o).
Proof.
  intros H s a s' E. unfold lift in E. injection E as -> _. now apply H.
Qed.

Lemma ensures_bind1 {A B} (P : A -> Prop) (Q : B -> Prop)
    (m : M A) (f : A -> M B) :
  ensures P m -> (forall a, P a -> ensures Q (f a)) -> ensures Q (bind m f).
Proof.
  intros Hm Hf s b s' E. unfold bind in E.
  destruct (m s) as [[a | e |] s1] eqn:Em; try discriminate E.
  exact (Hf a (Hm _ _ _ Em) _ _ _ E).
Qed.

Lemma ensures_bind {A B} (Q : B -> Prop) (m : M A) (f : A -> M B) :
  (forall a, ensures Q (f a)) -> ensures Q (bind m f).
Proof.
  intros Hf. apply (ensures_bind1 (fun _ => True)); [easy | auto].
Qed.

Lemma ensures_mapM {A B} (P : B -> Prop) (f : A -> M B) (l : list A) :
  (forall a, ensures P (f a)) -> ensures (Forall P) (mapM f l).
Proof.
  intros Hf. induction l as [| a l IH]; simpl.
  - apply ensures_ret. constructor.
  - apply (ensures_bind1 P); [apply Hf |]. intros b Hb.
    apply (ensures_bind1 (Forall P)); [apply IH |]. intros bs Hbs.
    apply ensures_ret. now constructor.
Qed.

Lemma wrap_signed_range (w z : Z) : 0 < w -> signed w (wrap_signed w z).
Proof.
  intros Hw. unfold signed, wrap_signed.
  assert (Hp : 2 ^ w = 2 * 2 ^ (w - 1))
    by (rewrite <- Z.pow_succ_r by lia; f_equal; lia).
  assert (Hpos : 0 < 2 ^ (w - 1)) by (apply Z.pow_pos_nonneg; lia).
  pose proof (Z.mod_pos_bound z (2 ^ w) ltac:(lia)) as Hr.
  destruct (z mod 2 ^ w <? 2 ^ (w - 1)) eqn:E; to_Prop; lia.
Qed.

Lemma be_value_range (bs : list byte) :
  0 <= be_value bs < 256 ^ Z.of_nat (List.length bs).
Proof.
  unfold be_value.
  assert (H : forall l a n, 0 <= a < 256 ^ n -> 0 <= n ->
            0 <= fold_left (fun acc b => acc * 256 + u8 b) l a
              < 256 ^ (n + Z.of_nat (List.length l))).
  { induction l as [| b l IH]; intros a n Ha Hn; simpl List.length.
    - simpl. now rewrite Z.add_0_r.
    - cbn [fold_left]. rewrite Nat2Z.inj_succ.
      replace (n + Z.succ (Z.of_nat (List.length l)))
        with ((n + 1) + Z.of_nat (List.length l)) by lia.
      apply IH; [| lia].
      rewrite Z.pow_add_r, Z.pow_1_r by lia.
      pose proof (u8_range b). lia. }
  apply (H bs 0 0); simpl; lia.
Qed.

Lemma length_slice (buf : list byte) (off n : Z) :
  (List.length (slice buf off n) <= Z.to_nat n)%nat.
Proof.
  unfold slice. rewrite length_firstn. lia.
Qed.

Lemma ensures_getInt (bytes : nat) (data : DataView) (i : Z) (le : bool) :
  (0 < bytes)%nat ->
  ensures (signed (8 * Z.of_nat bytes)) (getInt bytes data i le).
Proof.
  intros Hb. unfold getInt. apply ensures_bind. intros v.
  apply ensures_ret. apply wrap_signed_range. lia.
Qed.

Lemma ensures_getUint16 (data : DataView) (i : Z) (le : bool) :
  ensures (fun v => 0 <= v < 65536) (getUint16 data i le).
Proof.
  intros s v s' E. unfold getUint16, getUint, bind, get_bytes, ret in E.
  destruct (i <? 0); [discriminate E |].
  destruct (_ <? _); [discriminate E |].
  remember (endian le (slice (buffer s) (dv_byteOffset data + i) (Z.of_nat 2)))
    as bs eqn:Ebs.
  assert (Hl : (List.length bs <= 2)%nat).
  { subst bs. unfold endian. destruct le; rewrite ?length_rev;
      apply (length_slice _ _ (Z.of_nat 2)). }
  injection E as <- _.
  pose proof (be_value_range bs) as H.
  assert (256 ^ Z.of_nat (List.length bs) <= 256 ^ 2)
    by (apply Z.pow_le_mono_r; lia).
  change (256 ^ 2) with 65536 in *. lia.
Qed.

Lemma ensures_Byte :
  ensures (fun p => exists z, p = number_of_Z z /\ signed 8 z) TAG_Byte_readPayload.
Proof.
  unfold TAG_Byte_readPayload. do 2 (apply ensures_bind; intros ?).
  apply (ensures_bind1 (signed 8)); [apply (ensures_getInt 1); lia |].
  intros z Hz. apply ensures_ret. eauto.
Qed.

Lemma ensures_Short :
  ensures (fun p => exists z, p = number_of_Z z /\ signed 16 z) TAG_Short_readPayload.
Proof.
  unfold TAG_Short_readPayload. do 2 (apply ensures_bind; intros ?).
  apply (ensures_bind1 (signed 16)); [apply (ensures_getInt 2); lia |].
  intros z Hz. apply ensures_bind; intros _. apply ensures_ret. eauto.
Qed.

Lemma ensures_Int :
  ensures (fun p => exists z, p = number_of_Z z /\ signed 32 z) TAG_Int_readPayload.
Proof.
  unfold TAG_Int_readPayload. do 2 (apply ensures_bind; intros ?).
  apply (ensures_bind1 (signed 32)); [apply (ensures_getInt 4); lia |].
  intros z Hz. apply ensures_bind; intros _. apply ensures_ret. eauto.
Qed.

Lemma ensures_Long : ensures (signed 64) TAG_Long_readPayload.
Proof.
  unfold TAG_Long_readPayload. do 2 (apply ensures_bind; intros ?).
  apply (ensures_bind1 (signed 64)); [apply (ensures_getInt 8); lia |].
  intros z Hz. apply ensures_bind; intros _. now apply ensures_ret.
Qed.

Lemma ensures_Byte_Array : ensures (Forall (signed 8)) TAG_Byte_Array_readPayload.
Proof.
  unfold TAG_Byte_Array_readPayload. do 5 (apply ensures_bind; intros ?).
  apply (ensures_bind1 (Forall (signed 8))).
  - unfold new_Int8Array. apply ensures_bind. intros bs. apply ensures_ret.
    apply Forall_map, Forall_forall. intros b _.
    apply (wrap_signed_range 8). lia.
  - intros l Hl. apply ensures_bind; intros _. now apply ensures_ret.
Qed.

Lemma ensures_String :
  ensures (fun raw => Z.of_nat (List.length raw) < 65536) TAG_String_readPayload.
Proof.
  unfold TAG_String_readPayload. do 2 (apply ensures_bind; intros ?).
  apply (ensures_bind1 (fun v => 0 <= v < 65536)); [apply ensures_getUint16 |].
  intros n Hn. do 2 (apply ensures_bind; intros ?).
  apply (ensures_bind1 (fun raw => Z.of_nat (List.length raw) < 65536)).
  - intros s raw s' E. unfold new_Uint8Array in E.
    destruct (_ || _); [discriminate E |].
    destruct (_ <? _); [discriminate E |].
    injection E as <- _.
    match goal with
    | |- context [slice ?b ?o n] => pose proof (length_slice b o n)
    end. lia.
  - intros raw Hraw. apply ensures_bind; intros _. now apply ensures_ret.
Qed.

Lemma ensures_arrayFromDataView (view : DataView) (dataSize length0 : Z) :
  ensures (Forall (signed dataSize)) (_arrayFromDataView view dataSize length0 0).
Proof.
  unfold _arrayFromDataView.
  destruct (negb (dataSize =? 32) && negb (dataSize =? 64)) eqn:E;
    [apply ensures_throw |].
  apply ensures_bind. intros _.
  destruct (dataSize =? 32) eqn:E32.
  - apply Z.eqb_eq in E32. subst dataSize.
    apply ensures_mapM. intros i. apply (ensures_getInt 4). lia.
  - simpl in E. apply negb_false_iff, Z.eqb_eq in E.
    subst dataSize.
    apply ensures_mapM. intros i. apply (ensures_getInt 8). lia.
Qed.

Lemma ensures_Int_Array : ensures (Forall (signed 32)) TAG_Int_Array_readPayload.
Proof.
  unfold TAG_Int_Array_readPayload. do 6 (apply ensures_bind; intros ?).
  apply (ensures_bind1 (Forall (signed 32)));
    [apply ensures_arrayFromDataView |].
  intros l Hl. apply ensures_bind; intros _. now apply ensures_ret.
Qed.

Lemma ensures_Long_Array : ensures (Forall (signed 64)) TAG_Long_Array_readPayload.
Proof.
  unfold TAG_Long_Array_readPayload. do 6 (apply ensures_bind; intros ?).
  apply (ensures_bind1 (Forall (signed 64)));
    [apply ensures_arrayFromDataView |].
  intros l Hl. apply ensures_bind; intros _. now apply ensures_ret.
Qed.

Lemma ensures_getNBTName :
  ensures (fun header => 0 <= snd header < 65536) _getNBTName.
Proof.
  unfold _getNBTName. do 2 (apply ensures_bind; intros ?).
  apply (ensures_bind1 (fun v => 0 <= v < 65536)); [apply ensures_getUint16 |].
  intros n Hn. do 4 (apply ensures_bind; intros ?). now apply ensures_ret.
Qed.

Lemma class_id_of_TAG_ID (tagId : Z) (c : tagClass) :
  TAG_ID_TO_CLASS tagId = Some c -> class_id c = tagId.
Proof.
  destruct tagId as [| p | p]; try discriminate.
  - intros H. injection H as <-. reflexivity.
  - do 4 (try destruct p as [p | p |]); try discriminate;
      intros H; injection H as <-; reflexivity.
Qed.

Lemma id_0_End (t : NBT) : id t = 0 -> t = TAG_End.
Proof.
  destruct t; simpl; intros H; try discriminate H. reflexivity.
Qed.

Section Shape.

Variable instantiate' : tagClass -> Z -> jsstring -> M NBT.
Variable parse' : M NBT.
Hypothesis ensures_instantiate' :
  forall c nl nm, 0 <= nl < 65536 -> ensures (built c nl nm) (instantiate' c nl nm).
Hypothesis ensures_parse' : ensures well_formed parse'.

Lemma ensures_List :
  ensures (fun p => Forall (fun tag => id tag = fst p /\ nameLength tag = 0 /\
                                       name tag = [] /\ well_formed tag) (snd p))
    (TAG_List_readPayload instantiate').
Proof.
  unfold TAG_List_readPayload. do 3 (apply ensures_bind; intros ?).
  rename a1 into tagType. do 5 (apply ensures_bind; intros ?).
  apply (ensures_bind1
           (Forall (fun tag => id tag = tagType /\ nameLength tag = 0 /\
                               name tag = [] /\ well_formed tag))).
  - apply ensures_mapM. intros _.
    destruct (TAG_ID_TO_CLASS tagType) as [c |] eqn:Ec; [| apply ensures_throw].
    intros s t s' E.
    destruct (ensures_instantiate' c 0 [] ltac:(lia) s t s' E) as (Hw & Hid & Hn).
    pose proof (class_id_of_TAG_ID _ _ Ec) as Hc. split; [congruence |].
    destruct Hn as [-> | [Hnl Hnm]].
    + apply id_0_End in Hid. now subst t.
    + auto.
  - intros res Hres. now apply ensures_ret.
Qed.

Lemma ensures_Compound (n : nat) (payload : list NBT) :
  ensures (fun l => exists init,
             l = payload ++ init ++ [TAG_End] /\
             Forall (fun tag => id tag <> 0) init /\
             Forall well_formed (init ++ [TAG_End]))
    (TAG_Compound_readPayload parse' n payload).
Proof.
  revert payload. induction n as [| n IH]; intros payload;
    cbn [TAG_Compound_readPayload].
  - apply ensures_out_of_fuel.
  - apply (ensures_bind1 well_formed); [exact ensures_parse' |].
    intros tag Htag. destruct (id tag =? id TAG_End) eqn:E; cbn [negb].
    + apply Z.eqb_eq, id_0_End in E. subst tag. apply ensures_ret.
      exists []. split; [reflexivity |]. split; constructor; auto.
    + apply Z.eqb_neq in E. intros s l s' El.
      destruct (IH _ _ _ _ El) as (init & -> & Hne & Hwf).
      exists (tag :: init). rewrite <- app_assoc. repeat split; auto.
      constructor; assumption.
Qed.

Lemma all_elements (tagType : Z) (l : list NBT) :
  Forall (fun tag => id tag = tagType /\ nameLength tag = 0 /\
                     name tag = [] /\ well_formed tag) l ->
  (fix all (tags : list NBT) : Prop :=
     match tags with
     | [] => True
     | tag :: rest =>
         (id tag = tagType /\ nameLength tag = 0 /\ name tag = [] /\
          well_formed tag) /\ all rest
     end) l.
Proof.
  induction 1; [exact I | split; assumption].
Qed.

Lemma all_members (l : list NBT) :
  Forall well_formed l ->
  (fix all (tags : list NBT) : Prop :=
     match tags with
     | [] => True
     | tag :: rest => well_formed tag /\ all rest
     end) l.
Proof.
  induction 1; [exact I | split; assumption].
Qed.

Lemma ensures_instantiate_class (n : nat) (c : tagClass) (nl : Z) (nm : jsstring) :
  0 <= nl < 65536 ->
  ensures (built c nl nm) (instantiate_class instantiate' parse' n c nl nm).
Proof.
  intros Hnl. unfold built.
  assert (Hbuilt : forall t, nameLength t = nl -> name t = nm ->
            (0 <= nameLength t < 65536 -> well_formed t) ->
            forall c', id t = class_id c' ->
            well_formed t /\ id t = class_id c' /\
            (c' = Class_End \/ nameLength t = nl /\ name t = nm)).
  { intros t Hn Hm Hw c' Hc. split; [apply Hw; lia | auto]. }
  destruct c; cbn [instantiate_class].
  - apply ensures_lift. intros t E. injection E as <-.
    repeat split; simpl; auto; try lia.
  - apply (ensures_bind1 _ _ _ _ ensures_Byte). intros p Hp.
    apply ensures_lift. intros t E. unfold new_TAG_Byte in E.
    destruct (_ || _); [discriminate E |]. injection E as <-.
    apply Hbuilt; try reflexivity. intros H. split; assumption.
  - apply (ensures_bind1 _ _ _ _ ensures_Short). intros p Hp.
    apply ensures_lift. intros t E. unfold new_TAG_Short in E.
    destruct (_ || _); [discriminate E |]. injection E as <-.
    apply Hbuilt; try reflexivity. intros H. split; assumption.
  - apply (ensures_bind1 _ _ _ _ ensures_Int). intros p Hp.
    apply ensures_lift. intros t E. unfold new_TAG_Int in E.
    destruct (_ || _); [discriminate E |]. injection E as <-.
    apply Hbuilt; try reflexivity. intros H. split; assumption.
  - apply (ensures_bind1 _ _ _ _ ensures_Long). intros p Hp.
    apply ensures_lift. intros t E. unfold new_TAG_Long in E.
    destruct (BigInt _); [| discriminate E].
    destruct (BigInt _); [| discriminate E].
    destruct (_ || _); [discriminate E |]. injection E as <-.
    apply Hbuilt; try reflexivity. intros H. split; assumption.
  - apply ensures_bind. intros p.
    apply ensures_lift. intros t E. unfold new_TAG_Float in E.
    destruct (Number_isInteger p) eqn:Hi; [discriminate E |]. injection E as <-.
    apply Hbuilt; try reflexivity. intros H. split; assumption.
  - apply ensures_bind. intros p.
    apply ensures_lift. intros t E. unfold new_TAG_Double in E.
    destruct (Number_isInteger p) eqn:Hi; [discriminate E |]. injection E as <-.
    apply Hbuilt; try reflexivity. intros H. split; assumption.
  - apply (ensures_bind1 _ _ _ _ ensures_Byte_Array). intros p Hp.
    apply ensures_lift. intros t E. injection E as <-.
    apply Hbuilt; try reflexivity. intros H. split; assumption.
  - apply (ensures_bind1 _ _ _ _ ensures_String). intros p Hp.
    apply ensures_lift. intros t E. injection E as <-.
    apply Hbuilt; try reflexivity. intros H. split; assumption.
  - apply (ensures_bind1 _ _ _ _ ensures_List). intros [tagType l] Hl.
    apply ensures_lift. intros t E. unfold new_TAG_List in E.
    destruct (existsb _ _); [discriminate E |].
    assert (Et : t = TAG_List nl nm tagType (5 + sum_total_lengths l) l)
      by (injection E as <-; reflexivity).
    subst t. cbn [fst snd] in Hl.
    apply Hbuilt; try reflexivity. intros H.
    split; [exact H |]. split; [reflexivity | now apply all_elements].
  - apply (ensures_bind1 _ _ _ _ (ensures_Compound n [])).
    intros l (init & -> & Hne & Hwf).
    apply ensures_lift. intros t E. unfold new_TAG_Compound in E.
    destruct (array_get _ _); [| discriminate E].
    destruct (negb _); [discriminate E |]. injection E as <-.
    apply Hbuilt; try reflexivity. intros H. cbn [app] in *.
    split; [exact H |]. split; [reflexivity |].
    split; [now exists init | now apply all_members].
  - apply (ensures_bind1 _ _ _ _ ensures_Int_Array). intros p Hp.
    apply ensures_lift. intros t E. injection E as <-.
    apply Hbuilt; try reflexivity. intros H. split; assumption.
  - apply (ensures_bind1 _ _ _ _ ensures_Long_Array). intros p Hp.
    apply ensures_lift. intros t E. injection E as <-.
    apply Hbuilt; try reflexivity. intros H. split; assumption.
Qed.

Lemma ensures_parseNBT_body : ensures well_formed (parseNBT_body instantiate').
Proof.
  unfold parseNBT_body. do 2 (apply ensures_bind; intros ?).
  destruct (_ <=? _); [apply ensures_throw |].
  do 3 (apply ensures_bind; intros ?). rename a3 into tagId.
  apply (ensures_bind1 (fun header => 0 <= snd header < 65536)).
  - destruct (negb (tagId =? 0)); [apply ensures_getNBTName |].
    apply ensures_ret. simpl. lia.
  - intros [name0 nameLength0] Hh. cbn [snd] in Hh.
    destruct (TAG_ID_TO_CLASS tagId) as [c |]; [| apply ensures_throw].
    intros s t s' E. exact (proj1 (ensures_instantiate' _ _ _ Hh s t s' E)).
Qed.

End Shape.

Lemma ensures_instantiate (fuel : nat) :
  forall c nl nm, 0 <= nl < 65536 -> ensures (built c nl nm) (instantiate fuel c nl nm).
Proof.
  induction fuel as [| f IH]; intros c nl nm Hnl.
  - apply ensures_out_of_fuel.
  - cbn [instantiate]. apply ensures_instantiate_class; [exact IH | | exact Hnl].
    apply ensures_parseNBT_body. exact IH.
Qed.

(** X4. Every tag [parseNBT] returns is well formed: the name length is a
    16-bit count; Byte, Short, Int and Long payloads lie in the signed
    range of their width and array elements in that of theirs; Float and
    Double payloads are no integers; every element of a list has the
    declared type id and neither name nor name length; the members of a
    compound are tags other than End followed by one End; and lists and
    compounds carry the length their constructor caches. *)
Theorem parseNBT_well_formed (fuel : nat) (s s' : stream) (tag : NBT) :
  parseNBT fuel s = (Ok tag, s') -> well_formed tag.
Proof.
  apply (ensures_parseNBT_body (instantiate fuel)). apply ensures_instantiate.
Qed.

Lemma parseNBT_well_formed_witness :
  well_formed
    (TAG_Compound 0 [] 7 [TAG_Byte 1 (of_string "v") (number_of_Z 5); TAG_End]).
Proof.
  apply (parseNBT_well_formed 3
           (stream_of (bytes_of [10; 0; 0; 1; 0; 1; 118; 5; 0]))
           (on (bytes_of [10; 0; 0; 1; 0; 1; 118; 5; 0]) 9)).
  reflexivity.
Defined.

(** ** Bytes and buffers *)

Lemma u8_byte_of_Z (z : Z) : u8 (byte_of_Z z) = z mod 256.
Proof.
  unfold u8, byte_of_Z.
  pose proof (Z.mod_pos_bound z 256 ltac:(lia)) as Hr.
  destruct (Byte.of_N (Z.to_N (z mod 256))) as [b |] eqn:E.
  - apply Byte.to_of_N in E. rewrite E. lia.
  - apply Byte.of_N_None_iff in E. lia.
Qed.

Lemma byte_of_Z_u8 (b : byte) : byte_of_Z (u8 b) = b.
Proof.
  unfold byte_of_Z, u8. pose proof (Byte.to_N_bounded b).
  rewrite Z.mod_small by lia.
  now rewrite N2Z.id, Byte.of_to_N.
Qed.

Lemma length_be_bytes (n : nat) (v : Z) : List.length (be_bytes n v) = n.
Proof.
  revert v. induction n as [| n IH]; intros v; simpl; [reflexivity |].
  rewrite length_app, IH. simpl. lia.
Qed.

Lemma be_value_snoc (bs : list byte) (b : byte) :
  be_value (bs ++ [b]) = be_value bs * 256 + u8 b.
Proof.
  unfold be_value. now rewrite fold_left_app.
Qed.

Lemma be_value_be_bytes (n : nat) (v : Z) :
  be_value (be_bytes n v) = v mod 256 ^ Z.of_nat n.
Proof.
  revert v. induction n as [| n IH]; intros v.
  - simpl. now rewrite Z.mod_1_r.
  - cbn [be_bytes]. rewrite be_value_snoc, IH, u8_byte_of_Z.
    rewrite Nat2Z.inj_succ, Z.pow_succ_r by lia.
    rewrite (Z.rem_mul_r v 256 (256 ^ Z.of_nat n)) by lia. lia.
Qed.

Lemma wrap_signed_mod (w v : Z) :
  0 < w -> signed w v -> wrap_signed w (v mod 2 ^ w) = v.
Proof.
  intros Hw [Hlo Hhi]. unfold wrap_signed.
  rewrite Z.mod_mod by lia.
  assert (H2 : 2 ^ w = 2 * 2 ^ (w - 1)).
  { rewrite <- Z.pow_succ_r by lia. f_equal. lia. }
  destruct (Z.neg_nonneg_cases v) as [Hneg | Hpos].
  - replace (v mod 2 ^ w) with (v + 2 ^ w).
    + destruct (_ <? _) eqn:E; to_Prop; lia.
    + apply Z.mod_unique with (-1); lia.
  - rewrite Z.mod_small by lia.
    destruct (_ <? _) eqn:E; to_Prop; lia.
Qed.

Lemma nth_error_overwrite (buf : list byte) (o : nat) (bs : list byte) (k : nat) :
  (o + List.length bs <= List.length buf)%nat ->
  nth_error (overwrite buf (Z.of_nat o) bs) k =
  if (k <? o)%nat then nth_error buf k
  else if (k <? o + List.length bs)%nat then nth_error bs (k - o)
  else nth_error buf k.
Proof.
  intros Hfit. unfold overwrite. rewrite Nat2Z.id.
  rewrite nth_error_app, length_firstn, Nat.min_l by lia.
  destruct (k <? o)%nat eqn:E1.
  - rewrite nth_error_firstn, E1. reflexivity.
  - apply Nat.ltb_ge in E1. rewrite nth_error_app.
    destruct (k - o <? List.length bs)%nat eqn:E2.
    + apply Nat.ltb_lt in E2.
      replace (k <? o + List.length bs)%nat with true
        by (symmetry; apply Nat.ltb_lt; lia).
      reflexivity.
    + apply Nat.ltb_ge in E2.
      replace (k <? o + List.length bs)%nat with false
        by (symmetry; apply Nat.ltb_ge; lia).
      rewrite nth_error_skipn. f_equal. lia.
Qed.

Lemma length_overwrite (buf : list byte) (o : nat) (bs : list byte) :
  (o + List.length bs <= List.length buf)%nat ->
  List.length (overwrite buf (Z.of_nat o) bs) = List.length buf.
Proof.
  intros Hfit. unfold overwrite.
  rewrite Nat2Z.id, !length_app, length_firstn, length_skipn. lia.
Qed.

Lemma overwrite_app (buf : list byte) (o : nat) (b1 b2 : list byte) :
  (o + List.length b1 + List.length b2 <= List.length buf)%nat ->
  overwrite (overwrite buf (Z.of_nat o) b1)
    (Z.of_nat (o + List.length b1)) b2
  = overwrite buf (Z.of_nat o) (b1 ++ b2).
Proof.
  intros Hfit. apply nth_error_ext. intros k.
  rewrite !nth_error_overwrite
    by (rewrite ?length_overwrite, ?length_app; lia).
  rewrite length_app, nth_error_app.
  repeat match goal with
    | |- context [(?a <? ?b)%nat] =>
        destruct (Nat.ltb_spec a b)
    end; try lia; try reflexivity.
  f_equal. lia.
Qed.

Lemma overwrite_inside (buf : list byte) (o i : nat) (h bs : list byte) :
  (o + List.length h <= List.length buf)%nat ->
  (i + List.length bs <= List.length h)%nat ->
  overwrite (overwrite buf (Z.of_nat o) h) (Z.of_nat (o + i)) bs
  = overwrite buf (Z.of_nat o) (overwrite h (Z.of_nat i) bs).
Proof.
  intros Hfit Hin. apply nth_error_ext. intros k.
  rewrite !nth_error_overwrite
    by (rewrite ?length_overwrite; lia).
  rewrite length_overwrite by lia.
  repeat match goal with
    | |- context [(?a <? ?b)%nat] =>
        destruct (Nat.ltb_spec a b)
    end; try lia; try reflexivity.
  f_equal. lia.
Qed.

Lemma overwrite_nil (buf : list byte) (o : Z) : overwrite buf o [] = buf.
Proof.
  unfold overwrite. simpl. rewrite Nat.add_0_r. apply firstn_skipn.
Qed.

Lemma overwrite_middle (pre old post bs : list byte) :
  List.length old = List.length bs ->
  overwrite (pre ++ old ++ post) (Z.of_nat (List.length pre)) bs
  = pre ++ bs ++ post.
Proof.
  intros Hlen. unfold overwrite. rewrite Nat2Z.id.
  rewrite firstn_app, firstn_all, Nat.sub_diag. simpl. rewrite app_nil_r.
  f_equal. f_equal.
  rewrite skipn_app, skipn_all2 by lia. simpl.
  replace (List.length pre + List.length bs - List.length pre)%nat
    with (List.length old) by lia.
  rewrite skipn_app, skipn_all, Nat.sub_diag. reflexivity.
Qed.

(** ** What the writer stores *)

Lemma stores_put_bytes data (iz : Z) (i : nat) (bs : list byte) :
  iz = Z.of_nat i -> stores data (put_bytes data iz bs) i bs.
Proof.
  intros -> s o Ho Hfit Hin. unfold put_bytes.
  destruct (Z.of_nat i <? 0) eqn:E1; to_Prop; [lia |].
  destruct (_ <? _) eqn:E2; to_Prop; [lia |].
  rewrite Ho, <- Nat2Z.inj_add. reflexivity.
Qed.

Lemma stores_setInt (n : nat) data (iz : Z) (i : nat) (v : Z) :
  iz = Z.of_nat i -> stores data (setInt n data iz v false) i (be_bytes n v).
Proof.
  intros H. unfold setInt, endian. now apply stores_put_bytes.
Qed.

Lemma stores_at data (m : M unit) (i j : nat) (bs : list byte) :
  i = j -> stores data m i bs -> stores data m j bs.
Proof.
  now intros ->.
Qed.

Lemma stores_ret data (i : nat) : stores data (ret tt) i [].
Proof.
  intros s o _ _ _. unfold ret. rewrite overwrite_nil. now destruct s.
Qed.

Lemma stores_seq data (m1 m2 : M unit) (i : nat) (b1 b2 : list byte) :
  stores data m1 i b1 -> stores data m2 (i + List.length b1) b2 ->
  stores data (m1 ;; m2) i (b1 ++ b2).
Proof.
  intros H1 H2 s o Ho Hfit Hin. rewrite length_app in Hin.
  unfold bind. rewrite (H1 s o) by (auto; lia).
  unfold byteLength in Hfit.
  rewrite (H2 _ o);
    cbn [on buffer byteOffset]; unfold byteLength; cbn [on buffer];
    rewrite ?length_overwrite by lia; try (auto; lia).
  rewrite Nat.add_assoc, overwrite_app by lia. reflexivity.
Qed.

Lemma stores_each {A} data (f : Z -> A -> M unit) (g : A -> list byte)
    (w base : nat) (a : list A) :
  (forall x, List.length (g x) = w) ->
  (forall j x, stores data (f (Z.of_nat j) x) (base + j * w) (g x)) ->
  forall k,
    stores data
      (forM_ (combine (map Z.of_nat (seq k (List.length a))) a)
         (fun p => f (fst p) (snd p)))
      (base + k * w) (flat_map g a).
Proof.
  intros Hw Hf. induction a as [| x a IH]; intros k.
  - apply stores_ret.
  - cbn [List.length seq map combine forM_ flat_map fst snd].
    apply stores_seq; [apply Hf |].
    apply stores_at with (base + S k * w)%nat; [rewrite Hw; lia | apply IH].
Qed.

Lemma stores_for_indexed {A} data (f : Z -> A -> M unit) (g : A -> list byte)
    (w base : nat) (a : list A) :
  (forall x, List.length (g x) = w) ->
  (forall j x, stores data (f (Z.of_nat j) x) (base + j * w) (g x)) ->
  stores data (for_indexed a f) base (flat_map g a).
Proof.
  intros Hw Hf. unfold for_indexed, indices. rewrite Nat2Z.id.
  apply stores_at with (base + 0 * w)%nat; [lia |].
  now apply stores_each.
Qed.

Lemma flat_map_bytes (bs : list byte) :
  flat_map (fun b => be_bytes 1 (u8 b)) bs = bs.
Proof.
  induction bs as [| b bs IH]; [reflexivity |].
  change (byte_of_Z (u8 b) :: flat_map (fun b => be_bytes 1 (u8 b)) bs = b :: bs).
  now rewrite byte_of_Z_u8, IH.
Qed.

Lemma length_flat_map_fixed {A} (g : A -> list byte) (w : nat) (a : list A) :
  (forall x, List.length (g x) = w) ->
  List.length (flat_map g a) = (List.length a * w)%nat.
Proof.
  intros Hw. induction a as [| x a IH]; [reflexivity |].
  cbn [flat_map List.length]. rewrite length_app, Hw, IH. lia.
Qed.

Lemma byteLength_on (buf : list byte) (off : Z) :
  byteLength (on buf off) = Z.of_nat (List.length buf).
Proof.
  reflexivity.
Qed.

Lemma new_DataView_fits (off len : Z) (s : stream) :
  0 <= off -> 0 <= len -> off + len <= byteLength s ->
  new_DataView off len s
  = (Ok {| dv_byteOffset := off; dv_byteLength := len |}, s).
Proof.
  intros Hoff Hlen Hfit. unfold new_DataView.
  destruct (_ || _) eqn:E1; to_Prop; try lia.
  destruct (_ <? _) eqn:E2; to_Prop; try lia. reflexivity.
Qed.

Lemma bind_stores {B} data (m : M unit) (i : nat) (bs : list byte)
    (k : unit -> M B) (s : stream) (o : nat) :
  stores data m i bs ->
  dv_byteOffset data = Z.of_nat o ->
  Z.of_nat o + dv_byteLength data <= byteLength s ->
  Z.of_nat (i + List.length bs) <= dv_byteLength data ->
  bind m k s
  = k tt (on (overwrite (buffer s) (Z.of_nat (o + i)) bs) (byteOffset s)).
Proof.
  intros H Ho Hfit Hin. unfold bind. now rewrite (H s o).
Qed.

Lemma writes_view (len : Z) (body : DataView -> M unit) (bs : list byte) :
  Z.of_nat (List.length bs) = len ->
  (forall data, stores data (body data) 0 bs) ->
  writes (off <- get_byteOffset ;;
          data <- new_DataView off len ;;
          body data ;;
          advance len) bs.
Proof.
  intros Hlen Hbody pre old post Hold.
  unfold bind at 1, get_byteOffset. cbn [on byteOffset].
  unfold bind at 1.
  rewrite new_DataView_fits
    by (rewrite ?byteLength_on, ?length_app; lia).
  rewrite (bind_stores _ _ 0 bs _ _ (List.length pre)) by
    (try apply Hbody; cbn [dv_byteOffset dv_byteLength];
     rewrite ?byteLength_on, ?length_app; lia).
  cbn [on buffer byteOffset]. rewrite Nat.add_0_r, overwrite_middle by exact Hold.
  unfold advance, on. cbn [buffer byteOffset]. now rewrite Hlen.
Qed.

Lemma writes_ret : writes (ret tt) [].
Proof.
  intros pre old post Hold. destruct old; [| discriminate].
  unfold ret, on. cbn [List.length]. f_equal. f_equal. lia.
Qed.

Lemma writes_seq (m1 m2 : M unit) (b1 b2 : list byte) :
  writes m1 b1 -> writes m2 b2 -> writes (m1 ;; m2) (b1 ++ b2).
Proof.
  intros H1 H2 pre old post Hold. rewrite length_app in Hold.
  rewrite <- (firstn_skipn (List.length b1) old), <- app_assoc.
  unfold bind. rewrite H1 by (rewrite length_firstn; lia).
  replace (on (pre ++ b1 ++ skipn (List.length b1) old ++ post)
             (Z.of_nat (List.length pre) + Z.of_nat (List.length b1)))
    with (on ((pre ++ b1) ++ skipn (List.length b1) old ++ post)
            (Z.of_nat (List.length (pre ++ b1))))
    by (rewrite length_app, Nat2Z.inj_add, <- app_assoc; reflexivity).
  rewrite H2 by (rewrite length_skipn; lia).
  rewrite !length_app, !Nat2Z.inj_add, <- !app_assoc, Z.add_assoc.
  reflexivity.
Qed.

Ltac tag_cases t :=
  destruct t as [| nl nm p | nl nm p | nl nm p | nl nm p | nl nm p | nl nm p
                 | nl nm p | nl nm p | nl nm ty len p | nl nm len p
                 | nl nm p | nl nm p].

Lemma length_header_bytes (t : NBT) :
  short_name t = true ->
  List.length (header_bytes t) = Z.to_nat (getHeaderLength t).
Proof.
  intros Hshort.
  tag_cases t; [reflexivity | ..];
    cbn [short_name name] in Hshort; apply Nat.leb_le in Hshort;
    unfold header_bytes; cbn [name nameLength];
    change 3 with (Z.of_nat 3);
    rewrite length_overwrite;
    cbn [List.length]; rewrite ?length_be_bytes; try lia; reflexivity.
Qed.

Lemma writes_header (i nl : Z) (nm : list byte) :
  (List.length nm <= 2)%nat ->
  writes (off <- get_byteOffset ;;
          data <- new_DataView off (1 + 2 + headerLength) ;;
          setUint8 data 0 i ;;
          setUint32 data 1 nl LITTLE_ENDIAN ;;
          for_indexed nm (fun idx b => setUint8 data (3 + idx) (u8 b)) ;;
          advance (dv_byteLength data))
    (overwrite (byte_of_Z i :: be_bytes 4 nl) 3 nm).
Proof.
  intros Hnm pre old post Hold.
  change 3 with (Z.of_nat 3) in *.
  rewrite length_overwrite in *
    by (cbn [List.length]; rewrite length_be_bytes; lia).
  cbn [List.length] in *. rewrite length_be_bytes in *.
  change (1 + 2 + headerLength) with 5.
  unfold bind at 1, get_byteOffset. cbn [on byteOffset].
  unfold bind at 1.
  rewrite new_DataView_fits
    by (rewrite ?byteLength_on, ?length_app; lia).
  set (data := {| dv_byteOffset := _; dv_byteLength := 5 |}).
  rewrite (bind_stores data _ 0 (be_bytes 1 i) _ _ (List.length pre))
    by (try (apply stores_setInt; reflexivity); cbn;
        rewrite ?byteLength_on, ?length_app; lia).
  cbn [on buffer byteOffset].
  rewrite (bind_stores data _ 1 (be_bytes 4 nl) _ _ (List.length pre))
    by (try (apply stores_setInt; reflexivity);
        cbn [data dv_byteOffset dv_byteLength];
        rewrite ?byteLength_on, ?length_overwrite, ?length_app,
          ?length_be_bytes; cbn [List.length be_bytes app];
        rewrite ?length_app; lia).
  cbn [on buffer byteOffset].
  rewrite (bind_stores data _ 3 nm _ _ (List.length pre)).
  - cbn [on buffer byteOffset].
    replace (List.length pre + 1)%nat
      with (List.length pre + 0 + List.length (be_bytes 1 i))%nat
      by (cbn [be_bytes List.length app]; lia).
    rewrite overwrite_app
      by (rewrite length_be_bytes, !length_app; cbn [List.length be_bytes app]; lia).
    rewrite Nat.add_0_r, overwrite_inside
      by (rewrite ?length_app, ?length_be_bytes; cbn [List.length be_bytes app];
          rewrite ?length_be_bytes; lia).
    rewrite overwrite_middle.
    + unfold advance, on. cbn [buffer byteOffset data dv_byteLength].
      repeat f_equal.
    + rewrite length_overwrite;
        rewrite length_app, length_be_bytes; cbn [List.length be_bytes app]; lia.
  - rewrite <- (flat_map_bytes nm) at 2.
    apply stores_for_indexed with (w := 1%nat); [reflexivity |].
    intros j x. apply stores_setInt. lia.
  - reflexivity.
  - rewrite byteLength_on, !length_overwrite;
      rewrite ?length_overwrite, ?length_app, ?length_be_bytes;
      cbn [List.length be_bytes app data dv_byteLength]; rewrite ?length_app; lia.
  - cbn [data dv_byteLength]. lia.
Qed.

Lemma writes_ext (m1 m2 : M unit) (bs : list byte) :
  (forall s, m2 s = m1 s) -> writes m1 bs -> writes m2 bs.
Proof.
  intros Hext H pre old post Hold. rewrite Hext. now apply H.
Qed.

Lemma writes_writeHeader (t : NBT) :
  short_name t = true -> writes (writeHeader t) (header_bytes t).
Proof.
  intros Hshort.
  tag_cases t;
    try (apply writes_header; apply Nat.leb_le; exact Hshort).
  intros pre old post Hold.
  destruct old as [| x [| y old]]; try discriminate Hold.
  unfold writeHeader, bind at 1, post_increment. cbn [on buffer byteOffset].
  unfold bind at 1.
  rewrite new_DataView_fits
    by (rewrite ?byteLength_on, ?length_app; cbn [List.length]; lia).
  unfold setUint8. cbn [id].
  rewrite (stores_setInt 1 _ 0 0 _ eq_refl _ (List.length pre)).
  2-4: cbn [dv_byteOffset dv_byteLength on buffer byteOffset List.length].
  2-4: rewrite ?byteLength_on, ?length_app; cbn [List.length].
  2-4: try lia.
  2: reflexivity.
  cbn [on buffer byteOffset]. rewrite Nat.add_0_r, overwrite_middle by reflexivity.
  reflexivity.
Qed.

Lemma writes_writePayload :
  forall t, short_names t = true -> writes (writePayload t) (payload_bytes t).
Proof.
  assert (Hint : forall n data iz i v, iz = Z.of_nat i ->
            stores data (setInt n data iz v LITTLE_ENDIAN) i (be_bytes n v))
    by (intros; now apply stores_setInt).
  assert (Harray : forall (w : nat) (payload : list Z) (f : DataView -> Z -> Z -> M unit),
            (forall data j x,
               stores data (f data (Z.of_nat j) x) (4 + j * w) (be_bytes w x)) ->
            writes
              (off <- get_byteOffset ;;
               data <- new_DataView off (4 + Z.of_nat (List.length payload) * Z.of_nat w) ;;
               (setInt32 data 0 (Z.of_nat (List.length payload)) LITTLE_ENDIAN ;;
                for_indexed payload (f data)) ;;
               advance (4 + Z.of_nat (List.length payload) * Z.of_nat w))
              (be_bytes 4 (Z.of_nat (List.length payload))
                 ++ flat_map (be_bytes w) payload)).
  { intros w payload f Hf. apply writes_view.
    - rewrite length_app, length_be_bytes,
        (length_flat_map_fixed _ w) by (intros; apply length_be_bytes).
      lia.
    - intros data. apply stores_seq; [now apply Hint |].
      rewrite length_be_bytes.
      apply stores_for_indexed with (w := w);
        [intros; apply length_be_bytes | apply Hf]. }
  fix IH 1. intros t Hshort.
  tag_cases t.
  - apply writes_ret.
  - apply writes_view; [reflexivity | intros; now apply Hint].
  - apply writes_view; [reflexivity | intros; now apply Hint].
  - apply writes_view; [reflexivity | intros; now apply Hint].
  - apply writes_view; [reflexivity | intros; now apply Hint].
  - apply writes_view; [reflexivity | intros; now apply Hint].
  - apply writes_view; [reflexivity | intros; now apply Hint].
  - generalize (Harray 1%nat p (fun data i v => setInt8 data (4 + i) v)).
    rewrite Z.mul_1_r. intros H. apply H.
    intros data j x. apply Hint. lia.
  - apply writes_view.
    + unfold payload_bytes; cbn [payload_with getPayloadLength].
      rewrite length_app, length_be_bytes. lia.
    + intros data. apply stores_seq; [now apply Hint |].
      rewrite length_be_bytes. rewrite <- (flat_map_bytes p) at 2.
      apply stores_for_indexed with (w := 1%nat); [reflexivity |].
      intros j x. apply Hint. lia.
  - cbn [short_names] in Hshort. unfold payload_bytes; cbn [writePayload payload_with].
    apply writes_ext with
      (m1 := (off <- get_byteOffset ;;
              data <- new_DataView off 5 ;;
              (setUint8 data 0 ty ;;
               setInt32 data 1 (Z.of_nat (List.length p)) LITTLE_ENDIAN) ;;
              advance 5) ;;
             (fix each (tags : list NBT) : M unit :=
                match tags with
                | [] => ret tt
                | tag :: rest => writePayload tag ;; each rest
                end) p).
    { intros s. unfold bind.
      repeat match goal with
        | |- context [match ?m s with _ => _ end] =>
            destruct (m s) as [[? | ? |] ?]
        | |- context [match ?m ?s' with _ => _ end] =>
            destruct (m s') as [[? | ? |] ?]
        end; reflexivity. }
    apply writes_seq.
    + apply (writes_view 5 _ (byte_of_Z ty :: be_bytes 4 (Z.of_nat (List.length p)))).
      * cbn [List.length]. rewrite length_be_bytes. reflexivity.
      * intros data.
        apply (stores_seq data _ _ 0 (be_bytes 1 ty)); now apply Hint.
    + revert p Hshort. fix IHl 1. intros [| tag rest] Hshort.
      * apply writes_ret.
      * cbn [forallb] in Hshort. apply andb_true_iff in Hshort.
        destruct Hshort as [Htag Hrest].
        cbn [flat_map]. apply writes_seq; [apply (IH tag), Htag | apply IHl, Hrest].
  - cbn [short_names] in Hshort. unfold payload_bytes; cbn [writePayload payload_with].
    revert p Hshort. fix IHl 1. intros [| tag rest] Hshort.
    + apply writes_ret.
    + cbn [forallb] in Hshort. apply andb_true_iff in Hshort.
      destruct Hshort as [Htag Hrest]. apply andb_true_iff in Htag.
      destruct Htag as [Hname Htag].
      cbn [flat_map]. apply writes_seq; [| apply IHl, Hrest].
      apply writes_seq; [apply writes_writeHeader, Hname | apply (IH tag), Htag].
  - generalize (Harray 4%nat p (fun data i v => setInt32 data (4 + i * 4) v LITTLE_ENDIAN)).
    intros H. apply H.
    intros data j x. apply Hint. lia.
  - generalize (Harray 8%nat p (fun data i v => setBigInt64 data (4 + i * 8) v LITTLE_ENDIAN)).
    intros H. apply H.
    intros data j x. apply Hint. lia.
Qed.

(** ** Integers as numbers *)

Lemma iter_xO_value (m k : positive) :
  Zpos (Pos.iter xO m k) = Zpos m * 2 ^ Zpos k.
Proof.
  induction k as [| k IH] using Pos.peano_ind.
  - simpl. lia.
  - rewrite Pos.iter_succ, Pos2Z.inj_xO, IH, Pos2Z.inj_succ, Z.pow_succ_r by lia.
    lia.
Qed.

Lemma iter_xO_digits (m k : positive) :
  digits2_pos (Pos.iter xO m k) = (digits2_pos m + k)%positive.
Proof.
  induction k as [| k IH] using Pos.peano_ind.
  - simpl. now rewrite Pos.add_1_r.
  - rewrite Pos.iter_succ. cbn [digits2_pos]. rewrite IH.
    now rewrite Pos.add_succ_r.
Qed.

Lemma digits2_pos_bound (m : positive) :
  2 ^ (Zpos (digits2_pos m) - 1) <= Zpos m.
Proof.
  induction m as [m IH | m IH |]; cbn [digits2_pos].
  - rewrite Pos2Z.inj_succ.
    replace (Z.succ (Zpos (digits2_pos m)) - 1)
      with (Z.succ (Zpos (digits2_pos m) - 1)) by lia.
    rewrite Z.pow_succ_r by lia. lia.
  - rewrite Pos2Z.inj_succ.
    replace (Z.succ (Zpos (digits2_pos m)) - 1)
      with (Z.succ (Zpos (digits2_pos m) - 1)) by lia.
    rewrite Z.pow_succ_r by lia. lia.
  - simpl. lia.
Qed.

Lemma binary_round_aux_exact (s : bool) (mz : positive) (ez : Z) :
  digits2_pos mz = 53%positive -> -1074 <= ez <= 971 ->
  binary_round_aux 53 1024 s (Zpos mz) ez loc_Exact = S754_finite s mz ez.
Proof.
  intros Hd He. unfold binary_round_aux, shr_fexp, Zdigits2, fexp, emin.
  rewrite Hd.
  replace (Z.max (53 + ez - 53) (3 - 1024 - 53) - ez) with 0 by lia.
  cbn [shr shr_record_of_loc shr_m loc_of_shr_record round_nearest_even].
  rewrite Hd.
  replace (Z.max (53 + ez - 53) (3 - 1024 - 53) - ez) with 0 by lia.
  cbn [shr shr_m].
  destruct (ez <=? 1024 - 53) eqn:E; to_Prop; [reflexivity | lia].
Qed.

Lemma number_of_Zpos (s : bool) (m : positive) :
  Zpos m < 2 ^ 53 ->
  exists (m' : positive) (e : Z),
    binary_round 53 1024 s m 0 = S754_finite s m' e /\
    - 52 <= e <= 0 /\ Zpos m' = Zpos m * 2 ^ (- e).
Proof.
  intros Hm. unfold binary_round, shl_align, fexp, emin.
  pose proof (digits2_pos_bound m) as Hd.
  assert (Hd53 : Zpos (digits2_pos m) <= 53).
  { destruct (Z.le_gt_cases (Zpos (digits2_pos m)) 53) as [H | H]; [exact H |].
    assert (2 ^ 53 <= 2 ^ (Zpos (digits2_pos m) - 1))
      by (apply Z.pow_le_mono_r; lia).
    lia. }
  replace (Z.max (Zpos (digits2_pos m) + 0 - 53) (3 - 1024 - 53))
    with (Zpos (digits2_pos m) - 53) by lia.
  destruct (Zpos (digits2_pos m) - 53 - 0) as [| k | k] eqn:Ek; try lia.
  - exists m, 0. split; [| split; [lia | simpl; lia]].
    apply binary_round_aux_exact; [lia | lia].
  - exists (Pos.iter xO m k), (Zpos (digits2_pos m) - 53). split; [| split].
    + apply binary_round_aux_exact; [| lia].
      rewrite iter_xO_digits. lia.
    + lia.
    + rewrite iter_xO_value.
      replace (- (Zpos (digits2_pos m) - 53)) with (Zpos k) by lia.
      reflexivity.
Qed.

Lemma number_of_Z_exact (z : Z) :
  - 2 ^ 53 < z < 2 ^ 53 ->
  Number_isInteger (number_of_Z z) = true /\ truncate (number_of_Z z) = z.
Proof.
  intros Hz. unfold number_of_Z, binary_normalize.
  destruct z as [| m | m]; [split; reflexivity | ..].
  - destruct (number_of_Zpos false m) as (m' & e & -> & He & Hm); [lia |].
    unfold Number_isInteger, truncate, cond_Zopp.
    destruct (0 <=? e) eqn:E; to_Prop.
    + replace e with 0 in * by lia. split; [reflexivity | simpl in *; lia].
    + rewrite Hm, Z.mod_mul, Z.div_mul by lia. split; reflexivity.
  - destruct (number_of_Zpos true m) as (m' & e & -> & He & Hm); [lia |].
    unfold Number_isInteger, truncate, cond_Zopp.
    destruct (0 <=? e) eqn:E; to_Prop.
    + replace e with 0 in * by lia. split; [reflexivity | simpl in *; lia].
    + rewrite Hm, Z.mod_mul, Z.div_mul by lia. split; reflexivity.
Qed.

(** ** Floats as bits *)

Lemma iter_pos_iter {A} (f : A -> A) (n : positive) (x : A) :
  iter_pos f n x = Pos.iter f x n.
Proof.
  revert x. induction n as [n IH | n IH |]; intros x; cbn [iter_pos Pos.iter].
  - rewrite !IH, !Pos.iter_swap. reflexivity.
  - rewrite !IH. reflexivity.
  - reflexivity.
Qed.

Lemma shr_exact (m k : positive) :
  iter_pos shr_1 k
    {| shr_m := Zpos (Pos.iter xO m k); shr_r := false; shr_s := false |}
  = {| shr_m := Zpos m; shr_r := false; shr_s := false |}.
Proof.
  rewrite iter_pos_iter. induction k as [| k IH] using Pos.peano_ind.
  - reflexivity.
  - rewrite Pos.iter_succ_r, Pos.iter_succ. exact IH.
Qed.

Lemma digits2_pos_upper (m : positive) : Zpos m < 2 ^ Zpos (digits2_pos m).
Proof.
  induction m as [m IH | m IH |]; cbn [digits2_pos];
    rewrite ?Pos2Z.inj_succ, ?Z.pow_succ_r by lia; lia.
Qed.

Lemma digits2_pos_unique (m : positive) (n : Z) :
  2 ^ (n - 1) <= Zpos m < 2 ^ n -> Zpos (digits2_pos m) = n.
Proof.
  intros [Hlo Hhi].
  pose proof (digits2_pos_bound m) as Hd1.
  pose proof (digits2_pos_upper m) as Hd2.
  assert (Hn : 0 < n).
  { destruct (Z.lt_ge_cases 0 n) as [H | H]; [exact H |].
    destruct n as [| n | n]; simpl in Hhi; lia. }
  destruct (Z.lt_trichotomy (Zpos (digits2_pos m)) n) as [H | [H | H]].
  - assert (2 ^ Zpos (digits2_pos m) <= 2 ^ (n - 1))
      by (apply Z.pow_le_mono_r; lia).
    lia.
  - exact H.
  - assert (2 ^ n <= 2 ^ (Zpos (digits2_pos m) - 1))
      by (apply Z.pow_le_mono_r; lia).
    lia.
Qed.

(** Rounding a mantissa that is already where the format wants it, one
    that has to be shifted left, and the shifted one back. *)
Lemma binary_round_canonical (prec emax : Z) (s : bool) (m : positive) (e : Z) :
  fexp prec emax (Zpos (digits2_pos m) + e) = e -> e <= emax - prec ->
  binary_round prec emax s m e = S754_finite s m e.
Proof.
  intros Hc He.
  unfold binary_round, shl_align. rewrite Hc, Z.sub_diag.
  unfold binary_round_aux, shr_fexp, Zdigits2. rewrite Hc, Z.sub_diag.
  cbn [shr shr_record_of_loc shr_m loc_of_shr_record round_nearest_even].
  rewrite Hc, Z.sub_diag. cbn [shr shr_m].
  destruct (e <=? emax - prec) eqn:E; to_Prop; [reflexivity | lia].
Qed.

Lemma binary_round_shl (prec emax : Z) (s : bool) (m k : positive) (e : Z) :
  fexp prec emax (Zpos (digits2_pos m) + e) = e - Zpos k ->
  e - Zpos k <= emax - prec ->
  binary_round prec emax s m e
  = S754_finite s (Pos.iter xO m k) (e - Zpos k).
Proof.
  intros Hc He.
  assert (Hc' : fexp prec emax
                  (Zpos (digits2_pos (Pos.iter xO m k)) + (e - Zpos k))
                = e - Zpos k).
  { rewrite iter_xO_digits.
    replace (Zpos (digits2_pos m + k) + (e - Zpos k))
      with (Zpos (digits2_pos m) + e) by lia.
    exact Hc. }
  unfold binary_round, shl_align. rewrite Hc.
  replace (e - Zpos k - e) with (Zneg k) by lia.
  unfold binary_round_aux, shr_fexp, Zdigits2. rewrite Hc', Z.sub_diag.
  cbn [shr shr_record_of_loc shr_m loc_of_shr_record round_nearest_even].
  rewrite Hc', Z.sub_diag. cbn [shr shr_m].
  destruct (_ <=? _) eqn:E; to_Prop; [reflexivity | lia].
Qed.

Lemma binary_round_shr (prec emax : Z) (s : bool) (m k : positive) (e : Z) :
  fexp prec emax (Zpos (digits2_pos m) + e) = e -> e <= emax - prec ->
  binary_round prec emax s (Pos.iter xO m k) (e - Zpos k)
  = S754_finite s m e.
Proof.
  intros Hc He.
  assert (Hc' : fexp prec emax
                  (Zpos (digits2_pos (Pos.iter xO m k)) + (e - Zpos k))
                = e).
  { rewrite iter_xO_digits.
    replace (Zpos (digits2_pos m + k) + (e - Zpos k))
      with (Zpos (digits2_pos m) + e) by lia.
    exact Hc. }
  unfold binary_round, shl_align. rewrite Hc'.
  replace (e - (e - Zpos k)) with (Zpos k) by lia.
  unfold binary_round_aux, shr_fexp, Zdigits2. rewrite Hc'.
  replace (e - (e - Zpos k)) with (Zpos k) by lia.
  cbn [shr shr_record_of_loc]. rewrite shr_exact.
  cbn [shr_m loc_of_shr_record round_nearest_even].
  replace (e - Zpos k + Zpos k) with e by lia.
  rewrite Hc, Z.sub_diag. cbn [shr shr_m].
  destruct (e <=? emax - prec) eqn:E; to_Prop; [reflexivity | lia].
Qed.

(** A mantissa and exponent of a narrower format, made a [number] and
    rounded back to that format. *)
Lemma normalize_then_round (prec emax : Z) (s : bool) (m : positive) (e : Z) :
  prec <= 53 -> -1074 <= 3 - emax - prec -> emax - prec <= 971 ->
  fexp prec emax (Zpos (digits2_pos m) + e) = e -> e <= emax - prec ->
  exists (m2 : positive) (e2 : Z),
    binary_round 53 1024 s m e = S754_finite s m2 e2 /\
    binary_round prec emax s m2 e2 = S754_finite s m e.
Proof.
  intros Hprec Hemin Hemax Hc He.
  assert (H53 : fexp 53 1024 (Zpos (digits2_pos m) + e) <= e)
    by (unfold fexp, emin in *; lia).
  destruct (Z.eq_dec (fexp 53 1024 (Zpos (digits2_pos m) + e)) e) as [Heq | Hne].
  - exists m, e. split.
    + apply binary_round_canonical; [exact Heq | lia].
    + now apply binary_round_canonical.
  - destruct (e - fexp 53 1024 (Zpos (digits2_pos m) + e)) as [| k | k] eqn:Ek;
      try lia.
    exists (Pos.iter xO m k), (e - Zpos k). split.
    + apply binary_round_shl; [lia | lia].
    + now apply binary_round_shr.
Qed.

Lemma binary_normalize_cond_Zopp (prec emax : Z) (s : bool) (m : positive) (e : Z) :
  binary_normalize prec emax (cond_Zopp s (Zpos m)) e s
  = binary_round prec emax s m e.
Proof.
  now destruct s.
Qed.

Section Interchange.

(** An interchange format of [mw] mantissa bits and [ew] exponent bits
    that a [number] holds exactly. *)
Variables mw ew : Z.
Hypothesis Hmw : 0 < mw <= 52.
Hypothesis Hew : 1 < ew.
Hypothesis Hemin : -1074 <= 3 - 2 ^ (ew - 1) - (mw + 1).
Hypothesis Hemax : 2 ^ (ew - 1) - (mw + 1) <= 971.

Lemma bits_fields (b : Z) :
  0 <= b < 2 ^ (mw + ew + 1) ->
  0 <= b mod 2 ^ mw < 2 ^ mw /\
  0 <= (b / 2 ^ mw) mod 2 ^ ew < 2 ^ ew /\
  b = (if Z.testbit b (mw + ew) then 2 ^ (mw + ew) else 0)
      + (b / 2 ^ mw) mod 2 ^ ew * 2 ^ mw + b mod 2 ^ mw.
Proof.
  intros Hb.
  assert (HP : 0 < 2 ^ mw) by (apply Z.pow_pos_nonneg; lia).
  assert (HQ : 0 < 2 ^ ew) by (apply Z.pow_pos_nonneg; lia).
  assert (HPQ : 2 ^ (mw + ew) = 2 ^ mw * 2 ^ ew) by (apply Z.pow_add_r; lia).
  assert (HPQ2 : 2 ^ (mw + ew + 1) = 2 * 2 ^ (mw + ew))
    by (rewrite Z.pow_add_r by lia; lia).
  split; [apply Z.mod_pos_bound; lia |].
  split; [apply Z.mod_pos_bound; lia |].
  pose proof (Z.div_mod b (2 ^ mw) ltac:(lia)) as H1.
  pose proof (Z.div_mod (b / 2 ^ mw) (2 ^ ew) ltac:(lia)) as H2.
  rewrite Z.div_div, <- HPQ in H2 by lia.
  assert (Hh : 0 <= b / 2 ^ (mw + ew) < 2).
  { split; [apply Z.div_pos; lia | apply Z.div_lt_upper_bound; lia]. }
  destruct (Z.testbit b (mw + ew)) eqn:Ebit.
  - apply Z.testbit_true in Ebit; [| lia].
    assert (b / 2 ^ (mw + ew) = 1).
    { destruct (Z.eq_dec (b / 2 ^ (mw + ew)) 0) as [H0 | H0];
        [rewrite H0 in Ebit; discriminate Ebit | lia]. }
    nia.
  - apply Z.testbit_false in Ebit; [| lia].
    assert (b / 2 ^ (mw + ew) = 0).
    { destruct (Z.eq_dec (b / 2 ^ (mw + ew)) 1) as [H0 | H0];
        [rewrite H0 in Ebit; discriminate Ebit | lia]. }
    nia.
Qed.

Lemma bits_of_float_of_bits (b : Z) :
  0 <= b < 2 ^ (mw + ew + 1) ->
  float_of_bits mw ew b = S754_nan \/
  bits_of_float mw ew (float_of_bits mw ew b) = b.
Proof.
  intros Hb. destruct (bits_fields b Hb) as (Hm & HE & Hfields).
  assert (HP : 0 < 2 ^ mw) by (apply Z.pow_pos_nonneg; lia).
  assert (HQ : 2 ^ ew = 2 * 2 ^ (ew - 1))
    by (rewrite <- Z.pow_succ_r by lia; f_equal; lia).
  assert (HQ2 : 2 <= 2 ^ (ew - 1)).
  { change 2 with (2 ^ 1) at 1. apply Z.pow_le_mono_r; lia. }
  unfold float_of_bits. cbv zeta.
  remember (Z.testbit b (mw + ew)) as s eqn:Hs.
  remember ((b / 2 ^ mw) mod 2 ^ ew) as E eqn:HEdef.
  remember (b mod 2 ^ mw) as m eqn:Hmdef.
  clear Hs HEdef Hmdef.
  destruct (E =? 2 ^ ew - 1) eqn:E1.
  { apply Z.eqb_eq in E1. destruct (m =? 0) eqn:E2; [right | now left].
    apply Z.eqb_eq in E2. unfold bits_of_float. cbv beta iota zeta.
    rewrite Hfields, E1, E2. lia. }
  apply Z.eqb_neq in E1.
  destruct (E =? 0) eqn:E3; right.
  - apply Z.eqb_eq in E3.
    destruct m as [| M | M]; [| | lia].
    + replace (cond_Zopp s 0) with 0 by now destruct s.
      unfold binary_normalize, bits_of_float. cbv beta iota zeta.
      rewrite Hfields, E3. lia.
    + rewrite binary_normalize_cond_Zopp.
      assert (Hd : Zpos (digits2_pos M) <= mw).
      { pose proof (digits2_pos_bound M).
        destruct (Z.le_gt_cases (Zpos (digits2_pos M)) mw) as [H0 | H0];
          [exact H0 |].
        assert (2 ^ mw <= 2 ^ (Zpos (digits2_pos M) - 1))
          by (apply Z.pow_le_mono_r; lia).
        lia. }
      destruct (normalize_then_round (mw + 1) (2 ^ (ew - 1)) s M
                  (1 - (2 ^ (ew - 1) - 1) - mw))
        as (m2 & e2 & -> & Hback);
        try (unfold fexp, emin; lia).
      unfold bits_of_float. cbv beta iota zeta. rewrite Hback.
      destruct (Zpos M <? 2 ^ mw) eqn:E4; to_Prop; [| lia].
      rewrite Hfields, E3. lia.
  - apply Z.eqb_neq in E3.
    destruct (2 ^ mw + m) as [| M | M] eqn:EM; try lia.
    rewrite binary_normalize_cond_Zopp.
    assert (Hd : Zpos (digits2_pos M) = mw + 1).
    { apply digits2_pos_unique.
      replace (mw + 1 - 1) with mw by lia.
      rewrite Z.pow_add_r by lia. lia. }
    destruct (normalize_then_round (mw + 1) (2 ^ (ew - 1)) s M
                (E - (2 ^ (ew - 1) - 1) - mw))
      as (m2 & e2 & -> & Hback);
      try (unfold fexp, emin; lia).
    unfold bits_of_float. cbv beta iota zeta. rewrite Hback.
    destruct (Zpos M <? 2 ^ mw) eqn:E4; to_Prop; [lia |].
    rewrite Hfields.
    replace (E - (2 ^ (ew - 1) - 1) - mw + (2 ^ (ew - 1) - 1) + mw) with E by lia.
    lia.
Qed.

End Interchange.

(** ** What the reader makes of written bytes *)

Lemma pow_256 (n : nat) : 256 ^ Z.of_nat n = 2 ^ (8 * Z.of_nat n).
Proof.
  rewrite Z.pow_mul_r by lia. reflexivity.
Qed.

Lemma get_bytes_at (n : nat) (view : DataView) (i : Z) (bs : list byte)
    (s : stream) (pre post : list byte) :
  List.length bs = n ->
  buffer s = pre ++ bs ++ post ->
  dv_byteOffset view + i = Z.of_nat (List.length pre) ->
  0 <= i -> i + Z.of_nat n <= dv_byteLength view ->
  get_bytes view i (Z.of_nat n) s = (Ok bs, s).
Proof.
  intros Hn Hbuf Hoff Hi Hfit. unfold get_bytes.
  destruct (i <? 0) eqn:E1; to_Prop; [lia |].
  destruct (_ <? _) eqn:E2; to_Prop; [lia |].
  rewrite Hbuf, Hoff, <- Hn, slice_middle. reflexivity.
Qed.

Lemma getUint_at (n : nat) (view : DataView) (i z : Z)
    (s : stream) (pre post : list byte) :
  0 <= z < 256 ^ Z.of_nat n ->
  buffer s = pre ++ be_bytes n z ++ post ->
  dv_byteOffset view + i = Z.of_nat (List.length pre) ->
  0 <= i -> i + Z.of_nat n <= dv_byteLength view ->
  getUint n view i false s = (Ok z, s).
Proof.
  intros Hz Hbuf Hoff Hi Hfit. unfold getUint, bind.
  rewrite (get_bytes_at n view i (be_bytes n z) s pre post)
    by (auto using length_be_bytes).
  unfold ret, endian. rewrite be_value_be_bytes, Z.mod_small by lia.
  reflexivity.
Qed.

Lemma getInt_at (n : nat) (view : DataView) (i z : Z)
    (s : stream) (pre post : list byte) :
  (0 < n)%nat -> signed (8 * Z.of_nat n) z ->
  buffer s = pre ++ be_bytes n z ++ post ->
  dv_byteOffset view + i = Z.of_nat (List.length pre) ->
  0 <= i -> i + Z.of_nat n <= dv_byteLength view ->
  getInt n view i false s = (Ok z, s).
Proof.
  intros Hn Hz Hbuf Hoff Hi Hfit. unfold getInt, getUint, bind.
  rewrite (get_bytes_at n view i (be_bytes n z) s pre post)
    by (auto using length_be_bytes).
  unfold ret, endian. rewrite be_value_be_bytes, pow_256, wrap_signed_mod by (auto; lia).
  reflexivity.
Qed.

Lemma reads_ret {A} (a : A) : reads (ret a) [] a.
Proof.
  intros pre post. unfold ret, on. cbn [List.length]. now rewrite Z.add_0_r.
Qed.

Lemma reads_lift {A} (a : A) : reads (lift (Ok a)) [] a.
Proof.
  apply reads_ret.
Qed.

Lemma reads_bind {A B} (m : M A) (f : A -> M B) (b1 b2 : list byte) (a : A) (r : B) :
  reads m b1 a -> reads (f a) b2 r -> reads (bind m f) (b1 ++ b2) r.
Proof.
  intros H1 H2 pre post. unfold bind.
  rewrite <- app_assoc, H1.
  replace (on (pre ++ b1 ++ b2 ++ post)
             (Z.of_nat (List.length pre) + Z.of_nat (List.length b1)))
    with (on ((pre ++ b1) ++ b2 ++ post) (Z.of_nat (List.length (pre ++ b1))))
    by (rewrite length_app, Nat2Z.inj_add, <- app_assoc; reflexivity).
  rewrite H2.
  rewrite !length_app, !Nat2Z.inj_add, <- !app_assoc, Z.add_assoc.
  reflexivity.
Qed.

Lemma reads_bind_nil {A B} (m : M A) (f : A -> M B) (bs : list byte) (a : A) (r : B) :
  reads m bs a -> reads (f a) [] r -> reads (bind m f) bs r.
Proof.
  intros H1 H2. rewrite <- (app_nil_r bs). now apply reads_bind with a.
Qed.

(** A field of [len] bytes read through a view at the cursor, the cursor
    moved past it. *)
Lemma reads_field {A} (len : Z) (get : DataView -> M A) (bs : list byte) (a : A) :
  Z.of_nat (List.length bs) = len ->
  (forall view s pre post,
     buffer s = pre ++ bs ++ post ->
     dv_byteOffset view = Z.of_nat (List.length pre) ->
     dv_byteLength view = len ->
     get view s = (Ok a, s)) ->
  reads (off <- get_byteOffset ;;
         data <- new_DataView off len ;;
         v <- get data ;;
         advance len ;;
         ret v) bs a.
Proof.
  intros Hn Hget pre post.
  unfold bind at 1, get_byteOffset. cbn [on byteOffset].
  unfold bind at 1.
  rewrite new_DataView_fits
    by (rewrite ?byteLength_on, ?length_app; lia).
  unfold bind at 1. rewrite (Hget _ _ pre post) by reflexivity.
  unfold bind, advance, ret, on. cbn [buffer byteOffset]. now rewrite Hn.
Qed.

Lemma reads_int_field (n : nat) (z : Z) :
  (0 < n)%nat -> signed (8 * Z.of_nat n) z ->
  reads (off <- get_byteOffset ;;
         data <- new_DataView off (Z.of_nat n) ;;
         v <- getInt n data 0 LITTLE_ENDIAN ;;
         advance (Z.of_nat n) ;;
         ret v) (be_bytes n z) z.
Proof.
  intros Hn Hz. apply reads_field; [now rewrite length_be_bytes |].
  intros view s pre post Hbuf Hoff Hlen.
  apply getInt_at with pre post; auto; lia.
Qed.

Lemma reads_uint_field (n : nat) (z : Z) :
  0 <= z < 256 ^ Z.of_nat n ->
  reads (off <- get_byteOffset ;;
         data <- new_DataView off (Z.of_nat n) ;;
         v <- getUint n data 0 LITTLE_ENDIAN ;;
         advance (Z.of_nat n) ;;
         ret v) (be_bytes n z) z.
Proof.
  intros Hz. apply reads_field; [now rewrite length_be_bytes |].
  intros view s pre post Hbuf Hoff Hlen.
  apply getUint_at with pre post; auto; lia.
Qed.

(** The same for the readers that move the cursor first. *)
Lemma reads_byte_field {A} (get : DataView -> M A) (b : byte) (a : A) :
  (forall view s pre post,
     buffer s = pre ++ [b] ++ post ->
     dv_byteOffset view = Z.of_nat (List.length pre) ->
     dv_byteLength view = 1 ->
     get view s = (Ok a, s)) ->
  reads (off <- post_increment ;; data <- new_DataView off 1 ;; get data) [b] a.
Proof.
  intros Hget pre post.
  unfold bind at 1, post_increment. cbn [on buffer byteOffset].
  unfold bind at 1.
  rewrite new_DataView_fits
    by (unfold byteLength; cbn [buffer];
        rewrite ?length_app; cbn [List.length]; lia).
  rewrite (Hget _ _ pre post) by reflexivity.
  reflexivity.
Qed.

(** Pointwise equality of computations, to regroup a sequence. *)
Lemma reads_ext {A} (m1 m2 : M A) (bs : list byte) (a : A) :
  (forall s, m2 s = m1 s) -> reads m1 bs a -> reads m2 bs a.
Proof.
  intros Hext H pre post. rewrite Hext. apply H.
Qed.

Ltac regroup :=
  intros ?s; unfold bind, ret; cbv beta iota;
  repeat (match goal with
          | |- context [match ?m ?s' with _ => _ end] =>
              destruct (m s') as [[? | ? |] ?]
          end; cbv beta iota);
  reflexivity.

Lemma reads_Byte (z : Z) :
  signed 8 z -> reads TAG_Byte_readPayload (be_bytes 1 z) (number_of_Z z).
Proof.
  intros Hz. unfold TAG_Byte_readPayload.
  apply (reads_byte_field _ (byte_of_Z z)).
  intros view s pre post Hbuf Hoff Hlen. unfold bind, getInt8.
  rewrite (getInt_at 1 view 0 z s pre post) by (auto; lia).
  reflexivity.
Qed.

Lemma reads_Short (z : Z) :
  signed 16 z -> reads TAG_Short_readPayload (be_bytes 2 z) (number_of_Z z).
Proof.
  intros Hz.
  apply reads_ext with
    (m1 := v <- (off <- get_byteOffset ;;
                 data <- new_DataView off 2 ;;
                 v <- getInt16 data 0 LITTLE_ENDIAN ;;
                 advance 2 ;;
                 ret v) ;;
           ret (number_of_Z v));
    [unfold TAG_Short_readPayload; regroup |].
  apply reads_bind_nil with z; [| apply reads_ret].
  apply (reads_int_field 2 z); [lia | exact Hz].
Qed.

Lemma reads_Int (z : Z) :
  signed 32 z -> reads TAG_Int_readPayload (be_bytes 4 z) (number_of_Z z).
Proof.
  intros Hz.
  apply reads_ext with
    (m1 := v <- (off <- get_byteOffset ;;
                 data <- new_DataView off 4 ;;
                 v <- getInt32 data 0 LITTLE_ENDIAN ;;
                 advance 4 ;;
                 ret v) ;;
           ret (number_of_Z v));
    [unfold TAG_Int_readPayload; regroup |].
  apply reads_bind_nil with z; [| apply reads_ret].
  apply (reads_int_field 4 z); [lia | exact Hz].
Qed.

Lemma reads_Long (z : Z) :
  signed 64 z -> reads TAG_Long_readPayload (be_bytes 8 z) z.
Proof.
  intros Hz. apply (reads_int_field 8 z); [lia | exact Hz].
Qed.

Lemma reads_Uint8Array (raw : list byte) :
  reads (off <- get_byteOffset ;;
         payload <- new_Uint8Array off (Z.of_nat (List.length raw)) ;;
         advance (Z.of_nat (List.length raw)) ;;
         ret payload) raw raw.
Proof.
  intros pre post.
  unfold bind at 1, get_byteOffset. cbn [on byteOffset].
  unfold bind at 1, new_Uint8Array.
  destruct (_ || _) eqn:E1; to_Prop; try lia.
  destruct (_ <? _) eqn:E2; to_Prop;
    [rewrite byteLength_on, !length_app in E2; lia |].
  cbn [on buffer]. rewrite slice_middle. reflexivity.
Qed.

Lemma flat_map_be_bytes_1 (p : list Z) :
  flat_map (be_bytes 1) p = map byte_of_Z p.
Proof.
  induction p as [| x p IH]; [reflexivity |].
  change (byte_of_Z x :: flat_map (be_bytes 1) p = byte_of_Z x :: map byte_of_Z p).
  now rewrite IH.
Qed.

Lemma map_signed_bytes (p : list Z) :
  Forall (signed 8) p ->
  map (fun b => wrap_signed 8 (u8 b)) (map byte_of_Z p) = p.
Proof.
  induction 1 as [| x p Hx Hp IH]; [reflexivity |].
  cbn [map]. rewrite IH, u8_byte_of_Z.
  change 256 with (2 ^ 8). rewrite wrap_signed_mod by (auto; lia).
  reflexivity.
Qed.

Lemma reads_Int8Array (p : list Z) :
  Forall (signed 8) p ->
  reads (off <- get_byteOffset ;;
         payload <- new_Int8Array off (Z.of_nat (List.length p)) ;;
         advance (Z.of_nat (List.length p)) ;;
         ret payload) (flat_map (be_bytes 1) p) p.
Proof.
  intros Hp. rewrite flat_map_be_bytes_1.
  apply reads_ext with
    (m1 := bs <- (off <- get_byteOffset ;;
                  payload <- new_Uint8Array off
                               (Z.of_nat (List.length (map byte_of_Z p))) ;;
                  advance (Z.of_nat (List.length (map byte_of_Z p))) ;;
                  ret payload) ;;
           ret (map (fun b => wrap_signed 8 (u8 b)) bs)).
  { rewrite length_map. unfold new_Int8Array. regroup. }
  apply reads_bind_nil with (map byte_of_Z p); [apply reads_Uint8Array |].
  rewrite map_signed_bytes by exact Hp. apply reads_ret.
Qed.

Lemma mapM_getInt (n : nat) (view : DataView) (p : list Z) :
  (0 < n)%nat -> Forall (signed (8 * Z.of_nat n)) p ->
  forall (k : nat) (s : stream) (pre post : list byte),
    buffer s = pre ++ flat_map (be_bytes n) p ++ post ->
    dv_byteOffset view + Z.of_nat n * Z.of_nat k = Z.of_nat (List.length pre) ->
    Z.of_nat n * (Z.of_nat k + Z.of_nat (List.length p)) <= dv_byteLength view ->
    mapM (fun i => getInt n view (0 + Z.of_nat n * i) false)
      (map Z.of_nat (seq k (List.length p))) s
    = (Ok p, s).
Proof.
  intros Hn Hp. induction Hp as [| x p Hx Hp IH];
    intros k s pre post Hbuf Hoff Hfit.
  - reflexivity.
  - cbn [List.length seq map mapM flat_map] in *.
    rewrite <- app_assoc in Hbuf.
    unfold bind at 1.
    rewrite (getInt_at n view _ x s pre (flat_map (be_bytes n) p ++ post))
      by (auto; lia).
    unfold bind at 1.
    rewrite (IH (S k) s (pre ++ be_bytes n x) post);
      [reflexivity | now rewrite <- app_assoc | |].
    + rewrite length_app, length_be_bytes. lia.
    + lia.
Qed.

Lemma reads_array (n : nat) (len : Z) (p : list Z) (get : DataView -> M (list Z)) :
  (0 < n)%nat -> Forall (signed (8 * Z.of_nat n)) p ->
  len = Z.of_nat (List.length p) * Z.of_nat n ->
  (forall view s,
     get view s =
     (new_Array (Z.of_nat (List.length p)) ;;
      mapM (fun i => getInt n view (0 + Z.of_nat n * i) false)
        (indices (Z.of_nat (List.length p)))) s) ->
  reads (off <- get_byteOffset ;;
         view <- new_DataView off len ;;
         payload <- get view ;;
         advance len ;;
         ret payload) (flat_map (be_bytes n) p) p.
Proof.
  intros Hn Hp Hlen Hget. apply reads_field.
  - rewrite (length_flat_map_fixed _ n) by (intros; apply length_be_bytes). lia.
  - intros view s pre post Hbuf Hoff Hview. rewrite Hget.
    unfold bind, new_Array.
    destruct (_ <? 0) eqn:E; to_Prop; [lia |].
    unfold ret, indices. rewrite Nat2Z.id.
    apply mapM_getInt with pre post; auto; lia.
Qed.

Lemma reads_counted {A} (m : M Z) (rest : Z -> M A) (n : nat)
    (bs : list byte) (a : A) :
  Z.of_nat n < 2 ^ 31 ->
  (forall s, m s = (off <- get_byteOffset ;;
                    data <- new_DataView off 4 ;;
                    v <- getInt32 data 0 LITTLE_ENDIAN ;;
                    advance 4 ;;
                    ret v) s) ->
  reads (rest (Z.of_nat n)) bs a ->
  reads (bind m rest) (be_bytes 4 (Z.of_nat n) ++ bs) a.
Proof.
  intros Hlen Hm Hrest.
  apply reads_bind with (Z.of_nat n); [| exact Hrest].
  eapply reads_ext; [exact Hm |].
  apply (reads_int_field 4); [lia | unfold signed; simpl; lia].
Qed.

Lemma reads_Byte_Array (p : list Z) :
  Z.of_nat (List.length p) < 2 ^ 31 -> Forall (signed 8) p ->
  reads TAG_Byte_Array_readPayload
    (be_bytes 4 (Z.of_nat (List.length p)) ++ flat_map (be_bytes 1) p) p.
Proof.
  intros Hlen Hp.
  apply reads_ext with
    (m1 := bind (off <- get_byteOffset ;;
                 data <- new_DataView off 4 ;;
                 v <- getInt32 data 0 LITTLE_ENDIAN ;;
                 advance 4 ;;
                 ret v)
             (fun payloadLength =>
                off <- get_byteOffset ;;
                payload <- new_Int8Array off payloadLength ;;
                advance payloadLength ;;
                ret payload));
    [unfold TAG_Byte_Array_readPayload; regroup |].
  apply reads_counted; [exact Hlen | reflexivity |].
  now apply reads_Int8Array.
Qed.

Lemma reads_String (raw : list byte) :
  Z.of_nat (List.length raw) < 2 ^ 16 ->
  reads TAG_String_readPayload
    (be_bytes 2 (Z.of_nat (List.length raw)) ++ raw) raw.
Proof.
  intros Hlen.
  apply reads_ext with
    (m1 := bind (off <- get_byteOffset ;;
                 data <- new_DataView off 2 ;;
                 v <- getUint16 data 0 LITTLE_ENDIAN ;;
                 advance 2 ;;
                 ret v)
             (fun payloadLength =>
                off <- get_byteOffset ;;
                payload <- new_Uint8Array off payloadLength ;;
                advance payloadLength ;;
                ret payload));
    [unfold TAG_String_readPayload; regroup |].
  apply reads_bind with (Z.of_nat (List.length raw)); [| apply reads_Uint8Array].
  apply (reads_uint_field 2). simpl in *. lia.
Qed.

Lemma reads_Int_Array (p : list Z) :
  Z.of_nat (List.length p) < 2 ^ 31 -> Forall (signed 32) p ->
  reads TAG_Int_Array_readPayload
    (be_bytes 4 (Z.of_nat (List.length p)) ++ flat_map (be_bytes 4) p) p.
Proof.
  intros Hlen Hp.
  apply reads_ext with
    (m1 := bind (off <- get_byteOffset ;;
                 data <- new_DataView off 4 ;;
                 v <- getInt32 data 0 LITTLE_ENDIAN ;;
                 advance 4 ;;
                 ret v)
             (fun payloadLength =>
                off <- get_byteOffset ;;
                view <- new_DataView off (payloadLength * 4) ;;
                payload <- _arrayFromDataView view 32 payloadLength 0 ;;
                advance (payloadLength * 4) ;;
                ret payload));
    [unfold TAG_Int_Array_readPayload; regroup |].
  apply reads_counted; [exact Hlen | reflexivity |].
  apply (reads_array 4); [lia | exact Hp | reflexivity |].
  intros view s. reflexivity.
Qed.

Lemma reads_Long_Array (p : list Z) :
  Z.of_nat (List.length p) < 2 ^ 31 -> Forall (signed 64) p ->
  reads TAG_Long_Array_readPayload
    (be_bytes 4 (Z.of_nat (List.length p)) ++ flat_map (be_bytes 8) p) p.
Proof.
  intros Hlen Hp.
  apply reads_ext with
    (m1 := bind (off <- get_byteOffset ;;
                 data <- new_DataView off 4 ;;
                 v <- getInt32 data 0 LITTLE_ENDIAN ;;
                 advance 4 ;;
                 ret v)
             (fun payloadLength =>
                off <- get_byteOffset ;;
                view <- new_DataView off (payloadLength * 8) ;;
                payload <- _arrayFromDataView view 64 payloadLength 0 ;;
                advance (payloadLength * 8) ;;
                ret payload));
    [unfold TAG_Long_Array_readPayload; regroup |].
  apply reads_counted; [exact Hlen | reflexivity |].
  apply (reads_array 8); [lia | exact Hp | reflexivity |].
  intros view s. reflexivity.
Qed.

Lemma float_bits_round_trip (mw ew : Z) (b : Z) :
  0 < mw <= 52 -> 1 < ew ->
  -1074 <= 3 - 2 ^ (ew - 1) - (mw + 1) -> 2 ^ (ew - 1) - (mw + 1) <= 971 ->
  float_of_bits mw ew (bits_of_float mw ew S754_nan) = S754_nan ->
  0 <= bits_of_float mw ew S754_nan < 2 ^ (mw + ew + 1) ->
  0 <= b < 2 ^ (mw + ew + 1) ->
  0 <= bits_of_float mw ew (float_of_bits mw ew b) < 2 ^ (mw + ew + 1) /\
  float_of_bits mw ew (bits_of_float mw ew (float_of_bits mw ew b))
  = float_of_bits mw ew b.
Proof.
  intros Hmw Hew Hemin Hemax Hnan Hnanb Hb.
  destruct (bits_of_float_of_bits mw ew Hmw Hew Hemin Hemax b Hb) as [-> | ->].
  - now split.
  - now split.
Qed.

Lemma reads_float_field (mw ew : Z) (n : nat) (b : Z) (get : DataView -> M number) :
  0 < mw <= 52 -> 1 < ew ->
  -1074 <= 3 - 2 ^ (ew - 1) - (mw + 1) -> 2 ^ (ew - 1) - (mw + 1) <= 971 ->
  float_of_bits mw ew (bits_of_float mw ew S754_nan) = S754_nan ->
  0 <= bits_of_float mw ew S754_nan < 2 ^ (mw + ew + 1) ->
  2 ^ (mw + ew + 1) = 256 ^ Z.of_nat n ->
  0 <= b < 2 ^ (mw + ew + 1) ->
  (forall view s,
     get view s
     = (v <- getUint n view 0 false ;; ret (float_of_bits mw ew v)) s) ->
  reads (off <- get_byteOffset ;;
         data <- new_DataView off (Z.of_nat n) ;;
         payload <- get data ;;
         advance (Z.of_nat n) ;;
         ret payload)
    (be_bytes n (bits_of_float mw ew (float_of_bits mw ew b)))
    (float_of_bits mw ew b).
Proof.
  intros Hmw Hew Hemin Hemax Hnan Hnanb Hwidth Hb Hget.
  destruct (float_bits_round_trip mw ew b) as [Hrange Hback]; auto.
  apply reads_field; [now rewrite length_be_bytes |].
  intros view s pre post Hbuf Hoff Hlen. rewrite Hget. unfold bind.
  rewrite (getUint_at n view 0 (bits_of_float mw ew (float_of_bits mw ew b)) s pre post)
    by (auto; lia).
  unfold ret. now rewrite Hback.
Qed.

Lemma reads_Float (b : Z) :
  0 <= b < 2 ^ 32 ->
  reads TAG_Float_readPayload
    (be_bytes 4 (bits_of_float 23 8 (float_of_bits 23 8 b)))
    (float_of_bits 23 8 b).
Proof.
  intros Hb.
  apply (reads_float_field 23 8 4 b (fun data => getFloat32 data 0 LITTLE_ENDIAN)).
  - lia.
  - lia.
  - simpl. lia.
  - simpl. lia.
  - reflexivity.
  - vm_compute. split; [discriminate | reflexivity].
  - reflexivity.
  - exact Hb.
  - reflexivity.
Qed.

Lemma reads_Double (b : Z) :
  0 <= b < 2 ^ 64 ->
  reads TAG_Double_readPayload
    (be_bytes 8 (bits_of_float 52 11 (float_of_bits 52 11 b)))
    (float_of_bits 52 11 b).
Proof.
  intros Hb.
  apply (reads_float_field 52 11 8 b (fun data => getFloat64 data 0 LITTLE_ENDIAN)).
  - lia.
  - lia.
  - simpl. lia.
  - simpl. lia.
  - reflexivity.
  - vm_compute. split; [discriminate | reflexivity].
  - reflexivity.
  - exact Hb.
  - reflexivity.
Qed.

(** ** Constructors at the values the reader builds *)

Lemma in_range_accepted (p : number) (lo hi : Z) (clo chi : number) :
  (exists sc Mc Ec, chi = S754_finite sc Mc Ec /\ Ec <= 0 /\
                    cond_Zopp sc (Zpos Mc) = hi * 2 ^ (- Ec)) ->
  (exists sc Mc Ec, clo = S754_finite sc Mc Ec /\ Ec <= 0 /\
                    cond_Zopp sc (Zpos Mc) = lo * 2 ^ (- Ec)) ->
  Number_isInteger p = true -> lo <= truncate p <= hi ->
  gt p chi || lt p clo || negb (Number_isInteger p) = false.
Proof.
  intros Hhi Hlo Hint Hp.
  destruct (gt_integer p hi chi Hhi Hint) as [-> _].
  destruct (gt_integer p lo clo Hlo Hint) as [_ ->].
  rewrite Hint.
  destruct (hi <? truncate p) eqn:E1; to_Prop; [lia |].
  destruct (truncate p <? lo) eqn:E2; to_Prop; [lia |].
  reflexivity.
Qed.

Lemma new_TAG_Byte_of_Z nl nm (z : Z) :
  signed 8 z ->
  new_TAG_Byte nl nm (number_of_Z z) = Ok (TAG_Byte nl nm (number_of_Z z)).
Proof.
  intros Hz. unfold signed in Hz. simpl in Hz.
  destruct (number_of_Z_exact z) as [Hint Htr]; [lia |].
  unfold new_TAG_Byte.
  pose proof (in_range_accepted (number_of_Z z) (-128) 127
                (number_of_Z (-128)) (number_of_Z 127)) as H.
  rewrite Hint, Htr in H. cbn [negb] in H. rewrite orb_false_r in H.
  rewrite H; [reflexivity | literal 127 | literal (-128) | reflexivity | lia].
Qed.

Lemma new_TAG_Short_of_Z nl nm (z : Z) :
  signed 16 z ->
  new_TAG_Short nl nm (number_of_Z z) = Ok (TAG_Short nl nm (number_of_Z z)).
Proof.
  intros Hz. unfold signed in Hz. simpl in Hz.
  destruct (number_of_Z_exact z) as [Hint Htr]; [lia |].
  unfold new_TAG_Short.
  rewrite (in_range_accepted (number_of_Z z) (-32768) 32767);
    [reflexivity | literal 32767 | literal (-32768) | exact Hint | lia].
Qed.

Lemma new_TAG_Int_of_Z nl nm (z : Z) :
  signed 32 z ->
  new_TAG_Int nl nm (number_of_Z z) = Ok (TAG_Int nl nm (number_of_Z z)).
Proof.
  intros Hz. unfold signed in Hz. simpl in Hz.
  destruct (number_of_Z_exact z) as [Hint Htr]; [lia |].
  unfold new_TAG_Int.
  rewrite (in_range_accepted (number_of_Z z) (-2147483648) 2147483647);
    [reflexivity | literal 2147483647 | literal (-2147483648) | exact Hint | lia].
Qed.

Lemma new_TAG_Long_signed nl nm (z : Z) :
  signed 64 z -> new_TAG_Long nl nm z = Ok (TAG_Long nl nm z).
Proof.
  intros Hz. unfold signed in Hz. simpl in Hz.
  unfold new_TAG_Long. cbv beta iota.
  change (BigInt (number_of_Z 9223372036854775807))
    with (Some 9223372036854775808).
  change (BigInt (number_of_Z (-9223372036854775808)))
    with (Some (-9223372036854775808)).
  cbv beta iota.
  destruct (_ >? _) eqn:E1; [apply Z.gtb_lt in E1; lia |].
  destruct (_ <? _) eqn:E2; to_Prop; [lia | reflexivity].
Qed.

Lemma TAG_ID_TO_CLASS_id (t : NBT) : TAG_ID_TO_CLASS (id t) = Some (class_of t).
Proof.
  now destruct t.
Qed.

(** ** Reading the layout *)

Lemma reads_mapM_const {A B} (m : M B) (bytes : B -> list byte) (vals : list B) :
  Forall (fun v => reads m (bytes v) v) vals ->
  forall idx : list A, List.length idx = List.length vals ->
    reads (mapM (fun _ => m) idx) (flat_map bytes vals) vals.
Proof.
  induction 1 as [| v vals Hv Hvals IH]; intros [| i idx] Hlen;
    try discriminate Hlen.
  - apply reads_ret.
  - cbn [mapM flat_map].
    apply reads_bind with v; [exact Hv |].
    apply reads_bind_nil with vals; [apply IH; now injection Hlen |].
    apply reads_ret.
Qed.

Lemma length_indices (n : nat) : List.length (indices (Z.of_nat n)) = n.
Proof.
  unfold indices. now rewrite length_map, length_seq, Nat2Z.id.
Qed.

Lemma reads_List (instantiate : tagClass -> Z -> jsstring -> M NBT)
    (ty : Z) (p : list NBT) :
  0 <= ty < 256 -> Z.of_nat (List.length p) < 2 ^ 31 ->
  Forall (fun e => id e = ty /\
                   reads (instantiate (class_of e) 0 []) (layout_payload e) e) p ->
  reads (TAG_List_readPayload instantiate)
    ((byte_of_Z ty :: be_bytes 4 (Z.of_nat (List.length p)))
       ++ flat_map layout_payload p)
    (ty, p).
Proof.
  intros Hty Hlen Hp.
  apply reads_ext with
    (m1 := bind (off <- post_increment ;;
                 data <- new_DataView off 1 ;;
                 getUint8 data 0)
             (fun tagType =>
                bind (off <- get_byteOffset ;;
                      data <- new_DataView off 4 ;;
                      v <- getInt32 data 0 LITTLE_ENDIAN ;;
                      advance 4 ;;
                      ret v)
                  (fun payloadLength =>
                     new_Array payloadLength ;;
                     res <- mapM (fun _ =>
                                    match TAG_ID_TO_CLASS tagType with
                                    | Some tagClass => instantiate tagClass 0 []
                                    | None => throw TypeError
                                    end) (indices payloadLength) ;;
                     ret (tagType, res))));
    [unfold TAG_List_readPayload; regroup |].
  change (byte_of_Z ty :: be_bytes 4 (Z.of_nat (List.length p)))
    with ([byte_of_Z ty] ++ be_bytes 4 (Z.of_nat (List.length p))).
  rewrite <- app_assoc.
  apply reads_bind with ty.
  { apply reads_byte_field. intros view s pre post Hbuf Hoff Hview.
    apply (getUint_at 1) with pre post; auto; simpl; lia. }
  apply reads_counted; [exact Hlen | reflexivity |].
  unfold new_Array. destruct (_ <? 0) eqn:E; to_Prop; [lia |].
  apply reads_ext with
    (m1 := res <- mapM (fun _ =>
                          match TAG_ID_TO_CLASS ty with
                          | Some tagClass => instantiate tagClass 0 []
                          | None => throw TypeError
                          end) (indices (Z.of_nat (List.length p))) ;;
           ret (ty, res));
    [intros s; reflexivity |].
  apply reads_bind_nil with p; [| apply reads_ret].
  apply reads_mapM_const; [| apply length_indices].
  eapply Forall_impl; [| exact Hp].
  intros e [<- He]. now rewrite TAG_ID_TO_CLASS_id.
Qed.

Lemma new_TAG_List_canonical nl nm (ty : Z) (p : list NBT) :
  Forall (fun e => id e = ty /\ nameLength e = 0) p ->
  new_TAG_List nl nm ty p = Ok (TAG_List nl nm ty (5 + sum_total_lengths p) p).
Proof.
  intros Hp. unfold new_TAG_List.
  replace (existsb _ p) with false; [reflexivity |].
  symmetry. induction Hp as [| e p [He1 He2] Hp IH]; [reflexivity |].
  cbn [existsb]. rewrite IH, He1, He2, Z.eqb_refl. reflexivity.
Qed.

Lemma reads_getNBTName (nl : Z) (nm : jsstring) :
  nl = Z.of_nat (List.length (utf8Encode nm)) -> nl < 2 ^ 16 ->
  reads _getNBTName (be_bytes 2 nl ++ utf8Encode nm)
    (utf8Decode (utf8Encode nm), nl).
Proof.
  intros Hnl Hlt.
  apply reads_ext with
    (m1 := bind (off <- get_byteOffset ;;
                 data <- new_DataView off 2 ;;
                 v <- getUint16 data 0 LITTLE_ENDIAN ;;
                 advance 2 ;;
                 ret v)
             (fun nameLength =>
                raw <- (off <- get_byteOffset ;;
                        payload <- new_Uint8Array off nameLength ;;
                        advance nameLength ;;
                        ret payload) ;;
                ret (utf8Decode raw, nameLength)));
    [unfold _getNBTName; regroup |].
  apply reads_bind with nl.
  - apply (reads_uint_field 2). simpl in *. lia.
  - apply reads_bind_nil with (utf8Encode nm); [| apply reads_ret].
    rewrite Hnl. apply reads_Uint8Array.
Qed.

Lemma id_range (t : NBT) : 0 <= id t <= 12.
Proof.
  destruct t; simpl; lia.
Qed.

Lemma reads_parseNBT_body (instantiate : tagClass -> Z -> jsstring -> M NBT)
    (t : NBT) :
  named t ->
  reads (instantiate (class_of t) (nameLength t) (name t)) (layout_payload t) t ->
  reads (parseNBT_body instantiate) (layout t) t.
Proof.
  intros (Hnl & Hlt & Hnm) Hpayload.
  assert (Hid : reads (off <- post_increment ;;
                       data <- new_DataView off 1 ;;
                       getUint8 data 0) [byte_of_Z (id t)] (id t)).
  { apply reads_byte_field. intros view s pre post Hbuf Hoff Hview.
    pose proof (id_range t).
    apply (getUint_at 1) with pre post; auto; simpl; lia. }
  assert (Hrest : reads
            (tagId <- (off <- post_increment ;;
                       data <- new_DataView off 1 ;;
                       getUint8 data 0) ;;
             header <- (if negb (tagId =? 0) then _getNBTName else ret ([], 0)) ;;
             let '(name, nameLength) := header in
             match TAG_ID_TO_CLASS tagId with
             | Some tagClass => instantiate tagClass nameLength name
             | None => throw (Error "Unexppected tag type")
             end) (layout t) t).
  { unfold layout.
    replace (layout_header t)
      with ([byte_of_Z (id t)]
              ++ (if negb (id t =? 0)
                  then be_bytes 2 (nameLength t) ++ utf8Encode (name t)
                  else []))
      by (destruct t; reflexivity).
    rewrite <- app_assoc.
    apply reads_bind with (id t); [exact Hid |].
    apply reads_bind with (name t, nameLength t).
    - destruct (negb (id t =? 0)) eqn:E.
      + rewrite <- Hnm at 2. now apply reads_getNBTName.
      + destruct t; try discriminate E. apply reads_ret.
    - rewrite TAG_ID_TO_CLASS_id. exact Hpayload. }
  intros pre post.
  unfold parseNBT_body, bind at 1, get_byteLength.
  unfold bind at 1, get_byteOffset. cbn [on byteOffset].
  destruct (_ <=? _) eqn:E; to_Prop.
  - rewrite byteLength_on, !length_app in E.
    assert (0 < List.length (layout t))%nat
      by (unfold layout; destruct t; cbn [layout_header app List.length]; lia).
    lia.
  - rewrite <- (Hrest pre post). unfold bind.
    repeat match goal with
      | |- context [match ?m ?s' with _ => _ end] =>
          destruct (m s') as [[? | ? |] ?]
      end; reflexivity.
Qed.

Lemma reads_Compound (parse : M NBT) (members : list NBT) :
  Forall (fun m => reads parse (layout m) m) members ->
  (exists init, members = init ++ [TAG_End] /\
                Forall (fun m => id m <> 0) init) ->
  forall (n : nat) (acc : list NBT),
    (List.length members <= n)%nat ->
    reads (TAG_Compound_readPayload parse n acc)
      (flat_map layout members) (acc ++ members).
Proof.
  intros Hread (init & -> & Hinit).
  induction Hinit as [| m init Hm Hinit IH]; intros n acc Hn.
  - destruct n as [| n]; [cbn [List.length app] in Hn; lia |].
    cbn [app flat_map TAG_Compound_readPayload]. rewrite app_nil_r.
    apply reads_bind_nil with TAG_End.
    + apply Forall_inv in Hread. exact Hread.
    + cbn [id]. rewrite Z.eqb_refl. apply reads_ret.
  - destruct n as [| n]; [cbn [List.length app] in Hn; lia |].
    cbn [app flat_map TAG_Compound_readPayload].
    apply reads_bind with m.
    + apply Forall_inv in Hread. exact Hread.
    + replace (negb (id m =? id TAG_End)) with true
        by (symmetry; apply negb_true_iff, Z.eqb_neq; exact Hm).
      replace (acc ++ m :: init ++ [TAG_End])
        with ((acc ++ [m]) ++ init ++ [TAG_End])
        by (now rewrite <- app_assoc).
      apply IH.
      * apply Forall_inv_tail in Hread. exact Hread.
      * cbn [List.length app] in Hn. lia.
Qed.

Lemma new_TAG_Compound_ends nl nm (init : list NBT) :
  new_TAG_Compound nl nm (init ++ [TAG_End])
  = Ok (TAG_Compound nl nm (sum_total_lengths (init ++ [TAG_End]))
          (init ++ [TAG_End])).
Proof.
  unfold new_TAG_Compound, array_get.
  rewrite length_app, Nat2Z.inj_add. cbn [List.length].
  destruct (_ <? 0) eqn:E; to_Prop; [lia |].
  replace (Z.to_nat (Z.of_nat (List.length init) + Z.of_nat 1 - 1))
    with (List.length init) by lia.
  rewrite nth_error_app2, Nat.sub_diag by lia. reflexivity.
Qed.

Lemma decodable_elements (ty : Z) (p : list NBT) :
  (fix all (tags : list NBT) : Prop :=
     match tags with
     | [] => True
     | tag :: rest =>
         (id tag = ty /\ nameLength tag = 0 /\ name tag = [] /\
          decodable tag) /\ all rest
     end) p ->
  Forall (fun tag => id tag = ty /\ nameLength tag = 0 /\ name tag = [] /\
                     decodable tag) p.
Proof.
  induction p as [| e p IH]; intros H; constructor; [apply H | apply IH, H].
Qed.

Lemma decodable_members (p : list NBT) :
  (fix members (tags : list NBT) : Prop :=
     match tags with
     | [] => False
     | tag :: rest =>
         match rest with
         | [] => tag = TAG_End
         | _ :: _ =>
             (id tag <> 0 /\ named tag /\ decodable tag) /\ members rest
         end
     end) p ->
  exists init,
    p = init ++ [TAG_End] /\
    Forall (fun tag => id tag <> 0 /\ named tag /\ decodable tag) init.
Proof.
  induction p as [| m rest IH]; intros H; [destruct H |].
  destruct rest as [| m' rest].
  - subst m. exists []. split; [reflexivity | constructor].
  - destruct H as [Hm Hrest]. destruct (IH Hrest) as (init & Hinit & Hall).
    exists (m :: init). split; [now rewrite Hinit | now constructor].
Qed.

Lemma list_max_depth (p : list NBT) (f : nat) :
  (list_max (map depth p) < S f)%nat -> Forall (fun e => (depth e <= f)%nat) p.
Proof.
  intros H. apply Forall_forall. intros e He.
  assert (Hle : (list_max (map depth p) <= f)%nat) by lia.
  apply list_max_le in Hle. rewrite Forall_forall in Hle.
  apply Hle, in_map, He.
Qed.

Lemma named_End : named TAG_End.
Proof.
  repeat split; simpl; lia.
Qed.

Lemma reads_instantiate :
  forall (fuel : nat) (t : NBT),
    decodable t -> (depth t < fuel)%nat ->
    reads (instantiate fuel (class_of t) (nameLength t) (name t))
      (layout_payload t) t.
Proof.
  induction fuel as [| f IH]; intros t Hc Hfuel; [lia |].
  cbn [instantiate]. unfold layout_payload.
  tag_cases t; cbn [class_of nameLength name instantiate_class payload_with];
    cbn [decodable] in Hc; try contradiction.
  - apply reads_lift.
  - destruct Hc as [Hp Hz]. rewrite Hp at 2.
    apply reads_bind_nil with (number_of_Z (truncate p));
      [now apply reads_Byte |].
    rewrite new_TAG_Byte_of_Z by exact Hz. apply reads_lift.
  - destruct Hc as [Hp Hz]. rewrite Hp at 2.
    apply reads_bind_nil with (number_of_Z (truncate p));
      [now apply reads_Short |].
    rewrite new_TAG_Short_of_Z by exact Hz. apply reads_lift.
  - destruct Hc as [Hp Hz]. rewrite Hp at 2.
    apply reads_bind_nil with (number_of_Z (truncate p));
      [now apply reads_Int |].
    rewrite new_TAG_Int_of_Z by exact Hz. apply reads_lift.
  - apply reads_bind_nil with p; [now apply reads_Long |].
    rewrite new_TAG_Long_signed by exact Hc. apply reads_lift.
  - destruct Hc as [(b & Hb & ->) Hint].
    apply reads_bind_nil with (float_of_bits 23 8 b); [now apply reads_Float |].
    unfold new_TAG_Float. rewrite Hint. apply reads_lift.
  - destruct Hc as [(b & Hb & ->) Hint].
    apply reads_bind_nil with (float_of_bits 52 11 b); [now apply reads_Double |].
    unfold new_TAG_Double. rewrite Hint. apply reads_lift.
  - destruct Hc as [Hlen Hp].
    apply reads_bind_nil with p; [now apply reads_Byte_Array |].
    apply reads_lift.
  - apply reads_bind_nil with p; [now apply reads_String |].
    apply reads_lift.
  - destruct Hc as (Hty & Hlen & -> & Hall).
    apply decodable_elements in Hall.
    cbn [depth] in Hfuel. apply Nat.succ_lt_mono in Hfuel.
    assert (Hdepth : Forall (fun e => (depth e < f)%nat) p).
    { destruct f as [| f']; [lia |].
      eapply Forall_impl; [| apply list_max_depth, Hfuel].
      intros e He. cbv beta in He. lia. }
    apply reads_bind_nil with (ty, p).
    + apply reads_List; [exact Hty | exact Hlen |].
      rewrite Forall_forall in *. intros e He.
      destruct (Hall e He) as (Hid & Hnl & Hnm & Hdec).
      split; [exact Hid |].
      rewrite <- Hnl, <- Hnm. apply IH; [exact Hdec | now apply Hdepth].
    + cbn [fst snd]. rewrite new_TAG_List_canonical; [apply reads_lift |].
      eapply Forall_impl; [| exact Hall]. now intros e (He1 & He2 & _).
  - destruct Hc as (-> & Hmembers).
    apply decodable_members in Hmembers.
    destruct Hmembers as (init & -> & Hinit).
    cbn [depth] in Hfuel. apply Nat.succ_lt_mono in Hfuel.
    assert (Hdepth : Forall (fun e => (depth e < f)%nat) (init ++ [TAG_End])).
    { destruct f as [| f']; [lia |].
      eapply Forall_impl; [| apply list_max_depth with (f := f'); lia].
      intros e He. cbv beta in He. lia. }
    apply reads_bind_nil with (init ++ [TAG_End]).
    + change (init ++ [TAG_End]) with ([] ++ (init ++ [TAG_End])) at 2.
      apply reads_Compound.
      * apply Forall_app. apply Forall_app in Hdepth. destruct Hdepth as [Hd1 Hd2].
        split.
        -- rewrite Forall_forall in *. intros m Hm.
           destruct (Hinit m Hm) as (Hid & Hnamed & Hdec).
           apply reads_parseNBT_body; [exact Hnamed |].
           apply IH; [exact Hdec | now apply Hd1].
        -- constructor; [| constructor].
           apply reads_parseNBT_body; [apply named_End |].
           apply IH; [exact I |]. now apply Forall_inv in Hd2.
      * exists init. split; [reflexivity |].
        eapply Forall_impl; [| exact Hinit]. now intros m (Hm & _).
      * lia.
    + rewrite new_TAG_Compound_ends. apply reads_lift.
  - destruct Hc as [Hlen Hp].
    apply reads_bind_nil with p; [now apply reads_Int_Array |].
    apply reads_lift.
  - destruct Hc as [Hlen Hp].
    apply reads_bind_nil with p; [now apply reads_Long_Array |].
    apply reads_lift.
Qed.

Lemma compound_free_short_names : forall t, compound_free t = true -> short_names t = true.
Proof.
  fix IH 1. intros t Hc.
  tag_cases t; try reflexivity; cbn [compound_free] in Hc; try discriminate.
  cbn [short_names].
  revert p Hc. fix IHl 1. intros [| e rest] Hc; [reflexivity |].
  cbn [forallb] in *. apply andb_true_iff in Hc. destruct Hc as [He Hrest].
  rewrite (IH e He), (IHl rest Hrest). reflexivity.
Qed.

Lemma compound_free_payload (h1 h2 : NBT -> list byte) :
  forall t, compound_free t = true -> payload_with h1 t = payload_with h2 t.
Proof.
  fix IH 1. intros t Hc.
  tag_cases t; try reflexivity; cbn [compound_free] in Hc; try discriminate.
  cbn [payload_with]. f_equal.
  revert p Hc. fix IHl 1. intros [| e rest] Hc; [reflexivity |].
  cbn [forallb] in Hc. apply andb_true_iff in Hc. destruct Hc as [He Hrest].
  cbn [flat_map]. rewrite (IH e He), (IHl rest Hrest). reflexivity.
Qed.



(** X12. [parseNBT] reads the NBT layout.  For a tag of any class that
    the constructors accept, whose names are what their headers hold, the
    bytes of its layout (id, length of the name on two bytes, name, payload; a list as
    element type, count and the payloads of its elements; a compound as
    its members, each with its header, up to the End) are decoded to that
    very tag, the cursor stopping behind them, whatever bytes come before
    and after, with fuel above the nesting of the tag. *)
Theorem parseNBT_layout (fuel : nat) (t : NBT) (pre post : list byte) :
  decodable t -> named t -> (depth t < fuel)%nat ->
  parseNBT fuel (on (pre ++ layout t ++ post) (Z.of_nat (List.length pre)))
  = (Ok t,
     on (pre ++ layout t ++ post)
       (Z.of_nat (List.length pre) + Z.of_nat (List.length (layout t)))).
Proof.
  intros Hdec Hnamed Hfuel. revert pre post.
  change (reads (parseNBT fuel) (layout t) t).
  apply reads_parseNBT_body; [exact Hnamed | now apply reads_instantiate].
Qed.

Lemma parseNBT_layout_witness :
  let t := TAG_Compound 0 [] 7 [TAG_Byte 1 (of_string "a") (number_of_Z 5); TAG_End] in
  parseNBT 4 (on (bytes_of [238; 10; 0; 0; 1; 0; 1; 97; 5; 0; 255]) 1)
  = (Ok t, on (bytes_of [238; 10; 0; 0; 1; 0; 1; 97; 5; 0; 255]) 10).
Proof.
  intros t.
  apply (parseNBT_layout 4 t (bytes_of [238]) (bytes_of [255])).
  - split; [reflexivity |]. split; [| reflexivity].
    split; [discriminate |]. split; [repeat split; reflexivity |].
    split; [reflexivity |].
    change (truncate (number_of_Z 5)) with 5. unfold signed. simpl. lia.
  - repeat split; reflexivity.
  - simpl. lia.
Defined.



(** ** Names the header has no room for *)

Lemma put_bytes_in data (i : Z) (bs : list byte) (s : stream) :
  0 <= i -> i + Z.of_nat (List.length bs) <= dv_byteLength data ->
  put_bytes data i bs s
  = (Ok tt, {| buffer := overwrite (buffer s) (dv_byteOffset data + i) bs;
               byteOffset := byteOffset s |}).
Proof.
  intros Hi Hfit. unfold put_bytes.
  destruct (i <? 0) eqn:E1; to_Prop; [lia |].
  destruct (_ <? _) eqn:E2; to_Prop; [lia | reflexivity].
Qed.

Lemma put_bytes_out data (i : Z) (bs : list byte) (s : stream) :
  0 <= i -> dv_byteLength data < i + Z.of_nat (List.length bs) ->
  put_bytes data i bs s = (Throw (RangeError OutOfBounds), s).
Proof.
  intros Hi Hfit. unfold put_bytes.
  destruct (i <? 0) eqn:E1; to_Prop; [lia |].
  destruct (_ <? _) eqn:E2; to_Prop; [reflexivity | lia].
Qed.

Lemma header_long_name (i nl : Z) (nm : list byte) (s : stream) :
  (2 < List.length nm)%nat ->
  exists cause s',
    (off <- get_byteOffset ;;
     data <- new_DataView off (1 + 2 + headerLength) ;;
     setUint8 data 0 i ;;
     setUint32 data 1 nl LITTLE_ENDIAN ;;
     for_indexed nm (fun idx b => setUint8 data (3 + idx) (u8 b)) ;;
     advance (dv_byteLength data)) s
    = (Throw (RangeError cause), s') /\
    byteOffset s' = byteOffset s.
Proof.
  intros Hnm.
  destruct nm as [| a [| b [| c nm]]]; cbn [List.length] in Hnm; try lia.
  unfold bind at 1, get_byteOffset. unfold bind at 1, new_DataView.
  destruct (_ || _); [eexists _, _; split; reflexivity |].
  destruct (_ <? _); [eexists _, _; split; reflexivity |].
  unfold for_indexed, indices. rewrite Nat2Z.id.
  cbn [List.length seq map combine forM_ fst snd].
  unfold setUint8, setUint32, setInt, endian, LITTLE_ENDIAN.
  unfold bind.
  repeat (rewrite put_bytes_in
            by (cbn [dv_byteLength]; rewrite ?length_be_bytes; simpl; lia)).
  rewrite put_bytes_out
    by (cbn [dv_byteLength]; rewrite ?length_be_bytes; simpl; lia).
  eexists _, _. split; reflexivity.
Qed.

(** X14. A name of more than two bytes of UTF-8 cannot be written: for
    every tag but End that has one, [toBytes] throws a RangeError, on any
    stream, and leaves the cursor where it was. *)
Theorem toBytes_long_name (t : NBT) (s : stream) :
  id t <> 0 -> (2 < List.length (utf8Encode (name t)))%nat ->
  exists cause s',
    toBytes t s = (Throw (RangeError cause), s') /\
    byteOffset s' = byteOffset s.
Proof.
  intros Hid Hnm.
  assert (H : exists cause s',
            writeHeader t s = (Throw (RangeError cause), s') /\
            byteOffset s' = byteOffset s).
  { tag_cases t; [now contradiction Hid | ..];
      apply header_long_name; exact Hnm. }
  destruct H as (cause & s' & H & Hoff).
  exists cause, s'. split; [| exact Hoff].
  unfold toBytes, bind. now rewrite H.
Qed.

Lemma toBytes_long_name_witness :
  exists cause s',
    toBytes (TAG_Byte 3 (of_string "abc") (number_of_Z 5)) (new_stream 9)
    = (Throw (RangeError cause), s') /\
    byteOffset s' = byteOffset (new_stream 9).
Proof.
  apply (toBytes_long_name (TAG_Byte 3 (of_string "abc") (number_of_Z 5))
           (new_stream 9)).
  - discriminate.
  - simpl. lia.
Defined.

(** ** Lists of an unknown element type *)

Lemma indices_positive (n : Z) :
  0 < n -> exists rest, indices n = 0 :: rest.
Proof.
  intros Hn. unfold indices.
  destruct (Z.to_nat n) as [| k] eqn:E; [lia |].
  cbn [seq map]. eexists. reflexivity.
Qed.

(** X15. A list of an element type that is no tag id.  When the type
    byte of a list payload is outside 0..12, the reader accepts the list
    if its count is 0, keeping the type byte; with a positive count it
    fails with a TypeError, not with the error [parseNBT] has for an
    unknown id; with a negative count it fails with the RangeError of
    [new Array]. *)
Theorem List_of_unknown_type
    (f : nat) (nl : Z) (nm : jsstring) (b : byte) (n : Z) (pre post : list byte) :
  TAG_ID_TO_CLASS (u8 b) = None -> signed 32 n ->
  fst (instantiate (S f) Class_List nl nm
         (on (pre ++ (b :: be_bytes 4 n) ++ post) (Z.of_nat (List.length pre))))
  = if n =? 0 then Ok (TAG_List nl nm (u8 b) 5 [])
    else if n <? 0 then Throw (RangeError InvalidLength)
    else Throw TypeError.
Proof.
  intros Hty Hn.
  assert (Hb : reads (off <- post_increment ;;
                      data <- new_DataView off 1 ;;
                      getUint8 data 0) [b] (u8 b)).
  { rewrite <- (byte_of_Z_u8 b) at 1.
    apply reads_byte_field. intros view s pre' post' Hbuf Hoff Hview.
    pose proof (u8_range b).
    apply (getUint_at 1) with pre' post'; auto; simpl; lia. }
  assert (Hcount : reads (off <- get_byteOffset ;;
                          data <- new_DataView off 4 ;;
                          v <- getInt32 data 0 LITTLE_ENDIAN ;;
                          advance 4 ;;
                          ret v) (be_bytes 4 n) n)
    by (apply (reads_int_field 4); [lia | exact Hn]).
  cbn [instantiate instantiate_class].
  set (inst := instantiate f).
  set (s := on _ _).
  assert (Hrun : TAG_List_readPayload inst s
                 = (new_Array n ;;
                    res <- mapM (fun _ =>
                                   match TAG_ID_TO_CLASS (u8 b) with
                                   | Some tagClass => inst tagClass 0 []
                                   | None => throw TypeError
                                   end) (indices n) ;;
                    ret (u8 b, res))
                     (on (pre ++ (b :: be_bytes 4 n) ++ post)
                        (Z.of_nat (List.length pre) + 1 + 4))).
  { transitivity
      ((tagType <- (off <- post_increment ;;
                    data <- new_DataView off 1 ;;
                    getUint8 data 0) ;;
        payloadLength <- (off <- get_byteOffset ;;
                          data <- new_DataView off 4 ;;
                          v <- getInt32 data 0 LITTLE_ENDIAN ;;
                          advance 4 ;;
                          ret v) ;;
        new_Array payloadLength ;;
        res <- mapM (fun _ =>
                       match TAG_ID_TO_CLASS tagType with
                       | Some tagClass => inst tagClass 0 []
                       | None => throw TypeError
                       end) (indices payloadLength) ;;
        ret (tagType, res)) s).
    { generalize s. unfold TAG_List_readPayload. regroup. }
    subst s. unfold bind at 1.
    change (pre ++ (b :: be_bytes 4 n) ++ post)
      with (pre ++ [b] ++ be_bytes 4 n ++ post).
    rewrite (Hb pre (be_bytes 4 n ++ post)).
    unfold bind at 1.
    replace (on (pre ++ [b] ++ be_bytes 4 n ++ post)
               (Z.of_nat (List.length pre) + Z.of_nat (List.length [b])))
      with (on ((pre ++ [b]) ++ be_bytes 4 n ++ post)
              (Z.of_nat (List.length (pre ++ [b]))))
      by (rewrite length_app, Nat2Z.inj_add, <- app_assoc; reflexivity).
    rewrite (Hcount (pre ++ [b]) post).
    rewrite length_app, length_be_bytes, Nat2Z.inj_add, <- app_assoc.
    reflexivity. }
  unfold bind at 1. rewrite Hrun. rewrite Hty.
  unfold bind at 1, new_Array.
  destruct (n <? 0) eqn:E1; to_Prop.
  - destruct (n =? 0) eqn:E0; [apply Z.eqb_eq in E0; lia | reflexivity].
  - destruct (n =? 0) eqn:E0.
    + apply Z.eqb_eq in E0. subst n. reflexivity.
    + apply Z.eqb_neq in E0.
      destruct (indices_positive n) as [rest ->]; [lia |].
      reflexivity.
Qed.

Lemma List_of_unknown_type_witness :
  fst (instantiate 1 Class_List 0 []
         (on (bytes_of [9; 0; 0] ++ (byte_of_Z 200 :: be_bytes 4 2) ++ bytes_of [7; 7]) 3))
  = Throw TypeError.
Proof.
  apply (List_of_unknown_type 0 0 [] (byte_of_Z 200) 2
           (bytes_of [9; 0; 0]) (bytes_of [7; 7])).
  - reflexivity.
  - unfold signed. simpl. lia.
Defined.

(** ** Integer payloads *)

Lemma getInt_in (n : nat) (view : DataView) (i : Z) (s : stream) :
  (0 < n)%nat -> 0 <= i -> i + Z.of_nat n <= dv_byteLength view ->
  exists z, getInt n view i false s = (Ok z, s) /\ signed (8 * Z.of_nat n) z.
Proof.
  intros Hn Hi Hfit. unfold getInt, getUint, bind, get_bytes.
  destruct (i <? 0) eqn:E1; to_Prop; [lia |].
  destruct (_ <? _) eqn:E2; to_Prop; [lia |].
  eexists. split; [reflexivity |]. apply wrap_signed_range. lia.
Qed.

(** X16. Integer payloads always decode.  With the bytes of the payload
    in the buffer, the reader builds a Byte, Short, Int or Long tag from
    any 1, 2, 4 or 8 bytes: the range checks of these constructors never
    fire on a value read, and the cursor moves by the width. *)
Theorem integer_payload_decodes
    (f : nat) (c : tagClass) (w : Z) (nl : Z) (nm : jsstring) (s : stream) :
  In (c, w) [(Class_Byte, 1); (Class_Short, 2); (Class_Int, 4); (Class_Long, 8)] ->
  0 <= byteOffset s -> byteOffset s + w <= byteLength s ->
  exists t,
    instantiate (S f) c nl nm s = (Ok t, on (buffer s) (byteOffset s + w)) /\
    id t = class_id c /\ nameLength t = nl /\ name t = nm.
Proof.
  intros Hc Hoff Hfit. cbn [instantiate].
  destruct Hc as [Hc | [Hc | [Hc | [Hc | []]]]]; injection Hc as <- <-;
    cbn [instantiate_class];
    unfold TAG_Byte_readPayload, TAG_Short_readPayload, TAG_Int_readPayload,
      TAG_Long_readPayload;
    unfold bind at 1 2, get_byteOffset, post_increment;
    unfold bind at 1;
    rewrite new_DataView_fits by (unfold byteLength in *; cbn [buffer]; lia);
    unfold bind at 1, getInt8, getInt16, getInt32, getBigInt64, LITTLE_ENDIAN.
  - destruct (getInt_in 1 {| dv_byteOffset := byteOffset s; dv_byteLength := 1 |} 0
                {| buffer := buffer s; byteOffset := byteOffset s + 1 |})
      as (z & -> & Hz); [lia | lia | cbn [dv_byteLength]; lia |].
    unfold bind, ret, lift. rewrite new_TAG_Byte_of_Z by exact Hz.
    eexists. repeat split.
  - destruct (getInt_in 2 {| dv_byteOffset := byteOffset s; dv_byteLength := 2 |} 0 s)
      as (z & -> & Hz); [lia | lia | cbn [dv_byteLength]; lia |].
    unfold bind, ret, lift, advance. rewrite new_TAG_Short_of_Z by exact Hz.
    eexists. repeat split.
  - destruct (getInt_in 4 {| dv_byteOffset := byteOffset s; dv_byteLength := 4 |} 0 s)
      as (z & -> & Hz); [lia | lia | cbn [dv_byteLength]; lia |].
    unfold bind, ret, lift, advance. rewrite new_TAG_Int_of_Z by exact Hz.
    eexists. repeat split.
  - destruct (getInt_in 8 {| dv_byteOffset := byteOffset s; dv_byteLength := 8 |} 0 s)
      as (z & -> & Hz); [lia | lia | cbn [dv_byteLength]; lia |].
    unfold bind, ret, lift, advance. rewrite new_TAG_Long_signed by exact Hz.
    eexists. repeat split.
Qed.

Lemma integer_payload_decodes_witness :
  exists t,
    instantiate 1 Class_Short 0 [] (on (bytes_of [7; 255; 254; 9]) 1)
    = (Ok t, on (bytes_of [7; 255; 254; 9]) 3) /\
    id t = 2 /\ nameLength t = 0 /\ name t = [].
Proof.
  apply (integer_payload_decodes 0 Class_Short 2 0 []
           (on (bytes_of [7; 255; 254; 9]) 1)).
  - simpl. auto.
  - simpl. lia.
  - unfold byteLength. simpl. lia.
Defined.

(** ** Room for a tag *)

Lemma writes_anywhere (m : M unit) (bs : list byte) (s : stream) :
  writes m bs ->
  0 <= byteOffset s ->
  byteOffset s + Z.of_nat (List.length bs) <= byteLength s ->
  m s = (Ok tt, on (overwrite (buffer s) (byteOffset s) bs)
                  (byteOffset s + Z.of_nat (List.length bs))).
Proof.
  intros Hm Hoff Hfit. destruct s as [buf off]. unfold byteLength in Hfit.
  cbn [buffer byteOffset] in *.
  set (o := Z.to_nat off). set (n := List.length bs).
  assert (Hbuf : buf = firstn o buf ++ firstn n (skipn o buf) ++ skipn n (skipn o buf))
    by (now rewrite !firstn_skipn).
  assert (Hpre : List.length (firstn o buf) = o)
    by (rewrite length_firstn; lia).
  assert (Hold : List.length (firstn n (skipn o buf)) = n)
    by (rewrite length_firstn, length_skipn; lia).
  specialize (Hm (firstn o buf) (firstn n (skipn o buf)) (skipn n (skipn o buf)) Hold).
  rewrite <- Hbuf, Hpre in Hm.
  replace (Z.of_nat o) with off in Hm by lia.
  fold (on buf off). rewrite Hm. unfold overwrite. fold o n.
  rewrite skipn_skipn, (Nat.add_comm n o). reflexivity.
Qed.

Lemma getHeaderLength_pos (t : NBT) : 0 < getHeaderLength t.
Proof.
  destruct t; simpl; lia.
Qed.

Lemma length_payload_bytes :
  forall t, short_names t = true -> cached t = true ->
    0 <= getPayloadLength t /\
    Z.of_nat (List.length (payload_bytes t)) <= getPayloadLength t.
Proof.
  assert (Harray : forall (w : nat) (p : list Z),
            0 <= 4 + Z.of_nat (List.length p) * Z.of_nat w /\
            Z.of_nat (List.length (be_bytes 4 (Z.of_nat (List.length p))
                                     ++ flat_map (be_bytes w) p))
            <= 4 + Z.of_nat (List.length p) * Z.of_nat w).
  { intros w p.
    rewrite length_app, length_be_bytes,
      (length_flat_map_fixed _ w) by (intros; apply length_be_bytes).
    lia. }
  fix IH 1. intros t Hshort Hcached. unfold payload_bytes.
  tag_cases t; cbn [payload_with getPayloadLength].
  1-7: cbn [List.length be_bytes app]; lia.
  - generalize (Harray 1%nat p). lia.
  - rewrite length_app, length_be_bytes. lia.
  - cbn [short_names cached] in *.
    apply andb_true_iff in Hcached. destruct Hcached as [Hlen Hcached].
    apply Z.eqb_eq in Hlen. subst len.
    rewrite length_app. cbn [List.length]. rewrite length_be_bytes.
    enough (0 <= sum_total_lengths p /\
            Z.of_nat (List.length (flat_map (payload_with header_bytes) p))
            <= sum_total_lengths p) by lia.
    revert p Hshort Hcached. fix IHl 1. intros [| e rest] Hshort Hcached.
    + cbn. lia.
    + cbn [forallb] in *.
      apply andb_true_iff in Hshort. destruct Hshort as [He1 Hr1].
      apply andb_true_iff in Hcached. destruct Hcached as [He2 Hr2].
      rewrite sum_total_lengths_cons. cbn [flat_map]. rewrite length_app.
      pose proof (IH e He1 He2) as He. unfold payload_bytes in He.
      pose proof (IHl rest Hr1 Hr2) as Hrest.
      pose proof (getHeaderLength_pos e). unfold getTotalLength. lia.
  - cbn [short_names cached] in *.
    apply andb_true_iff in Hcached. destruct Hcached as [Hlen Hcached].
    apply Z.eqb_eq in Hlen. subst len.
    revert p Hshort Hcached. fix IHl 1. intros [| e rest] Hshort Hcached.
    + cbn. lia.
    + cbn [forallb] in *.
      apply andb_true_iff in Hshort. destruct Hshort as [He1 Hr1].
      apply andb_true_iff in He1. destruct He1 as [Hname He1].
      apply andb_true_iff in Hcached. destruct Hcached as [He2 Hr2].
      rewrite sum_total_lengths_cons. cbn [flat_map]. rewrite !length_app.
      pose proof (IH e He1 He2) as He. unfold payload_bytes in He.
      pose proof (IHl rest Hr1 Hr2) as Hrest.
      rewrite (length_header_bytes e Hname).
      pose proof (getHeaderLength_pos e). unfold getTotalLength. lia.
  - generalize (Harray 4%nat p). lia.
  - generalize (Harray 8%nat p). lia.
Qed.

(** X17. [getTotalLength] bytes are room enough.  For a tag whose names
    the header has room for and whose lists and compounds hold the length
    their constructor caches, [toBytes] returns on every stream that has
    [getTotalLength] bytes from the cursor on; it leaves the length of the
    buffer as it was and the cursor at most [getTotalLength] further. *)
Theorem toBytes_fits (t : NBT) (s : stream) :
  short_name t = true -> short_names t = true -> cached t = true ->
  0 <= byteOffset s -> byteOffset s + getTotalLength t <= byteLength s ->
  exists s',
    toBytes t s = (Ok tt, s') /\
    byteLength s' = byteLength s /\
    byteOffset s <= byteOffset s' <= byteOffset s + getTotalLength t.
Proof.
  intros Hname Hshort Hcached Hoff Hfit.
  assert (Hlen : Z.of_nat (List.length (tag_bytes t)) <= getTotalLength t).
  { unfold tag_bytes, getTotalLength.
    rewrite length_app, (length_header_bytes t Hname).
    pose proof (length_payload_bytes t Hshort Hcached).
    pose proof (getHeaderLength_pos t). lia. }
  eexists. split; [| split].
  - apply writes_anywhere with (bs := tag_bytes t); [| exact Hoff | lia].
    apply writes_seq; [now apply writes_writeHeader | now apply writes_writePayload].
  - unfold byteLength in *. cbn [on buffer].
    replace (byteOffset s) with (Z.of_nat (Z.to_nat (byteOffset s))) by lia.
    rewrite length_overwrite; [reflexivity | lia].
  - cbn [on byteOffset]. lia.
Qed.

Lemma toBytes_fits_witness :
  let t := TAG_List 0 [] 1 11 [TAG_Byte 0 [] (number_of_Z 7)] in
  exists s',
    toBytes t (new_stream 18) = (Ok tt, s') /\
    byteLength s' = byteLength (new_stream 18) /\
    byteOffset (new_stream 18) <= byteOffset s'
      <= byteOffset (new_stream 18) + getTotalLength t.
Proof.
  intros t. apply (toBytes_fits t (new_stream 18)).
  all: try reflexivity.
  all: unfold byteLength; simpl; lia.
Defined.

(** ** What is thrown *)

Lemma throws_in_ret {X} (A : exn -> Prop) (a : X) : throws_in A (ret a).
Proof.
  intros s e s' E. discriminate E.
Qed.

Lemma throws_in_throw {X} (A : exn -> Prop) (e : exn) :
  A e -> throws_in A (@throw X e).
Proof.
  intros H s e' s' E. injection E as <- _. exact H.
Qed.

Lemma throws_in_out_of_fuel {X} (A : exn -> Prop) : throws_in A (@out_of_fuel X).
Proof.
  intros s e s' E. discriminate E.
Qed.

Lemma throws_in_lift {X} (A : exn -> Prop) (o : outcome X) :
  (forall e, o = Throw e -> A e) -> throws_in A (lift o).
Proof.
  intros H s e s' E. unfold lift in E. injection E as -> _. now apply H.
Qed.

Lemma throws_in_bind1 {X Y} (A : exn -> Prop) (P : X -> Prop)
    (m : M X) (f : X -> M Y) :
  throws_in A m -> ensures P m -> (forall a, P a -> throws_in A (f a)) ->
  throws_in A (bind m f).
Proof.
  intros Hm HP Hf s e s' E. unfold bind in E.
  destruct (m s) as [[a | e0 |] s1] eqn:Em.
  - exact (Hf a (HP _ _ _ Em) _ _ _ E).
  - injection E as <- _. exact (Hm _ _ _ Em).
  - discriminate E.
Qed.

Lemma throws_in_bind {X Y} (A : exn -> Prop) (m : M X) (f : X -> M Y) :
  throws_in A m -> (forall a, throws_in A (f a)) -> throws_in A (bind m f).
Proof.
  intros Hm Hf. apply (throws_in_bind1 A (fun _ => True)); [exact Hm | easy | auto].
Qed.

Lemma throws_in_mapM {X Y} (A : exn -> Prop) (f : X -> M Y) (l : list X) :
  (forall a, throws_in A (f a)) -> throws_in A (mapM f l).
Proof.
  intros Hf. induction l as [| a l IH]; simpl.
  - apply throws_in_ret.
  - apply throws_in_bind; [apply Hf | intros b].
    apply throws_in_bind; [apply IH | intros bs; apply throws_in_ret].
Qed.

Lemma throws_in_forM_ {X} (A : exn -> Prop) (l : list X) (f : X -> M unit) :
  (forall a, throws_in A (f a)) -> throws_in A (forM_ l f).
Proof.
  intros Hf. induction l as [| a l IH]; simpl.
  - apply throws_in_ret.
  - apply throws_in_bind; [apply Hf | intros _; apply IH].
Qed.

Section Platform.

(** The platform throws RangeErrors only. *)
Variable A : exn -> Prop.
Hypothesis A_RangeError : forall cause, A (RangeError cause).

Lemma throws_in_get_byteOffset : throws_in A get_byteOffset.
Proof.
  intros s e s' E. discriminate E.
Qed.

Lemma throws_in_get_byteLength : throws_in A get_byteLength.
Proof.
  intros s e s' E. discriminate E.
Qed.

Lemma throws_in_post_increment : throws_in A post_increment.
Proof.
  intros s e s' E. discriminate E.
Qed.

Lemma throws_in_advance (n : Z) : throws_in A (advance n).
Proof.
  intros s e s' E. discriminate E.
Qed.

Lemma throws_in_new_DataView (off len : Z) : throws_in A (new_DataView off len).
Proof.
  intros s e s' E. unfold new_DataView in E.
  destruct (_ || _); [injection E as <- _; apply A_RangeError |].
  destruct (_ <? _); [injection E as <- _; apply A_RangeError | discriminate E].
Qed.

Lemma throws_in_new_Uint8Array (off len : Z) : throws_in A (new_Uint8Array off len).
Proof.
  intros s e s' E. unfold new_Uint8Array in E.
  destruct (_ || _); [injection E as <- _; apply A_RangeError |].
  destruct (_ <? _); [injection E as <- _; apply A_RangeError | discriminate E].
Qed.

Lemma throws_in_new_Int8Array (off len : Z) : throws_in A (new_Int8Array off len).
Proof.
  apply throws_in_bind; [apply throws_in_new_Uint8Array |].
  intros bs. apply throws_in_ret.
Qed.

Lemma throws_in_new_Array (n : Z) : throws_in A (new_Array n).
Proof.
  unfold new_Array. destruct (n <? 0);
    [apply throws_in_throw, A_RangeError | apply throws_in_ret].
Qed.

Lemma throws_in_get_bytes data (i n : Z) : throws_in A (get_bytes data i n).
Proof.
  intros s e s' E. unfold get_bytes in E.
  destruct (_ <? _); [injection E as <- _; apply A_RangeError |].
  destruct (_ <? _); [injection E as <- _; apply A_RangeError | discriminate E].
Qed.

Lemma throws_in_put_bytes data (i : Z) (bs : list byte) :
  throws_in A (put_bytes data i bs).
Proof.
  intros s e s' E. unfold put_bytes in E.
  destruct (_ <? _); [injection E as <- _; apply A_RangeError |].
  destruct (_ <? _); [injection E as <- _; apply A_RangeError | discriminate E].
Qed.

Lemma throws_in_getUint (n : nat) data (i : Z) (le : bool) :
  throws_in A (getUint n data i le).
Proof.
  apply throws_in_bind; [apply throws_in_get_bytes | intros bs; apply throws_in_ret].
Qed.

Lemma throws_in_getInt (n : nat) data (i : Z) (le : bool) :
  throws_in A (getInt n data i le).
Proof.
  apply throws_in_bind; [apply throws_in_getUint | intros v; apply throws_in_ret].
Qed.

Lemma throws_in_setInt (n : nat) data (i v : Z) (le : bool) :
  throws_in A (setInt n data i v le).
Proof.
  apply throws_in_put_bytes.
Qed.

Lemma throws_in_for_indexed {X} (a : list X) (f : Z -> X -> M unit) :
  (forall i x, throws_in A (f i x)) -> throws_in A (for_indexed a f).
Proof.
  intros Hf. apply throws_in_forM_. intros p. apply Hf.
Qed.

Lemma throws_in_arrayFromDataView (view : DataView) (dataSize len : Z) :
  dataSize = 32 \/ dataSize = 64 ->
  throws_in A (_arrayFromDataView view dataSize len 0).
Proof.
  intros [-> | ->]; unfold _arrayFromDataView; cbn [Z.eqb Pos.eqb negb andb];
    (apply throws_in_bind; [apply throws_in_new_Array | intros _]);
    apply throws_in_mapM; intros i; apply throws_in_getInt.
Qed.

End Platform.

(** A tactic for the readers and writers that call the platform only. *)
Ltac platform_throws HA :=
  repeat first
    [ apply throws_in_ret
    | apply throws_in_get_byteOffset
    | apply throws_in_get_byteLength
    | apply throws_in_post_increment
    | apply throws_in_advance
    | apply (throws_in_new_DataView _ HA)
    | apply (throws_in_new_Uint8Array _ HA)
    | apply (throws_in_new_Int8Array _ HA)
    | apply (throws_in_new_Array _ HA)
    | apply (throws_in_getInt _ HA)
    | apply (throws_in_getUint _ HA)
    | apply (throws_in_setInt _ HA)
    | apply (throws_in_arrayFromDataView _ HA); auto
    | apply (throws_in_for_indexed _); intros ? ?
    | apply throws_in_bind; [| intros ?] ].

Lemma writer_RangeError (cause : range_cause) : writer_exception (RangeError cause).
Proof.
  exact I.
Qed.

Lemma reader_RangeError (cause : range_cause) : reader_exception (RangeError cause).
Proof.
  exact I.
Qed.

Lemma throws_in_writeHeader (t : NBT) : throws_in writer_exception (writeHeader t).
Proof.
  destruct t; unfold writeHeader, setUint8, setUint32;
    platform_throws writer_RangeError.
Qed.

Lemma throws_in_writePayload :
  forall t, throws_in writer_exception (writePayload t).
Proof.
  fix IH 1. intros t.
  tag_cases t; cbn [writePayload];
    unfold with_payload_view, setInt8, setInt16, setInt32, setBigInt64,
      setUint8, setUint16, setFloat32, setFloat64;
    platform_throws writer_RangeError.
  - induction p as [| e rest IHl]; [apply throws_in_ret |].
    apply throws_in_bind; [apply IH | intros _; exact IHl].
  - induction p as [| e rest IHl]; [apply throws_in_ret |].
    apply throws_in_bind; [| intros _; exact IHl].
    apply throws_in_bind; [apply throws_in_writeHeader | intros _; apply IH].
Qed.

(** X19. The writer throws RangeErrors only: whatever [toBytes] throws,
    on any tag and any stream, is the RangeError of a view or of a store
    that leaves its buffer or view.  No payload, name or length makes it
    throw anything else. *)
Theorem toBytes_throws_RangeError (t : NBT) (s s' : stream) (e : exn) :
  toBytes t s = (Throw e, s') -> exists cause, e = RangeError cause.
Proof.
  intros E.
  assert (H : writer_exception e).
  { revert E. apply (throws_in_bind writer_exception);
      [apply throws_in_writeHeader | intros _; apply throws_in_writePayload]. }
  destruct e; try contradiction. eauto.
Qed.

Lemma toBytes_throws_RangeError_witness :
  exists cause, RangeError OutOfBounds = RangeError cause.
Proof.
  apply (toBytes_throws_RangeError (TAG_Int 0 [] (number_of_Z 7))
           (new_stream 8) (on (bytes_of [3; 0; 0; 0; 0; 0; 0; 0]) 5)).
  reflexivity.
Defined.

Lemma reader_invalid_payload : reader_exception invalid_payload.
Proof.
  simpl. auto.
Qed.

Lemma throws_in_getNBTName : throws_in reader_exception _getNBTName.
Proof.
  unfold _getNBTName, getUint16. platform_throws reader_RangeError.
Qed.

Section Thrown.

Variable instantiate' : tagClass -> Z -> jsstring -> M NBT.
Variable parse' : M NBT.
Hypothesis ensures_instantiate' :
  forall c nl nm, 0 <= nl < 65536 -> ensures (built c nl nm) (instantiate' c nl nm).
Hypothesis ensures_parse' : ensures well_formed parse'.
Hypothesis throws_instantiate' :
  forall c nl nm, throws_in reader_exception (instantiate' c nl nm).
Hypothesis throws_parse' : throws_in reader_exception parse'.

Lemma throws_in_List :
  throws_in reader_exception (TAG_List_readPayload instantiate').
Proof.
  unfold TAG_List_readPayload, getUint8, getInt32.
  do 8 (apply throws_in_bind; [platform_throws reader_RangeError | intros ?]).
  apply throws_in_bind; [| intros ?; apply throws_in_ret].
  apply throws_in_mapM. intros _.
  destruct (TAG_ID_TO_CLASS _);
    [apply throws_instantiate' | apply throws_in_throw; exact I].
Qed.

Lemma throws_in_Compound (n : nat) (payload : list NBT) :
  throws_in reader_exception (TAG_Compound_readPayload parse' n payload).
Proof.
  revert payload. induction n as [| n IH]; intros payload;
    cbn [TAG_Compound_readPayload].
  - apply throws_in_out_of_fuel.
  - apply throws_in_bind; [exact throws_parse' | intros tag].
    destruct (negb _); [apply IH | apply throws_in_ret].
Qed.

Lemma throws_in_instantiate_class (n : nat) (c : tagClass) (nl : Z) (nm : jsstring) :
  throws_in reader_exception (instantiate_class instantiate' parse' n c nl nm).
Proof.
  destruct c; cbn [instantiate_class].
  - apply throws_in_lift. discriminate.
  - apply throws_in_bind;
      [unfold TAG_Byte_readPayload, getInt8; platform_throws reader_RangeError |].
    intros p. apply throws_in_lift. intros e E. unfold new_TAG_Byte in E.
    destruct (_ || _); [| discriminate E].
    injection E as <-. apply reader_invalid_payload.
  - apply throws_in_bind;
      [unfold TAG_Short_readPayload, getInt16; platform_throws reader_RangeError |].
    intros p. apply throws_in_lift. intros e E. unfold new_TAG_Short in E.
    destruct (_ || _); [| discriminate E].
    injection E as <-. apply reader_invalid_payload.
  - apply throws_in_bind;
      [unfold TAG_Int_readPayload, getInt32; platform_throws reader_RangeError |].
    intros p. apply throws_in_lift. intros e E. unfold new_TAG_Int in E.
    destruct (_ || _); [| discriminate E].
    injection E as <-. apply reader_invalid_payload.
  - apply throws_in_bind;
      [unfold TAG_Long_readPayload, getBigInt64; platform_throws reader_RangeError |].
    intros p. apply throws_in_lift. intros e E. unfold new_TAG_Long in E.
    destruct (BigInt _); [| injection E as <-; exact I].
    destruct (BigInt _); [| injection E as <-; exact I].
    destruct (_ || _); [| discriminate E].
    injection E as <-. apply reader_invalid_payload.
  - apply throws_in_bind;
      [unfold TAG_Float_readPayload, getFloat32;
       platform_throws reader_RangeError |].
    intros p. apply throws_in_lift. intros e E. unfold new_TAG_Float in E.
    destruct (Number_isInteger p); [| discriminate E].
    injection E as <-. apply reader_invalid_payload.
  - apply throws_in_bind;
      [unfold TAG_Double_readPayload, getFloat64;
       platform_throws reader_RangeError |].
    intros p. apply throws_in_lift. intros e E. unfold new_TAG_Double in E.
    destruct (Number_isInteger p); [| discriminate E].
    injection E as <-. apply reader_invalid_payload.
  - apply throws_in_bind;
      [unfold TAG_Byte_Array_readPayload, getInt32;
       platform_throws reader_RangeError |].
    intros p. apply throws_in_lift. discriminate.
  - apply throws_in_bind;
      [unfold TAG_String_readPayload, getUint16;
       platform_throws reader_RangeError |].
    intros p. apply throws_in_lift. discriminate.
  - apply (throws_in_bind1 _ _ _ _ throws_in_List
             (ensures_List instantiate' ensures_instantiate')).
    intros [tagType l] Hl. cbn [fst snd] in *.
    apply throws_in_lift. intros e E.
    rewrite new_TAG_List_canonical in E; [discriminate E |].
    eapply Forall_impl; [| exact Hl]. now intros tag (H1 & H2 & _).
  - apply (throws_in_bind1 _ _ _ _ (throws_in_Compound n [])
             (ensures_Compound parse' ensures_parse' n [])).
    intros l (init & -> & _). cbn [app].
    apply throws_in_lift. intros e E.
    rewrite new_TAG_Compound_ends in E. discriminate E.
  - apply throws_in_bind;
      [unfold TAG_Int_Array_readPayload, getInt32;
       platform_throws reader_RangeError |].
    intros p. apply throws_in_lift. discriminate.
  - apply throws_in_bind;
      [unfold TAG_Long_Array_readPayload, getInt32;
       platform_throws reader_RangeError |].
    intros p. apply throws_in_lift. discriminate.
Qed.

Lemma throws_in_parseNBT_body :
  throws_in reader_exception (parseNBT_body instantiate').
Proof.
  unfold parseNBT_body, getUint8.
  do 2 (apply throws_in_bind; [platform_throws reader_RangeError | intros ?]).
  destruct (_ <=? _); [apply throws_in_throw; simpl; auto |].
  do 3 (apply throws_in_bind; [platform_throws reader_RangeError | intros ?]).
  apply throws_in_bind.
  - destruct (negb _); [apply throws_in_getNBTName | apply throws_in_ret].
  - intros [name0 nameLength0].
    destruct (TAG_ID_TO_CLASS _);
      [apply throws_instantiate' | apply throws_in_throw; simpl; auto].
Qed.

End Thrown.

Lemma throws_in_instantiate (fuel : nat) :
  forall c nl nm, throws_in reader_exception (instantiate fuel c nl nm).
Proof.
  induction fuel as [| f IH]; intros c nl nm.
  - apply throws_in_out_of_fuel.
  - cbn [instantiate]. apply throws_in_instantiate_class.
    + apply ensures_instantiate.
    + apply ensures_parseNBT_body. apply ensures_instantiate.
    + exact IH.
    + apply throws_in_parseNBT_body. exact IH.
Qed.



(** ** Names do not come back *)

Lemma header_bytes_named (t : NBT) :
  id t <> 0 -> 0 <= nameLength t < 65536 -> short_name t = true ->
  exists x y, header_bytes t = [byte_of_Z (id t); x00; x00; x; y].
Proof.
  intros Hid Hnl Hshort.
  assert (H : forall (i : Z) (nm : list byte),
            (List.length nm <= 2)%nat ->
            exists x y,
              overwrite (byte_of_Z i :: be_bytes 4 (nameLength t)) 3 nm
              = [byte_of_Z i; x00; x00; x; y]).
  { intros i nm Hnm. cbn [be_bytes app].
    replace (nameLength t / 256 / 256 / 256) with 0
      by (rewrite !Z.div_div by lia; symmetry; apply Z.div_small; lia).
    replace (nameLength t / 256 / 256) with 0
      by (rewrite !Z.div_div by lia; symmetry; apply Z.div_small; lia).
    change (byte_of_Z 0) with x00.
    destruct nm as [| a [| b [| c nm]]]; cbn [List.length] in Hnm; try lia;
      eexists _, _; reflexivity. }
  tag_cases t; [now contradiction Hid | ..];
    apply H; apply Nat.leb_le; exact Hshort.
Qed.

(** X20. A name does not survive [toBytes] and [parseNBT].  For every tag
    but End with a name length from 1 to 65535, written where there is
    room (its names fitting the header), [toBytes] returns, and whatever
    tag [parseNBT] then decodes from the offset the tag was written at
    has name length 0 and no name: it is not the tag written. *)
Theorem named_tag_not_read_back (fuel : nat) (t : NBT) (pre old post : list byte) :
  id t <> 0 -> 0 < nameLength t < 65536 ->
  short_name t = true -> short_names t = true ->
  List.length old = List.length (tag_bytes t) ->
  exists s1,
    toBytes t (on (pre ++ old ++ post) (Z.of_nat (List.length pre))) = (Ok tt, s1) /\
    forall t' s',
      parseNBT fuel (on (buffer s1) (Z.of_nat (List.length pre))) = (Ok t', s') ->
      nameLength t' = 0 /\ name t' = [] /\ t' <> t.
Proof.
  intros Hid Hnl Hshort Hshorts Hold.
  eexists. split.
  { apply (writes_seq (writeHeader t) (writePayload t));
      [now apply writes_writeHeader | now apply writes_writePayload | exact Hold]. }
  cbn [on buffer]. intros t' s' E.
  destruct (header_bytes_named t Hid ltac:(lia) Hshort) as (x & y & Hh).
  unfold tag_bytes in E. rewrite Hh in E.
  set (rest := [x; y] ++ payload_bytes t) in *.
  change ([byte_of_Z (id t); x00; x00; x; y] ++ payload_bytes t)
    with ([byte_of_Z (id t)] ++ (be_bytes 2 0 ++ utf8Encode []) ++ rest) in E.
  assert (Hidr : reads (off <- post_increment ;;
                        data <- new_DataView off 1 ;;
                        getUint8 data 0) [byte_of_Z (id t)] (id t)).
  { apply reads_byte_field. intros view s pre' post' Hbuf Hoff Hview.
    pose proof (id_range t).
    apply (getUint_at 1) with pre' post'; auto; simpl; lia. }
  assert (Hname : reads _getNBTName (be_bytes 2 0 ++ utf8Encode []) ([], 0))
    by (apply (reads_getNBTName 0 []); [reflexivity | lia]).
  assert (Hrun : exists s2,
            parseNBT fuel
              (on (pre ++ ([byte_of_Z (id t)]
                             ++ (be_bytes 2 0 ++ utf8Encode []) ++ rest) ++ post)
                 (Z.of_nat (List.length pre)))
            = instantiate fuel (class_of t) 0 [] s2).
  { eexists. unfold parseNBT, parseNBT_body.
    unfold bind at 1, get_byteLength. unfold bind at 1, get_byteOffset.
    cbn [on byteOffset].
    destruct (_ <=? _) eqn:El; to_Prop;
      [rewrite byteLength_on, !length_app in El; cbn [List.length] in El; lia |].
    set (k := fun tagId : Z =>
                header <- (if negb (tagId =? 0) then _getNBTName else ret ([], 0)) ;;
                let '(name, nameLength) := header in
                match TAG_ID_TO_CLASS tagId with
                | Some tagClass => instantiate fuel tagClass nameLength name
                | None => throw (Error "Unexppected tag type")
                end).
    transitivity
      (bind (off <- post_increment ;;
             data <- new_DataView off 1 ;;
             getUint8 data 0) k
         (on (pre ++ ([byte_of_Z (id t)]
                        ++ (be_bytes 2 0 ++ utf8Encode []) ++ rest) ++ post)
            (Z.of_nat (List.length pre)))).
    { generalize (on (pre ++ ([byte_of_Z (id t)]
                                ++ (be_bytes 2 0 ++ utf8Encode []) ++ rest) ++ post)
                    (Z.of_nat (List.length pre))).
      subst k. regroup. }
    unfold bind at 1. rewrite <- app_assoc. rewrite (Hidr pre _).
    subst k. cbv beta.
    replace (negb (id t =? 0)) with true
      by (symmetry; apply negb_true_iff, Z.eqb_neq; exact Hid).
    unfold bind at 1.
    replace (on (pre ++ [byte_of_Z (id t)]
                   ++ ((be_bytes 2 0 ++ utf8Encode []) ++ rest) ++ post)
               (Z.of_nat (List.length pre)
                + Z.of_nat (List.length [byte_of_Z (id t)])))
      with (on ((pre ++ [byte_of_Z (id t)])
                  ++ (be_bytes 2 0 ++ utf8Encode []) ++ rest ++ post)
              (Z.of_nat (List.length (pre ++ [byte_of_Z (id t)]))))
      by (rewrite length_app, Nat2Z.inj_add, <- !app_assoc; reflexivity).
    rewrite (Hname (pre ++ [byte_of_Z (id t)]) (rest ++ post)).
    rewrite TAG_ID_TO_CLASS_id. reflexivity. }
  destruct Hrun as [s2 Hrun]. rewrite Hrun in E.
  destruct (ensures_instantiate fuel (class_of t) 0 [] ltac:(lia) _ _ _ E)
    as (_ & Hid' & [Hc | [Hn Hm]]).
  - destruct t; try discriminate Hc. now contradiction Hid.
  - split; [exact Hn |]. split; [exact Hm |].
    intros ->. lia.
Qed.

Lemma named_tag_not_read_back_witness :
  let t := TAG_Byte 1 (of_string "a") (number_of_Z 5) in
  exists s1,
    toBytes t (on ([] ++ repeat x00 6 ++ []) 0) = (Ok tt, s1) /\
    forall t' s',
      parseNBT 1 (on (buffer s1) 0) = (Ok t', s') ->
      nameLength t' = 0 /\ name t' = [] /\ t' <> t.
Proof.
  intros t. apply (named_tag_not_read_back 1 t [] (repeat x00 6) []).
  - discriminate.
  - simpl. lia.
  - reflexivity.
  - reflexivity.
  - reflexivity.
Defined.
